(** * The hydra game: mutation engine and layout of [index.js] and [script.js]

    Both programs keep the hydra as a graph of mutable JavaScript objects
    linked by [children] arrays and [parent] back references.  The objects
    live in a store (the i-th allocated object sits at address i); the
    recursive walks of the programs are written with fuel, and shown to
    return on every store that holds a tree. *)

From stdpp Require Import list gmap.
From Stdlib Require Import QArith Qminmax Qround Lqa.
Close Scope Q_scope.
Set Warnings "-register-all".

(** ** Outcomes of a call *)

Inductive outcome (A : Type) : Type :=
| Done (a : A)
| TypeError
| OutOfFuel.
Arguments Done {A} a.
Arguments TypeError {A}.
Arguments OutOfFuel {A}.

#[global] Instance outcome_ret : MRet outcome := λ A a, Done a.
#[global] Instance outcome_bind : MBind outcome := λ A B k m,
  match m with
  | Done a => k a
  | TypeError => TypeError
  | OutOfFuel => OutOfFuel
  end.

#[global] Instance outcome_fmap : FMap outcome := λ A B f m,
  match m with
  | Done a => Done (f a)
  | TypeError => TypeError
  | OutOfFuel => OutOfFuel
  end.

(** [for (const c of cs) s = f(c, s)] *)
Fixpoint forEach {S : Type} (f : nat → S → outcome S) (cs : list nat) (s : S)
  : outcome S :=
  match cs with
  | [] => Done s
  | c :: cs' => s' ← f c s; forEach f cs' s'
  end.

(** [for (let i = 0; i < n; i++) s = f(s)] *)
Fixpoint times {S : Type} (n : nat) (f : S → outcome S) (s : S) : outcome S :=
  match n with
  | 0 => Done s
  | S n' => s' ← f s; times n' f s'
  end.

(** Object references are store addresses; [null] is [None]. *)
Abbreviation addr := nat (only parsing).

(** ** Trees of addresses: the shape a store holds below a node *)

Inductive tree : Type := T (a : addr) (cs : list tree).

Definition tr_root (t : tree) : addr := let 'T a _ := t in a.
Definition tr_kids (t : tree) : list tree := let 'T _ cs := t in cs.

Fixpoint addrs (t : tree) : list addr :=
  match t with T a cs => a :: mjoin (addrs <$> cs) end.

Fixpoint size (t : tree) : nat :=
  match t with T _ cs => S (sum_list (size <$> cs)) end.

Fixpoint height (t : tree) : nat :=
  match t with T _ cs => S (max_list (height <$> cs)) end.

(** The nodes of [t] at depth [d] below its root. *)
Fixpoint level (d : nat) (t : tree) : list addr :=
  match t with
  | T a cs =>
      match d with
      | 0 => [a]
      | S d' => mjoin (level d' <$> cs)
      end
  end.

(** Shapes forget the addresses. *)
Inductive shape : Type := Sh (cs : list shape).

Fixpoint erase (t : tree) : shape :=
  match t with T _ cs => Sh (erase <$> cs) end.

Fixpoint sh_size (s : shape) : nat :=
  match s with Sh cs => S (sum_list (sh_size <$> cs)) end.

Fixpoint sh_height (s : shape) : nat :=
  match s with Sh cs => S (max_list (sh_height <$> cs)) end.

(** The order in which a cut makes a hydra smaller: one child [c] of a
    node is replaced by any number of trees that are smaller than [c], the
    children taken as a multiset. *)
Inductive red : shape → shape → Prop :=
| red_intro l1 c l2 ds cs' :
    cs' ≡ₚ l1 ++ l2 ++ ds →
    Forall (λ d, red d c) ds →
    red (Sh cs') (Sh (l1 ++ c :: l2)).

(** One-hole contexts: the path from the root down to a subtree, each
    frame holding a node with the siblings left and right of the hole. *)
Record frame : Type := Fr { fr_addr : addr; fr_left : list tree; fr_right : list tree }.

Fixpoint plug (c : list frame) (u : tree) : tree :=
  match c with
  | [] => u
  | Fr a l r :: c' => T a (l ++ plug c' u :: r)
  end.

Definition frame_addrs (f : frame) : list addr :=
  fr_addr f :: mjoin (addrs <$> fr_left f) ++ mjoin (addrs <$> fr_right f).

Definition ctx_addrs (c : list frame) : list addr := mjoin (frame_addrs <$> c).

(** The parent reference of the node in the hole. *)
Definition hole_par (par : option addr) (c : list frame) : option addr :=
  match last c with Some f => Some (fr_addr f) | None => par end.

(** ** Measures of a tree *)

(** The chain [initHydra] leaves below the root when the first object it
    allocates gets address [k]: [n + 1] nodes, each the only child of the
    one allocated after it. *)
Fixpoint chain_up (k n : nat) : tree :=
  match n with
  | 0 => T k []
  | S n' => T (k + n) [chain_up k n']
  end.

(** The number of childless nodes of [t]. *)
Fixpoint leaves (t : tree) : nat :=
  match t with
  | T _ cs => if bool_decide (length cs = 0) then 1 else sum_list (leaves <$> cs)
  end.


(** The chain [lineHydra] builds from the address [k] on: [n + 1] nodes,
    each the only child of the one allocated before it. *)
Fixpoint chain_down (k n : nat) : tree :=
  match n with
  | 0 => T k []
  | S n' => T k [chain_down (S k) n']
  end.

(** The shape of the full tree of depth [d] in which every inner node has
    [b] children. *)
Fixpoint full (b d : nat) : shape :=
  match d with
  | 0 => Sh []
  | S d' => Sh (replicate b (full b d'))
  end.

Section linked.
Context {N : Type} (kids : N → list addr) (up : N → option addr).

(** The store [h] holds the tree [t] below a node whose parent reference
    is [par]. *)
Inductive repr (h : list N) : option addr → tree → Prop :=
| repr_T par a cs n :
    h !! a = Some n →
    kids n = tr_root <$> cs →
    up n = par →
    Forall (repr h (Some a)) cs →
    repr h par (T a cs).

(** The structural fields of the object at [a] are the same in [h']. *)
Definition keeps (h h' : list N) (a : addr) : Prop :=
  ∀ n, h !! a = Some n →
    ∃ n', h' !! a = Some n' ∧ kids n' = kids n ∧ up n' = up n.

(** [cp] is a deep copy of [u] hanging below [G] in the store [h]: the
    same shape and child order, as many nodes as [u], each once, all
    allocated after the store held [k0] objects, the root pointing up to
    [G] and every other node to a node of [cp]. *)
Definition deep_copy (k0 : nat) (h : list N) (G : addr) (u cp : tree) : Prop :=
  repr h (Some G) cp ∧
  erase cp = erase u ∧
  length (addrs cp) = size u ∧
  NoDup (addrs cp) ∧
  (∀ a, a ∈ addrs cp → k0 ≤ a) ∧
  (∃ n, h !! tr_root cp = Some n ∧ up n = Some G) ∧
  (∀ a, a ∈ addrs cp → a ≠ tr_root cp →
     ∃ n q, h !! a = Some n ∧ up n = Some q ∧ q ∈ addrs cp).

(** The cut of the leaf [L] below the root [R] took [L], and nothing
    else, out of the store [h], giving [h']. *)
Definition cut_off (h h' : list N) (L R : addr) : Prop :=
  ∃ r r' m1 m2,
    h !! R = Some r ∧ h' !! R = Some r' ∧
    kids r = m1 ++ L :: m2 ∧ kids r' = m1 ++ m2 ∧ (L ∉ m1 ++ m2) ∧
    up r' = up r ∧
    length h' = length h ∧
    (∀ b n, h !! b = Some n → b ≠ R →
       ∃ n', h' !! b = Some n' ∧ kids n' = kids n ∧ up n' = up n).

(** The cut of the leaf [L] below [P] regrew [P] with factor [k]: [L] is
    gone from [P], [P] is still below its parent [G], and [k] deep copies
    of what is left of [P] were appended to [G]. *)
Definition regrown (h h' : list N) (L P : addr) (k : nat) : Prop :=
  ∃ p G g p' g' u copies,
    h !! P = Some p ∧ up p = Some G ∧ h !! G = Some g ∧
    h' !! P = Some p' ∧ h' !! G = Some g' ∧
    kids p' = filter (λ c, c ≠ L) (kids p) ∧ (L ∉ kids p') ∧ up p' = Some G ∧
    P ∈ kids g ∧ kids g' = kids g ++ (tr_root <$> copies) ∧
    length copies = k ∧
    repr h' (Some G) u ∧ tr_root u = P ∧ (L ∉ addrs u) ∧
    Forall (deep_copy (length h) h' G u) copies ∧
    NoDup (mjoin (addrs <$> copies)) ∧
    length h' = length h + k * size u.

(** The frame of a regrowing cut: [P] lost [L], [G] gained [k] new
    children at the end, every other object kept its links. *)
Definition framed (h h' : list N) (L P : addr) (k : nat) : Prop :=
  ∃ p G g p' g' m1 m2 news,
    h !! P = Some p ∧ up p = Some G ∧ h !! G = Some g ∧
    h' !! P = Some p' ∧ h' !! G = Some g' ∧
    kids p = m1 ++ L :: m2 ∧ kids p' = m1 ++ m2 ∧ (L ∉ m1 ++ m2) ∧
    up p' = up p ∧
    P ∈ kids g ∧ kids g' = kids g ++ news ∧ length news = k ∧ up g' = up g ∧
    (∀ a, a ∈ news → length h ≤ a) ∧
    (∀ b n, h !! b = Some n → b ≠ P → b ≠ G →
       ∃ n', h' !! b = Some n' ∧ kids n' = kids n ∧ up n' = up n).
End linked.

(** ** [index.js]: the turn-indexed hydra *)

Module Index.

Definition radius : Q := 10.
Definition hSpacing : Q := 40.
Definition vSpacing : Q := 80.

(** [class Node]: a label, the owned children, the back reference and the
    layout fields. *)
Record Node : Type := mkNode {
  id : nat;
  children : list addr;
  parent : option addr;
  x : Q;
  y : Q;
  width : Q
}.

Definition set_id (i : nat) (n : Node) : Node :=
  mkNode i (children n) (parent n) (x n) (y n) (width n).
Definition set_children (cs : list addr) (n : Node) : Node :=
  mkNode (id n) cs (parent n) (x n) (y n) (width n).
Definition push_child (c : addr) (n : Node) : Node :=
  set_children (children n ++ [c]) n.
Definition set_parent (p : option addr) (n : Node) : Node :=
  mkNode (id n) (children n) p (x n) (y n) (width n).
Definition set_xy (x' y' : Q) (n : Node) : Node :=
  mkNode (id n) (children n) (parent n) x' y' (width n).
Definition set_width (w : Q) (n : Node) : Node :=
  mkNode (id n) (children n) (parent n) (x n) (y n) w.

(** The store and the top-level variables of the script.  [listening]
    tells whether [handleClick] is registered on the canvas. *)
Record state : Type := mkState {
  heap : list Node;
  step : nat;
  idCounter : nat;
  reducedGrowth : bool;
  listening : bool
}.

Definition set_heap (h : list Node) (s : state) : state :=
  mkState h (step s) (idCounter s) (reducedGrowth s) (listening s).
Definition set_step (t : nat) (s : state) : state :=
  mkState (heap s) t (idCounter s) (reducedGrowth s) (listening s).
Definition set_idCounter (i : nat) (s : state) : state :=
  mkState (heap s) (step s) i (reducedGrowth s) (listening s).
Definition set_reducedGrowth (b : bool) (s : state) : state :=
  mkState (heap s) (step s) (idCounter s) b (listening s).
Definition set_listening (b : bool) (s : state) : state :=
  mkState (heap s) (step s) (idCounter s) (reducedGrowth s) b.

(** [let root = new Node(0)] is the first object the script allocates. *)
Definition root : addr := 0.

Definition init : state :=
  mkState [mkNode 0 [] None 0 0 0] 0 0 false true.

(** Reading through a reference; [null.f] throws. *)
Definition get (a : addr) (s : state) : outcome Node :=
  match heap s !! a with Some n => Done n | None => TypeError end.
Definition deref (o : option addr) : outcome addr :=
  match o with Some a => Done a | None => TypeError end.

(** Writing fields of the object at [a]. *)
Definition update (a : addr) (f : Node → Node) (s : state) : state :=
  set_heap (alter f a (heap s)) s.

Definition newId (s : state) : nat * state :=
  (idCounter s, set_idCounter (S (idCounter s)) s).

(** [new Node(id, children)] *)
Definition new_Node (i : nat) (cs : list addr) (s : state) : addr * state :=
  let this := length (heap s) in
  let s1 := set_heap (heap s ++ [mkNode i cs None 0 0 0]) s in
  (this, foldl (λ s c, update c (set_parent (Some this)) s) s1 cs).

Fixpoint deepCopy (fuel : nat) (node : addr) (newParent : option addr)
    (s : state) : outcome (addr * state) :=
  match fuel with
  | 0 => OutOfFuel
  | S fuel =>
      let '(i, s) := newId s in
      let '(newNode, s) := new_Node i [] s in
      let s := update newNode (set_parent newParent) s in
      n ← get node s;
      s ← forEach (λ child s,
             '(newChild, s) ← deepCopy fuel child (Some newNode) s;
             Done (update newNode (push_child newChild) s))
           (children n) s;
      Done (newNode, s)
  end.

Definition isLeaf (node : addr) (s : state) : bool :=
  match heap s !! node with
  | Some n => bool_decide (length (children n) = 0) && bool_decide (node ≠ root)
  | None => false
  end.

Fixpoint computeWidths (fuel : nat) (node : addr) (s : state) : outcome state :=
  match fuel with
  | 0 => OutOfFuel
  | S fuel =>
      n ← get node s;
      '(sum, s) ← forEach (λ child '(sum, s),
             s ← computeWidths fuel child s;
             c ← get child s;
             Done ((sum + width c)%Q, s))
           (children n) (0%Q, s);
      n ← get node s;
      Done (update node
              (set_width (if bool_decide (length (children n) = 0)
                          then hSpacing else Qmax hSpacing sum)) s)
  end.

Fixpoint placeNodes (fuel : nat) (node : addr) (x y : Q) (s : state)
    : outcome state :=
  match fuel with
  | 0 => OutOfFuel
  | S fuel =>
      let s := update node (set_xy x y) s in
      n ← get node s;
      '(sumChildWidth, _) ← forEach (λ child '(sum, s),
             c ← get child s;
             Done ((sum + width c)%Q, s))
           (children n) (0%Q, s);
      let currentX := (x - sumChildWidth / 2)%Q in
      '(_, s) ← forEach (λ child '(currentX, s),
             c ← get child s;
             s ← placeNodes fuel child (currentX + width c / 2)%Q
                   (y - vSpacing)%Q s;
             c ← get child s;
             Done ((currentX + width c)%Q, s))
           (children n) (currentX, s);
      Done s
  end.

(** The inner [traverse] of [relabelTree]; [next] is threaded along. *)
Fixpoint relabel_traverse (fuel : nat) (node : addr) (st : nat * state)
    : outcome (nat * state) :=
  match fuel with
  | 0 => OutOfFuel
  | S fuel =>
      let '(next, s) := st in
      let s := update node (set_id next) s in
      n ← get node s;
      forEach (relabel_traverse fuel) (children n) (S next, s)
  end.

Definition relabelTree (fuel : nat) (s : state) : outcome state :=
  '(next, s) ← relabel_traverse fuel root (0, s);
  Done (set_idCounter next s).

(** The inner [traverse] of [getAllNodes]; the array [list] is threaded
    along as [acc]. *)
Fixpoint all_traverse (fuel : nat) (s : state) (node : addr) (acc : list addr)
    : outcome (list addr) :=
  match fuel with
  | 0 => OutOfFuel
  | S fuel =>
      let acc := acc ++ [node] in
      n ← get node s;
      forEach (all_traverse fuel s) (children n) acc
  end.

Definition getAllNodes (fuel : nat) (s : state) : outcome (list addr) :=
  all_traverse fuel s root [].

(** [redraw]: the passes over the store; painting the canvas and the
    status line is left to the drawing surface. *)
Definition redraw (fuel : nat) (s : state) : outcome state :=
  s ← relabelTree fuel s;
  s ← computeWidths fuel root s;
  s ← placeNodes fuel root 0%Q 0%Q s;
  _ ← getAllNodes fuel s;
  Done s.

(** The variables of the script that no pass of [redraw] writes. *)
Definition turn (s : state) : nat * bool * bool :=
  (step s, reducedGrowth s, listening s).

(** The growth factor of [chop], read after [step++]. *)
Definition growth (s : state) : nat :=
  if reducedGrowth s then 1 else step s.

Definition chop (fuel : nat) (leaf : addr) (s : state) : outcome state :=
  let s := set_step (S (step s)) s in
  l ← get leaf s;
  P ← deref (parent l);
  p ← get P s;
  let s := update P (set_children (filter (λ c, c ≠ leaf) (children p))) s in
  s ← (if decide (P ≠ root) then
         p ← get P s;
         let G := parent p in
         let N := growth s in
         times N (λ s,
           '(copy, s) ← deepCopy fuel P G s;
           g ← deref G;
           Done (update g (push_child copy) s)) s
       else Done s);
  s ← redraw fuel s;
  r ← get root s;
  Done (if bool_decide (length (children r) = 0)
        then set_listening false s else s).

(** [handleClick] at the world point [(wx, wy)]; [suppress] is
    [justPanned || dragged || e.button !== 0]. *)
Definition hit (wx wy : Q) (n : Node) : bool :=
  let dx := (wx - x n)%Q in
  let dy := (wy - y n)%Q in
  if Qlt_le_dec (dx * dx + dy * dy) (radius * radius) then true else false.

Definition handleClick (fuel : nat) (suppress : bool) (wx wy : Q) (s : state)
    : outcome state :=
  if suppress then Done s
  else
    nodes ← getAllNodes fuel s;
    match list_find (λ node, isLeaf node s = true ∧
               (hit wx wy <$> heap s !! node) = Some true) nodes with
    | Some (_, node) => chop fuel node s
    | None => Done s
    end.

(** A click reaches [handleClick] only while the listener is registered. *)
Definition click (fuel : nat) (suppress : bool) (wx wy : Q) (s : state)
    : outcome state :=
  if listening s then handleClick fuel suppress wx wy s else Done s.

Definition initHydra (fuel : nat) (length : nat) (s : state) : outcome state :=
  let s := set_step 0 s in
  let s := set_idCounter (length + 1) s in
  let '(current, s) := new_Node length [] s in
  let '(current, s) :=
    foldl (λ '(current, s) i, new_Node i [current] s) (current, s)
      (rev (seq 1 (length - 1))) in
  let s := update root (set_children [current]) s in
  r ← get root s;
  c0 ← deref (children r !! 0);
  let s := update c0 (set_parent (Some root)) s in
  let s := set_listening true s in
  redraw fuel s.

Definition toggleReducedGrowth (fuel : nat) (s : state) : outcome state :=
  redraw fuel (set_reducedGrowth (negb (reducedGrowth s)) s).

(** The store holds the tree [t] below [root], every node once. *)
Definition wf (s : state) (t : tree) : Prop :=
  tr_root t = root ∧ repr children parent (heap s) None t ∧ NoDup (addrs t).

(** A move of the game: [chop] of a reachable leaf returns [s']. *)
Inductive cut (s s' : state) : Prop :=
| cut_intro t L fuel :
    wf s t → L ∈ addrs t → isLeaf L s = true →
    height t ≤ fuel → chop fuel L s = Done s' →
    cut s s'.

(** [root.children.length === 0] *)
Definition slain (s : state) : Prop :=
  ∃ r, heap s !! root = Some r ∧ children r = [].

(** However the player cuts from [s] on, the hydra ends up slain: either
    it is, or a cut is possible and after every cut the same holds. *)
Inductive slays : state → Prop :=
| slays_now s : slain s → slays s
| slays_cut s : (∃ s', cut s s') → (∀ s', cut s s' → slays s') → slays s.

(** [s'] is [s] with [k] more objects; the top-level variables other than
    [idCounter] and the objects of [s] are untouched. *)
Definition extends (s s' : state) (k : nat) : Prop :=
  length (heap s') = length (heap s) + k ∧
  (∀ a, a < length (heap s) → heap s' !! a = heap s !! a) ∧
  step s' = step s ∧ reducedGrowth s' = reducedGrowth s ∧
  listening s' = listening s ∧ idCounter s' = idCounter s + k.

(** The reserved width [computeWidths] stores at the root of [t], and
    the left edge [placeNodes] has reached after the children [pre]. *)
Definition sumw (ws : list Q) : Q := foldl Qplus 0%Q ws.

Fixpoint widthT (t : tree) : Q :=
  match t with
  | T _ cs =>
      if bool_decide (length cs = 0) then hSpacing
      else Qmax hSpacing (sumw (widthT <$> cs))
  end.

Definition edge (start : Q) (pre : list tree) : Q :=
  foldl (λ cur c, (cur + widthT c)%Q) start pre.

(** Every node of [t] carries the reserved width of its subtree. *)
Inductive laid_w (h : list Node) : tree → Prop :=
| laid_w_T a cs n :
    h !! a = Some n → width n = widthT (T a cs) →
    Forall (laid_w h) cs →
    laid_w h (T a cs).

(** Every node of [t] sits where [placeNodes(t, x, y)] puts it. *)
Inductive placed (h : list Node) : Q → Q → tree → Prop :=
| placed_T px py a cs n :
    h !! a = Some n → x n = px → y n = py →
    (∀ pre c post, cs = pre ++ c :: post →
       placed h (edge (px - sumw (widthT <$> cs) / 2) pre + widthT c / 2)%Q
                (py - vSpacing)%Q c) →
    placed h px py (T a cs).

(** The layout as a function of the shape alone: the reserved width of a
    shape, and the positions [placeNodes] gives its nodes, in pre-order. *)
Fixpoint widthS (s : shape) : Q :=
  match s with
  | Sh cs =>
      if bool_decide (length cs = 0) then hSpacing
      else Qmax hSpacing (sumw (widthS <$> cs))
  end.

Fixpoint coordsS (px py : Q) (s : shape) : list (Q * Q) :=
  match s with
  | Sh cs =>
      (px, py) ::
      (fix row (cur : Q) (cs : list shape) : list (Q * Q) :=
         match cs with
         | [] => []
         | c :: cs' =>
             coordsS (cur + widthS c / 2)%Q (py - vSpacing)%Q c
             ++ row (cur + widthS c)%Q cs'
         end) (px - sumw (widthS <$> cs) / 2)%Q cs
  end.

(** The position stored in the object at [a]. *)
Definition position (h : list Node) (a : addr) : option (Q * Q) :=
  (λ n, (x n, y n)) <$> h !! a.

(** What the passes of [redraw] leave alone: the links of every object,
    and for [placeNodes] also the label and the reserved width. *)
Definition links (n n' : Node) : Prop :=
  children n' = children n ∧ parent n' = parent n.
Definition links_width (n n' : Node) : Prop :=
  links n n' ∧ id n' = id n ∧ width n' = width n.

Definition restyle (R : Node → Node → Prop) (s s' : state) : Prop :=
  Forall2 R (heap s) (heap s') ∧
  step s' = step s ∧ reducedGrowth s' = reducedGrowth s ∧
  listening s' = listening s ∧ idCounter s' = idCounter s.

(** The label stored in the object at [a]. *)
Definition label (h : list Node) (a : addr) : option nat := id <$> h !! a.



End Index.

(** ** [script.js]: the depth-indexed hydra *)

Module Script.

Definition NODE_R : Q := 14.
Definition LEVEL_GAP : Q := 90.

(** A node object: [{ id, children, parent, depth }]. *)
Record Node : Type := mkNode {
  id : nat;
  children : list addr;
  parent : option addr;
  depth : nat
}.

Definition set_children (cs : list addr) (n : Node) : Node :=
  mkNode (id n) cs (parent n) (depth n).
Definition push_child (c : addr) (n : Node) : Node :=
  set_children (children n ++ [c]) n.
Definition set_parent (p : option addr) (n : Node) : Node :=
  mkNode (id n) (children n) p (depth n).
Definition set_depth (d : nat) (n : Node) : Node :=
  mkNode (id n) (children n) (parent n) d.

(** The store and the variables of the closure.  [clientWidth] is what
    the page reports for [svg.clientWidth]. *)
Record state : Type := mkState {
  heap : list Node;
  hydra : option addr;
  moveCount : nat;
  depthCounters : gmap nat nat;
  nextId : nat;
  clientWidth : Q
}.

Definition set_heap (h : list Node) (s : state) : state :=
  mkState h (hydra s) (moveCount s) (depthCounters s) (nextId s) (clientWidth s).
Definition set_hydra (r : option addr) (s : state) : state :=
  mkState (heap s) r (moveCount s) (depthCounters s) (nextId s) (clientWidth s).
Definition set_moveCount (m : nat) (s : state) : state :=
  mkState (heap s) (hydra s) m (depthCounters s) (nextId s) (clientWidth s).
Definition set_depthCounters (m : gmap nat nat) (s : state) : state :=
  mkState (heap s) (hydra s) (moveCount s) m (nextId s) (clientWidth s).
Definition set_nextId (i : nat) (s : state) : state :=
  mkState (heap s) (hydra s) (moveCount s) (depthCounters s) i (clientWidth s).

Definition init (w : Q) : state := mkState [] None 0 ∅ 1 w.

(** [svg.clientWidth || 1000] *)
Definition WIDTH (s : state) : Q :=
  if Qeq_bool (clientWidth s) 0 then 1000%Q else clientWidth s.

Definition get (a : addr) (s : state) : outcome Node :=
  match heap s !! a with Some n => Done n | None => TypeError end.
Definition deref {A} (o : option A) : outcome A :=
  match o with Some a => Done a | None => TypeError end.

Definition update (a : addr) (f : Node → Node) (s : state) : state :=
  set_heap (alter f a (heap s)) s.

Definition newId (s : state) : nat * state :=
  (nextId s, set_nextId (S (nextId s)) s).

(** An object literal [{ id: newId(), children, parent: null, depth: 0 }]. *)
Definition new_object (cs : list addr) (s : state) : addr * state :=
  let '(i, s) := newId s in
  (length (heap s), set_heap (heap s ++ [mkNode i cs None 0]) s).

Definition makeNode (cs : list addr) (s : state) : addr * state :=
  let '(node, s) := new_object cs s in
  (node, foldl (λ s c, update c (set_parent (Some node)) s) s cs).

(** The inner [rec] of [cloneSubtree]; the [map] it fills is never read. *)
Fixpoint clone_rec (fuel : nat) (n : addr) (s : state) : outcome (addr * state) :=
  match fuel with
  | 0 => OutOfFuel
  | S fuel =>
      let '(copy, s) := new_object [] s in
      o ← get n s;
      s ← forEach (λ c s,
             '(cc, s) ← clone_rec fuel c s;
             let s := update cc (set_parent (Some copy)) s in
             Done (update copy (push_child cc) s))
           (children o) s;
      Done (copy, s)
  end.

Definition cloneSubtree (fuel : nat) (node : addr) (s : state)
    : outcome (addr * state) :=
  clone_rec fuel node s.

Fixpoint assignDepths (fuel : nat) (node : addr) (d : nat) (s : state)
    : outcome state :=
  match fuel with
  | 0 => OutOfFuel
  | S fuel =>
      let s := update node (set_depth d) s in
      o ← get node s;
      forEach (λ c s, assignDepths fuel c (d + 1) s) (children o) s
  end.

Definition isLeaf (n : Node) : bool := bool_decide (length (children n) = 0).
Definition isRoot (n : Node) : bool := bool_decide (parent n = None).

(** The inner [size] of [computeLayout], with its [sizeCache]. *)
Fixpoint size_rec (fuel : nat) (s : state) (n : addr) (sizeCache : gmap nat nat)
    : outcome (nat * gmap nat nat) :=
  match fuel with
  | 0 => OutOfFuel
  | S fuel =>
      match sizeCache !! n with
      | Some v => Done (v, sizeCache)
      | None =>
          o ← get n s;
          '(v, sizeCache) ←
            (if bool_decide (length (children o) ≠ 0) then
               '(vals, sizeCache) ← forEach (λ c '(vals, sizeCache),
                      '(v, sizeCache) ← size_rec fuel s c sizeCache;
                      Done (vals ++ [v], sizeCache))
                    (children o) ([], sizeCache);
               Done (foldl Nat.add 0 vals, sizeCache)
             else Done (1, sizeCache));
          Done (v, <[n := v]> sizeCache)
      end
  end.

Definition num (n : nat) : Q := inject_Z (Z.of_nat n).

(** The inner [place] of [computeLayout]; a size missing from the cache
    would poison the arithmetic and is reported as a failure. *)
Fixpoint place (fuel : nat) (s : state) (W : Q) (sizeCache : gmap nat nat)
    (n : addr) (xLeft xRight : Q) (depth : nat) (coords : gmap nat (Q * Q))
    : outcome (gmap nat (Q * Q)) :=
  match fuel with
  | 0 => OutOfFuel
  | S fuel =>
      let x := ((xLeft + xRight) / 2)%Q in
      let y := (40 + num depth * LEVEL_GAP)%Q in
      let coords := <[n := (x, y)]> coords in
      o ← get n s;
      if bool_decide (length (children o) = 0) then Done coords
      else
        total ← forEach (λ ch total,
                 v ← deref (sizeCache !! ch); Done (total + v))
               (children o) 0;
        '(_, coords) ← forEach (λ ch '(cur, coords),
                 v ← deref (sizeCache !! ch);
                 let w := ((num v / num total) * (W - 120))%Q in
                 coords ← place fuel s W sizeCache ch cur (cur + w)%Q
                            (depth + 1) coords;
                 Done ((cur + w)%Q, coords))
               (children o) (xLeft, coords);
        Done coords
  end.

Definition computeLayout (fuel : nat) (root : addr) (s : state)
    : outcome (gmap nat (Q * Q)) :=
  let W := WIDTH s in
  '(_, sizeCache) ← size_rec fuel s root ∅;
  place fuel s W sizeCache root 60%Q (W - 60)%Q 0 ∅.

(** [render]: the passes over the store and the layout; drawing the SVG
    elements from [coords] is left to the drawing surface. *)
Definition render (fuel : nat) (s : state) : outcome state :=
  h ← deref (hydra s);
  s ← assignDepths fuel h 0 s;
  _ ← computeLayout fuel h s;
  Done s.

Definition afterMutation (fuel : nat) (s : state) : outcome state :=
  h ← deref (hydra s);
  s ← assignDepths fuel h 0 s;
  render fuel s.

Definition cutLeaf (fuel : nat) (leaf : addr) (s : state) : outcome state :=
  l ← get leaf s;
  if negb (isLeaf l) then Done s
  else
    match parent l with
    | None => Done s
    | Some p =>
        op ← get p s;
        let s := update p (set_children (filter (λ c, c ≠ leaf) (children op))) s in
        op ← get p s;
        if isRoot op then
          afterMutation fuel (set_moveCount (S (moveCount s)) s)
        else
          let g := parent op in
          let d := depth op in
          let prev := default 0 (depthCounters s !! d) in
          let k := prev + 1 in
          s ← times k (λ s,
                 '(copy, s) ← cloneSubtree fuel p s;
                 let s := update copy (set_parent g) s in
                 g' ← deref g;
                 Done (update g' (push_child copy) s)) s;
          let s := set_depthCounters (<[d := k]> (depthCounters s)) s in
          afterMutation fuel (set_moveCount (S (moveCount s)) s)
    end.

Definition lineHydra (fuel : nat) (length : nat) (s : state)
    : outcome (addr * state) :=
  let '(root, s) := makeNode [] s in
  let '(_, s) :=
    Nat.iter length (λ '(cur, s),
      let '(child, s) := makeNode [] s in
      let s := update child (set_parent (Some cur)) s in
      let s := update cur (push_child child) s in
      (child, s)) (root, s) in
  s ← assignDepths fuel root 0 s;
  Done (root, s).

(** The inner [rec] of [balancedHydra]. *)
Fixpoint balanced_rec (branching d : nat) (s : state) : addr * state :=
  match d with
  | 0 => makeNode [] s
  | S d' =>
      let '(kids, s) :=
        foldl (λ '(kids, s) _,
                 let '(k, s) := balanced_rec branching d' s in (kids ++ [k], s))
              ([], s) (seq 0 branching) in
      makeNode kids s
  end.

Definition balancedHydra (fuel : nat) (depth branching : nat) (s : state)
    : outcome (addr * state) :=
  let '(r, s) := balanced_rec branching depth s in
  s ← assignDepths fuel r 0 s;
  Done (r, s).

Definition resetCounters (s : state) : state := set_depthCounters ∅ s.

Definition setHydra (fuel : nat) (root : addr) (s : state) : outcome state :=
  let s := set_hydra (Some root) s in
  s ← assignDepths fuel root 0 s;
  let s := set_moveCount 0 s in
  let s := resetCounters s in
  render fuel s.

(** The [Simple] button, which is also how the page starts. *)
Definition btnSimple (fuel : nat) (s : state) : outcome state :=
  let s := set_nextId 1 s in
  '(r, s) ← balancedHydra fuel 3 2 s;
  setHydra fuel r s.

Definition btnMedium (fuel : nat) (s : state) : outcome state :=
  let s := set_nextId 1 s in
  '(r, s) ← balancedHydra fuel 4 3 s;
  setHydra fuel r s.

(** Every node of [t] carries its distance [d], [d+1], ... from the root. *)
Inductive depths_ok (h : list Node) : nat → tree → Prop :=
| depths_ok_T d a cs n :
    h !! a = Some n → depth n = d →
    Forall (depths_ok h (S d)) cs →
    depths_ok h d (T a cs).

Definition wf (s : state) (t : tree) : Prop :=
  hydra s = Some (tr_root t) ∧ repr children parent (heap s) None t ∧
  NoDup (addrs t) ∧ depths_ok (heap s) 0 t.

Definition links (n n' : Node) : Prop :=
  children n' = children n ∧ parent n' = parent n.

(** The variables of the closure other than the store agree. *)
Definition same_vars (s s' : state) : Prop :=
  hydra s' = hydra s ∧ moveCount s' = moveCount s ∧
  depthCounters s' = depthCounters s ∧ nextId s' = nextId s ∧
  clientWidth s' = clientWidth s.

(** [s'] is [s] with [k] more objects and [k] more identifiers used. *)
Definition grows (s s' : state) (k : nat) : Prop :=
  length (heap s') = length (heap s) + k ∧
  (∀ a, a < length (heap s) → heap s' !! a = heap s !! a) ∧
  same_vars (set_nextId (nextId s + k) s) s'.




(** [subtreeSize], which no call site uses. *)
Fixpoint subtreeSize (fuel : nat) (s : state) (n : addr) : outcome nat :=
  match fuel with
  | 0 => OutOfFuel
  | S fuel =>
      o ← get n s;
      if bool_decide (length (children o) = 0) then Done 1
      else
        forEach (λ c sum, v ← subtreeSize fuel s c; Done (sum + v))
          (children o) 0
  end.

(** Every node of [t] has the number of leaves below it in the cache. *)
Inductive sized (cache : gmap nat nat) : tree → Prop :=
| sized_T a cs :
    cache !! a = Some (leaves (T a cs)) →
    Forall (sized cache) cs →
    sized cache (T a cs).

(** The width [place] gives to a child with [v] of the [total] leaves of
    its parent, and the left edge it has reached after the children
    [pre]. *)
Definition share (W : Q) (v total : nat) : Q :=
  ((num v / num total) * (W - 120))%Q.

Definition sedge (W : Q) (total : nat) (xLeft : Q) (pre : list tree) : Q :=
  foldl (λ cur c, (cur + share W (leaves c) total)%Q) xLeft pre.

(** Every node of [t] has in [coords] the point [place(t, xl, xr, d)]
    sets for it. *)
Inductive laid (W : Q) (coords : gmap nat (Q * Q)) : Q → Q → nat → tree → Prop :=
| laid_T xl xr d a cs :
    coords !! a = Some (((xl + xr) / 2)%Q, (40 + num d * LEVEL_GAP)%Q) →
    (∀ pre c post, cs = pre ++ c :: post →
       laid W coords (sedge W (leaves (T a cs)) xl pre)
         (sedge W (leaves (T a cs)) xl pre
          + share W (leaves c) (leaves (T a cs)))%Q
         (S d) c) →
    laid W coords xl xr d (T a cs).

(** A move of the game: the click handler that [render] puts on a leaf
    other than the root calls [cutLeaf], which returns [s']. *)
Inductive cut (s s' : state) : Prop :=
| cut_intro t L l fuel :
    wf s t → L ∈ addrs t → heap s !! L = Some l →
    isLeaf l = true → isRoot l = false →
    height t ≤ fuel → cutLeaf fuel L s = Done s' →
    cut s s'.

(** [hydra.children.length === 0], the test of [checkWin]. *)
Definition slain (s : state) : Prop :=
  ∃ h r, hydra s = Some h ∧ heap s !! h = Some r ∧ children r = [].

(** However the player cuts from [s] on, the hydra ends up slain. *)
Inductive slays : state → Prop :=
| slays_now s : slain s → slays s
| slays_cut s : (∃ s', cut s s') → (∀ s', cut s s' → slays s') → slays s.

End Script.

(** ** Hydras at the start of a game *)

(** [index.js] after [initHydra(3)], as the page loads it, and after
    [initHydra(1)]. *)
Definition chain3 : Index.state :=
  Eval vm_compute in
    match Index.initHydra 4 3 Index.init with Done s => s | _ => Index.init end.
Definition chain3_tree : tree := T 0 [T 3 [T 2 [T 1 []]]].

Definition chain1 : Index.state :=
  Eval vm_compute in
    match Index.initHydra 2 1 Index.init with Done s => s | _ => Index.init end.
Definition chain1_tree : tree := T 0 [T 1 []].

(** [index.js] after [initHydra(3)] and the cut of the only head: the
    node below the root carries two heads. *)
Definition forked : Index.state :=
  Eval vm_compute in
    match Index.chop 4 1 chain3 with Done s => s | _ => Index.init end.
Definition forked_tree : tree := T 0 [T 3 [T 2 []; T 4 []]].

(** [script.js] after [setHydra(balancedHydra(3, 2))], as the page loads it
    in a window that reports no width, and after
    [setHydra(balancedHydra(1, 2))]. *)
Definition simple : Script.state :=
  Eval vm_compute in
    match Script.btnSimple 4 (Script.init 0) with
    | Done s => s
    | _ => Script.init 0
    end.
Definition simple_tree : tree :=
  T 14 [T 6 [T 2 [T 0 []; T 1 []]; T 5 [T 3 []; T 4 []]];
        T 13 [T 9 [T 7 []; T 8 []]; T 12 [T 10 []; T 11 []]]].

Definition twig : Script.state :=
  Eval vm_compute in
    match
      '(r, s) ← Script.balancedHydra 2 1 2 (Script.init 0); Script.setHydra 2 r s
    with
    | Done s => s
    | _ => Script.init 0
    end.
Definition twig_tree : tree := T 2 [T 0 []; T 1 []].

(** The layout [coords] of [computeLayout] puts node [a] at the point
    [(px, py)]. *)
Definition located (coords : gmap nat (Q * Q)) (a : addr) (px py : Q) : Prop :=
  ∃ p, coords !! a = Some p ∧ (p.1 == px)%Q ∧ (p.2 == py)%Q.

(** * Proofs *)

(** ** Trees and contexts *)

Lemma tree_ind' (P : tree → Prop) :
  (∀ a cs, Forall P cs → P (T a cs)) → ∀ t, P t.
Proof.
  intros step. fix IH 1. intros [a cs]. apply step.
  induction cs as [|c cs IHcs]; constructor; [apply IH | exact IHcs].
Qed.

Lemma height_child a cs c : c ∈ cs → height c < height (T a cs).
Proof.
  intros Hc. csimpl.
  assert (height c ≤ max_list (height <$> cs)); [|lia].
  apply max_list_elem_of_le, list_elem_of_fmap. eauto.
Qed.

Lemma height_pos t : 0 < height t.
Proof. destruct t; csimpl; lia. Qed.

Lemma size_addrs t : length (addrs t) = size t.
Proof.
  induction t as [a cs IH] using tree_ind'. csimpl. f_equal.
  induction IH as [|c cs Hc _ IHcs]; csimpl; [done|].
  rewrite length_app, Hc, IHcs. done.
Qed.

Lemma erase_size t : sh_size (erase t) = size t.
Proof.
  induction t as [a cs IH] using tree_ind'. csimpl. f_equal.
  induction IH as [|c cs Hc _ IHcs]; csimpl; [done|]. by rewrite Hc, IHcs.
Qed.

Lemma tr_root_in t : tr_root t ∈ addrs t.
Proof. destruct t; csimpl. left. Qed.

Lemma addrs_child a cs c b : c ∈ cs → b ∈ addrs c → b ∈ addrs (T a cs).
Proof.
  intros Hc Hb. csimpl. right. apply list_elem_of_join.
  exists (addrs c). split; [done|]. apply list_elem_of_fmap. eauto.
Qed.

Lemma plug_app c1 c2 u : plug (c1 ++ c2) u = plug c1 (plug c2 u).
Proof. induction c1 as [|[a l r] c1 IH]; csimpl; [done|]. by rewrite IH. Qed.

Lemma addrs_plug c u : addrs (plug c u) ≡ₚ ctx_addrs c ++ addrs u.
Proof.
  induction c as [|[a l r] c IH]; csimpl; [done|].
  unfold ctx_addrs in *. csimpl. unfold frame_addrs at 1. csimpl.
  constructor. rewrite fmap_app, join_app. csimpl.
  rewrite IH. rewrite <- !app_assoc.
  apply Permutation_app_head.
  rewrite (app_assoc _ _ (mjoin (addrs <$> r))). apply Permutation_app_comm.
Qed.

Lemma height_plug c u : height u ≤ height (plug c u).
Proof.
  induction c as [|[a l r] c IH]; csimpl; [done|].
  assert (height (plug c u) ≤ max_list (height <$> l ++ plug c u :: r)); [|lia].
  apply max_list_elem_of_le, list_elem_of_fmap.
  eexists; split; [done|]. apply elem_of_app. right. left.
Qed.

(** Every node below the root sits in a hole whose innermost frame is its
    parent. *)
Lemma tree_focus t b :
  b ∈ addrs t → b ≠ tr_root t →
  ∃ c p m1 m2 cs, t = plug c (T p (m1 ++ T b cs :: m2)).
Proof.
  induction t as [a cs IH] using tree_ind'. csimpl. intros Hb Hne.
  apply elem_of_cons in Hb as [?|Hb]; [done|].
  apply list_elem_of_join in Hb as (l & Hbl & Hl).
  apply list_elem_of_fmap in Hl as (c & -> & Hc).
  apply list_elem_of_split in Hc as (l1 & l2 & ->).
  destruct (decide (b = tr_root c)) as [->|Hbc].
  - exists [], a, l1, l2, (tr_kids c). by destruct c.
  - rewrite Forall_app, Forall_cons in IH. destruct IH as (_ & IHc & _).
    destruct (IHc Hbl Hbc) as (k & p & m1 & m2 & cs' & ->).
    exists (Fr a l1 l2 :: k), p, m1, m2, cs'. done.
Qed.

Lemma tr_root_plug c u :
  tr_root (plug c u) = match c with [] => tr_root u | f :: _ => fr_addr f end.
Proof. by destruct c as [|[a l r] c]. Qed.

Lemma hole_par_cons par f c : hole_par par (f :: c) = hole_par (Some (fr_addr f)) c.
Proof.
  unfold hole_par. rewrite last_cons. by destruct (last c).
Qed.

Lemma ctx_addrs_cons f c : ctx_addrs (f :: c) = frame_addrs f ++ ctx_addrs c.
Proof. done. Qed.

Lemma forEach_trees {S : Type} (f : addr → S → outcome S)
    (I : list tree → S → Prop) (cs : list tree) (s : S) :
  I [] s →
  (∀ pre c post s, cs = pre ++ c :: post → I pre s →
     ∃ s', f (tr_root c) s = Done s' ∧ I (pre ++ [c]) s') →
  ∃ s', forEach f (tr_root <$> cs) s = Done s' ∧ I cs s'.
Proof.
  intros H0 Hstep.
  assert (∀ post pre s, cs = pre ++ post → I pre s →
    ∃ s', forEach f (tr_root <$> post) s = Done s' ∧ I cs s') as Hgen.
  { induction post as [|c post IH]; intros pre s1 -> Hpre.
    - rewrite app_nil_r. by exists s1.
    - destruct (Hstep pre c post s1 eq_refl Hpre) as (s2 & Hf & Hs2).
      destruct (IH (pre ++ [c]) s2) as (s3 & Hs3 & HI); [by rewrite <- app_assoc|done|].
      exists s3. split; [|done]. csimpl. rewrite Hf. exact Hs3. }
  by apply (Hgen cs []).
Qed.

Lemma forEach_trees_k {S : Type} (f : addr → S → outcome S)
    (I : list tree → S → Prop) (cs : list tree) (s : S) (P : outcome S → Prop) :
  I [] s →
  (∀ pre c post s, cs = pre ++ c :: post → I pre s →
     ∃ s', f (tr_root c) s = Done s' ∧ I (pre ++ [c]) s') →
  (∀ s', I cs s' → P (Done s')) →
  P (forEach f (tr_root <$> cs) s).
Proof.
  intros H0 Hstep Hk. destruct (forEach_trees f I cs s H0 Hstep) as (s' & -> & HI).
  by apply Hk.
Qed.

(** Run the loop over the children in the goal with the invariant [I]. *)
Ltac loop I :=
  match goal with
  | |- context [forEach ?f (tr_root <$> ?cs) ?s0] =>
      pattern (forEach f (tr_root <$> cs) s0);
      apply (forEach_trees_k f I cs s0); [| |cbv beta]
  end.

Lemma forEach_keeps {S A : Type} (g : S → A) (f : addr → S → outcome S)
    (cs : list addr) :
  (∀ c s s', f c s = Done s' → g s' = g s) →
  ∀ s s', forEach f cs s = Done s' → g s' = g s.
Proof.
  intros Hf. induction cs as [|c cs IH]; intros s s' H; csimpl in H.
  - by injection H as ->.
  - destruct (f c s) as [s1| |] eqn:Hc; csimpl in H; try done.
    etrans; [by apply IH|by eapply Hf].
Qed.

Lemma times_keeps {S A : Type} (g : S → A) (f : S → outcome S) (n : nat) :
  (∀ s s', f s = Done s' → g s' = g s) →
  ∀ s s', times n f s = Done s' → g s' = g s.
Proof.
  intros Hf. induction n as [|n IH]; intros s s' H; csimpl in H.
  - by injection H as ->.
  - destruct (f s) as [s1| |] eqn:Hc; csimpl in H; try done.
    etrans; [by apply IH|by eapply Hf].
Qed.

(** Split [x ← m; k = Done r] into the two calls that returned. *)
Tactic Notation "bind_inv" hyp(H) "as" simple_intropattern(p) ident(E) :=
  match type of H with
  | mbind _ ?m = Done _ =>
      destruct m as [p| |] eqn:E; cbn [mbind outcome_bind] in H; [|discriminate H..]
  end.

Lemma NoDup_addrs_inv a pre c post :
  NoDup (addrs (T a (pre ++ c :: post))) →
  NoDup (addrs c) ∧ (a ∉ addrs c) ∧
  (∀ b, b ∈ addrs c → b ∉ mjoin (addrs <$> pre)) ∧
  (∀ b, b ∈ addrs c → b ∉ mjoin (addrs <$> post)).
Proof.
  csimpl. rewrite fmap_app, join_app. csimpl.
  intros H. apply NoDup_cons in H as [Ha H].
  apply NoDup_app in H as (Hpre & Hdis & H).
  apply NoDup_app in H as (Hc & Hdis2 & Hpost).
  split_and!; [done| | |].
  - intros Hin. apply Ha. apply elem_of_app. right. apply elem_of_app. by left.
  - intros b Hb Hin. apply (Hdis b Hin). apply elem_of_app. by left.
  - intros b Hb. by apply Hdis2.
Qed.

Lemma NoDup_addrs_root a cs : NoDup (addrs (T a cs)) → a ∉ mjoin (addrs <$> cs).
Proof. csimpl. by intros [? ?]%NoDup_cons. Qed.

Section linked_facts.
Context {N : Type} (kids : N → list addr) (up : N → option addr).
#[local] Abbreviation repr := (repr kids up).
#[local] Abbreviation keeps := (keeps kids up).

Lemma repr_inv h par a cs :
  repr h par (T a cs) →
  ∃ n, h !! a = Some n ∧ kids n = tr_root <$> cs ∧ up n = par ∧
       Forall (repr h (Some a)) cs.
Proof. inversion 1; subst. eauto. Qed.

Lemma repr_root h par t :
  repr h par t →
  ∃ n, h !! tr_root t = Some n ∧ kids n = tr_root <$> tr_kids t ∧ up n = par.
Proof. destruct t. intros (n & ? & ? & ? & _)%repr_inv. eauto. Qed.

Lemma repr_local h h' t : ∀ par,
  repr h par t → (∀ a, a ∈ addrs t → keeps h h' a) → repr h' par t.
Proof.
  induction t as [a cs IH] using tree_ind'. intros par Hr Hk.
  apply repr_inv in Hr as (n & Hn & Hkids & Hup & Hcs).
  destruct (Hk a (tr_root_in (T a cs)) n Hn) as (n' & Hn' & Hkids' & Hup').
  econstructor; [exact Hn'|congruence|congruence|].
  rewrite Forall_forall in *. intros c Hc.
  apply IH; [done|by apply Hcs|]. intros b Hb. eapply Hk, addrs_child; eauto.
Qed.

Lemma repr_lookup h t : ∀ par a,
  repr h par t → a ∈ addrs t → is_Some (h !! a).
Proof.
  induction t as [b cs IH] using tree_ind'. intros par a Hr Ha.
  apply repr_inv in Hr as (n & Hn & _ & _ & Hcs). csimpl in Ha.
  apply elem_of_cons in Ha as [->|Ha]; [eauto|].
  apply list_elem_of_join in Ha as (l & Hal & Hl).
  apply list_elem_of_fmap in Hl as (c & -> & Hc).
  rewrite Forall_forall in *. eapply IH; eauto.
Qed.

Lemma repr_plug h c u : ∀ par,
  repr h par (plug c u) → repr h (hole_par par c) u.
Proof.
  induction c as [|[a l r] c IH]; intros par Hr; [done|].
  rewrite hole_par_cons. csimpl in *.
  apply repr_inv in Hr as (n & _ & _ & _ & Hcs).
  apply IH. rewrite Forall_app, Forall_cons in Hcs. tauto.
Qed.

Lemma repr_plug_subst h h' c u u' : ∀ par,
  repr h par (plug c u) →
  (∀ a, a ∈ ctx_addrs c → keeps h h' a) →
  tr_root u' = tr_root u →
  repr h' (hole_par par c) u' →
  repr h' par (plug c u').
Proof.
  induction c as [|[a l r] c IH]; intros par Hr Hk Hroot Hu'; [done|].
  rewrite hole_par_cons in Hu'. csimpl in *.
  apply repr_inv in Hr as (n & Hn & Hkids & Hup & Hcs).
  rewrite Forall_app, Forall_cons in Hcs. destruct Hcs as (Hl & Hc & Hr).
  assert (∀ b, b ∈ frame_addrs (Fr a l r) → keeps h h' b) as Hkf.
  { intros b Hb. apply Hk. rewrite ctx_addrs_cons. apply elem_of_app. by left. }
  destruct (Hkf a) with (n := n) as (n' & Hn' & Hkids' & Hup'); [left|done|].
  econstructor; [exact Hn'| | congruence |].
  - rewrite Hkids', Hkids, !fmap_app. csimpl. rewrite !tr_root_plug.
    by destruct c; rewrite ?Hroot.
  - rewrite Forall_app, Forall_cons. split_and!.
    + rewrite Forall_forall in *. intros d Hd. eapply repr_local; [by apply Hl|].
      intros b Hb. apply Hkf. right. apply elem_of_app. left.
      apply list_elem_of_join. exists (addrs d). split; [done|].
      apply list_elem_of_fmap. eauto.
    + apply IH; [done| |done|done]. intros b Hb. apply Hk.
      rewrite ctx_addrs_cons. apply elem_of_app. by right.
    + rewrite Forall_forall in *. intros d Hd. eapply repr_local; [by apply Hr|].
      intros b Hb. apply Hkf. right. apply elem_of_app. right.
      apply list_elem_of_join. exists (addrs d). split; [done|].
      apply list_elem_of_fmap. eauto.
Qed.
End linked_facts.

Lemma times_inv {S : Type} (f : S → outcome S) (I : nat → S → Prop) (n : nat) (s : S) :
  I 0 s →
  (∀ i s, i < n → I i s → ∃ s', f s = Done s' ∧ I (Datatypes.S i) s') →
  ∃ s', times n f s = Done s' ∧ I n s'.
Proof.
  intros H0 Hstep.
  assert (∀ m i s, i + m = n → I i s → ∃ s', times m f s = Done s' ∧ I n s') as Hgen.
  { induction m as [|m IH]; intros i s1 Him Hi.
    - exists s1. split; [done|]. by replace n with i by lia.
    - destruct (Hstep i s1) as (s2 & Hf & Hs2); [lia|done|].
      destruct (IH (Datatypes.S i) s2) as (s3 & Hrun & Hs3); [lia|done|].
      exists s3. split; [|done]. csimpl. by rewrite Hf. }
  by apply (Hgen n 0).
Qed.

Lemma filter_ne_notin (l : list nat) (x : nat) : x ∉ l → filter (λ c, c ≠ x) l = l.
Proof.
  induction l as [|y l IH]; [done|]. intros [? ?]%not_elem_of_cons.
  rewrite filter_cons_True by done. by rewrite IH.
Qed.

Lemma filter_ne_middle (l1 l2 : list nat) (x : nat) :
  NoDup (l1 ++ x :: l2) → filter (λ c, c ≠ x) (l1 ++ x :: l2) = l1 ++ l2.
Proof.
  intros H. apply NoDup_app in H as (_ & H1 & H2). apply NoDup_cons in H2 as [H2 _].
  rewrite filter_app, filter_cons_False by (intros ?; done).
  rewrite !filter_ne_notin; [done|done|]. intros Hx. apply (H1 x Hx). left.
Qed.

Lemma NoDup_roots a cs : NoDup (addrs (T a cs)) → NoDup (tr_root <$> cs).
Proof.
  csimpl. intros [_ H]%NoDup_cons. induction cs as [|c cs IH]; csimpl in *; [constructor|].
  apply NoDup_app in H as (_ & Hdis & Hcs). apply NoDup_cons. split; [|by apply IH].
  intros (d & Heq & Hd)%list_elem_of_fmap. apply (Hdis (tr_root c) (tr_root_in c)).
  apply list_elem_of_join. exists (addrs d). split; [rewrite Heq; apply tr_root_in|].
  apply list_elem_of_fmap. eauto.
Qed.

Lemma join_fmap_snoc {A B} (f : A → list B) (l : list A) (x : A) :
  mjoin (f <$> l ++ [x]) = mjoin (f <$> l) ++ f x.
Proof. rewrite fmap_app, join_app. csimpl. by rewrite app_nil_r. Qed.

Lemma addrs_T_snoc a cs c :
  addrs (T a (cs ++ [c])) = addrs (T a cs) ++ addrs c.
Proof. csimpl. rewrite fmap_app, join_app. csimpl. by rewrite app_nil_r. Qed.

Lemma addrs_T_cut a m1 c m2 :
  addrs (T a (m1 ++ c :: m2)) ≡ₚ addrs c ++ addrs (T a (m1 ++ m2)).
Proof.
  csimpl. rewrite !fmap_app, !join_app. csimpl.
  rewrite (Permutation_app_swap_app (mjoin (addrs <$> m1))).
  apply Permutation_middle.
Qed.

Lemma NoDup_plug_sub c u u' :
  NoDup (addrs (plug c u)) → NoDup (addrs u') →
  (∀ b, b ∈ addrs u' → b ∈ addrs u ∨ b ∉ addrs (plug c u)) →
  NoDup (addrs (plug c u')).
Proof.
  rewrite (addrs_plug c u), NoDup_app. intros (Hc & Hdis & Hu) Hu' Hsub.
  rewrite (addrs_plug c u'), NoDup_app.
  split_and!; [done| |done]. intros b Hb Hb'.
  destruct (Hsub b Hb') as [?|Hn]; [by eapply Hdis|].
  apply Hn. rewrite addrs_plug. apply elem_of_app. by left.
Qed.

Lemma plug_root_notin c u :
  NoDup (addrs (plug c u)) → c ≠ [] → tr_root (plug c u) ∉ addrs u.
Proof.
  rewrite addrs_plug, NoDup_app, tr_root_plug. intros (_ & Hdis & _) Hc.
  destruct c as [|f c]; [done|]. apply Hdis. rewrite ctx_addrs_cons.
  apply elem_of_app. left. left.
Qed.

Lemma ctx_notin_hole c u b :
  NoDup (addrs (plug c u)) → b ∈ addrs u → b ∉ ctx_addrs c.
Proof.
  rewrite addrs_plug, NoDup_app. intros (_ & Hdis & _) Hb Hc. by eapply Hdis.
Qed.

Lemma erase_height t : sh_height (erase t) = height t.
Proof.
  induction t as [a cs IH] using tree_ind'. csimpl. f_equal.
  induction IH as [|c cs Hc _ IHcs]; csimpl; [done|]. by rewrite Hc, IHcs.
Qed.

Lemma max_list_le (l : list nat) (m : nat) : Forall (λ x, x ≤ m) l → max_list l ≤ m.
Proof. induction 1; csimpl; lia. Qed.

Lemma height_T_le a cs b ds :
  (∀ d, d ∈ ds → ∃ c, c ∈ cs ∧ height d ≤ height c) →
  height (T b ds) ≤ height (T a cs).
Proof.
  intros H. csimpl. apply le_n_S, max_list_le, Forall_forall.
  intros x (d & -> & Hd)%list_elem_of_fmap. destruct (H d Hd) as (c & Hc & Hle).
  etrans; [exact Hle|]. apply max_list_elem_of_le, list_elem_of_fmap. eauto.
Qed.

Lemma height_plug_mono c u u' :
  height u' ≤ height u → height (plug c u') ≤ height (plug c u).
Proof.
  intros Hle. induction c as [|[a l r] c IH]; cbn [plug]; [done|].
  apply height_T_le. intros d [Hd|[->|Hd]%elem_of_cons]%elem_of_app.
  - exists d. split; [|done]. apply elem_of_app. by left.
  - exists (plug c u). split; [|done]. apply elem_of_app. right. left.
  - exists d. split; [|done]. apply elem_of_app. right. by right.
Qed.

Lemma level_plug c u : tr_root u ∈ level (length c) (plug c u).
Proof.
  induction c as [|[a l r] c IH]; csimpl; [destruct u; left|].
  rewrite fmap_app, join_app. csimpl. apply elem_of_app. right.
  apply elem_of_app. by left.
Qed.

Lemma NoDup_plug_hole c u : NoDup (addrs (plug c u)) → NoDup (addrs u).
Proof. rewrite addrs_plug, NoDup_app. tauto. Qed.

(** ** The two mutations of a cut, on any store of linked objects *)

Section mutations.
Context {N : Type} (kids : N → list addr) (up : N → option addr).
Context (setk : list addr → N → N).
Hypothesis kids_setk : ∀ l n, kids (setk l n) = l.
Hypothesis up_setk : ∀ l n, up (setk l n) = up n.
#[local] Abbreviation repr := (repr kids up).
#[local] Abbreviation keeps := (keeps kids up).

Lemma keeps_eq (h h' : list N) a : h' !! a = h !! a → keeps h h' a.
Proof. intros Heq n Hn. exists n. by rewrite Heq. Qed.

Lemma repr_lt (h : list N) par t b : repr h par t → b ∈ addrs t → b < length h.
Proof.
  intros Hr Hb. destruct (repr_lookup _ _ _ _ _ _ Hr Hb) as [n Hn].
  by eapply lookup_lt_Some.
Qed.

(** Excising the leaf [L] from the children of [P]. *)
Lemma prune_heap (h : list N) par c P m1 L m2 p :
  repr h par (plug c (T P (m1 ++ T L [] :: m2))) →
  NoDup (addrs (plug c (T P (m1 ++ T L [] :: m2)))) →
  h !! P = Some p →
  kids p = tr_root <$> (m1 ++ T L [] :: m2) ∧
  filter (λ x, x ≠ L) (kids p) = tr_root <$> (m1 ++ m2) ∧
  repr (alter (setk (filter (λ x, x ≠ L) (kids p))) P h)
    par (plug c (T P (m1 ++ m2))) ∧
  NoDup (addrs (plug c (T P (m1 ++ m2)))).
Proof.
  intros Hr Hnd Hp.
  pose proof (repr_plug _ _ _ _ _ _ Hr) as Hhole.
  pose proof Hhole as (p' & Hp' & Hkids & Hup & Hcs)%repr_inv.
  assert (p' = p) as -> by congruence.
  pose proof (NoDup_plug_hole _ _ Hnd) as Hndh.
  assert (filter (λ x, x ≠ L) (kids p) = tr_root <$> (m1 ++ m2)) as Hfilter.
  { rewrite Hkids, !fmap_app. csimpl. apply filter_ne_middle.
    apply NoDup_roots in Hndh. by rewrite fmap_app in Hndh. }
  split_and!; [done|done| |].
  - rewrite Hfilter. eapply repr_plug_subst; [exact Hr| |done|].
    + intros b Hb. apply keeps_eq, list_lookup_alter_ne. intros ->.
      eapply ctx_notin_hole; [exact Hnd| |exact Hb]. left.
    + econstructor; [by rewrite list_lookup_alter_eq, Hp|by rewrite kids_setk|
                     by rewrite up_setk|].
      rewrite Forall_forall in *. intros d Hd.
      assert (d ∈ m1 ++ T L [] :: m2) as Hd'.
      { apply elem_of_app in Hd as [?|?]; apply elem_of_app; [by left|].
        right. by right. }
      eapply repr_local; [by apply Hcs|]. intros b Hb.
      apply keeps_eq, list_lookup_alter_ne. intros ->.
      apply (NoDup_addrs_root _ _ Hndh). apply list_elem_of_join.
      exists (addrs d). split; [done|]. apply list_elem_of_fmap. eauto.
  - pose proof (addrs_T_cut P m1 (T L []) m2) as Hperm.
    eapply NoDup_plug_sub; [exact Hnd| |].
    + rewrite Hperm in Hndh. by apply NoDup_app in Hndh as (_ & _ & ?).
    + intros b Hb. left. rewrite Hperm. apply elem_of_app. by right.
Qed.

(** Appending a copy [cp], laid out at fresh addresses of a larger store
    [h1], to the children of [G]. *)
Lemma graft_heap (h h1 : list N) par c G kids0 cp n :
  repr h par (plug c (T G kids0)) →
  NoDup (addrs (plug c (T G kids0))) →
  (∀ b, b < length h → h1 !! b = h !! b) →
  repr h1 (Some G) cp →
  addrs cp = seq (length h) n →
  repr (alter (λ g, setk (kids g ++ [tr_root cp]) g) G h1) par
    (plug c (T G (kids0 ++ [cp]))) ∧
  NoDup (addrs (plug c (T G (kids0 ++ [cp])))).
Proof.
  intros Hr Hnd F1 Hrcp Haddrs.
  pose proof (repr_plug _ _ _ _ _ _ Hr) as Hhole.
  pose proof Hhole as (g & Hg & Hkids & Hup & Hcs)%repr_inv.
  pose proof (NoDup_plug_hole _ _ Hnd) as Hndh.
  rewrite Forall_forall in Hcs.
  assert (∀ b, b ∈ addrs (plug c (T G kids0)) → b < length h) as Hold
    by (intros b; apply (repr_lt _ _ _ _ Hr)).
  assert (G < length h) as HG.
  { apply Hold. rewrite addrs_plug. apply elem_of_app. right. left. }
  split.
  - eapply repr_plug_subst; [exact Hr| |done|].
    + intros b Hb. apply keeps_eq. rewrite list_lookup_alter_ne; [apply F1|].
      * apply Hold. rewrite addrs_plug. apply elem_of_app. by left.
      * intros ->. eapply ctx_notin_hole; [exact Hnd| |exact Hb]. left.
    + econstructor.
      * rewrite list_lookup_alter_eq, F1 by done. by rewrite Hg.
      * by rewrite kids_setk, Hkids, fmap_app.
      * by rewrite up_setk.
      * rewrite Forall_app, Forall_singleton. split.
        -- rewrite Forall_forall. intros d Hd.
           eapply repr_local; [by apply Hcs|]. intros b Hb.
           assert (b ∈ mjoin (addrs <$> kids0)) as Hbk.
           { apply list_elem_of_join. exists (addrs d). split; [done|].
             apply list_elem_of_fmap. eauto. }
           apply keeps_eq. rewrite list_lookup_alter_ne; [apply F1|].
           ++ apply Hold. rewrite addrs_plug. apply elem_of_app. right. by right.
           ++ intros ->. by apply (NoDup_addrs_root _ _ Hndh).
        -- eapply repr_local; [exact Hrcp|]. intros b Hb.
           rewrite Haddrs in Hb. apply elem_of_seq in Hb.
           apply keeps_eq, list_lookup_alter_ne. lia.
  - eapply NoDup_plug_sub; [exact Hnd| |].
    + rewrite addrs_T_snoc. apply NoDup_app. split_and!; [done| |].
      * intros b Hb. rewrite Haddrs, elem_of_seq.
        assert (b < length h); [|lia].
        apply Hold. rewrite addrs_plug. apply elem_of_app. by right.
      * rewrite Haddrs. apply NoDup_seq.
    + intros b. rewrite addrs_T_snoc. intros [?|Hb]%elem_of_app; [by left|].
      right. intros Hb'. apply Hold in Hb'.
      rewrite Haddrs in Hb. apply elem_of_seq in Hb. lia.
Qed.

(** Where a cut lands: the leaf [L] with parent reference [P] sits either
    directly below the root [P], or below a [P] that has a grandparent. *)
Lemma cut_focus (h : list N) t L l P :
  repr h None t → L ∈ addrs t → h !! L = Some l → kids l = [] → up l = Some P →
  (∃ m1 m2, t = T P (m1 ++ T L [] :: m2)) ∨
  (∃ c G l1 l2 m1 m2,
     t = plug c (T G (l1 ++ T P (m1 ++ T L [] :: m2) :: l2))).
Proof.
  intros Hr HL Hl Hkids Hup.
  assert (L ≠ tr_root t) as Hne.
  { intros ->. destruct (repr_root _ _ _ _ _ Hr) as (n & Hn & _ & Hn').
    congruence. }
  destruct (tree_focus t L HL Hne) as (c0 & P' & m1 & m2 & cs & ->).
  pose proof (repr_plug _ _ _ _ _ _ Hr) as (_ & _ & _ & _ & Hcs)%repr_inv.
  rewrite Forall_app, Forall_cons in Hcs. destruct Hcs as (_ & HrL & _).
  apply repr_inv in HrL as (l' & Hl' & Hkids' & Hup' & _).
  assert (l' = l) as -> by congruence.
  assert (P' = P) as -> by congruence.
  assert (cs = []) as -> by (rewrite Hkids in Hkids'; by destruct cs).
  destruct c0 as [|f c0 _] using rev_ind.
  - left. eauto.
  - right. destruct f as [G l1 l2]. exists c0, G, l1, l2, m1, m2.
    by rewrite plug_app.
Qed.

(** Inside a represented tree every parent reference stays inside. *)
Lemma repr_parents (h : list N) t : ∀ par a,
  repr h par t → a ∈ addrs t →
  ∃ n, h !! a = Some n ∧
       (a = tr_root t ∧ up n = par ∨ ∃ q, up n = Some q ∧ q ∈ addrs t).
Proof.
  induction t as [b cs IH] using tree_ind'. intros par a Hr Ha.
  apply repr_inv in Hr as (n & Hn & _ & Hup & Hcs). csimpl in Ha.
  apply elem_of_cons in Ha as [->|Ha]; [eauto|].
  apply list_elem_of_join in Ha as (l & Hal & Hl).
  apply list_elem_of_fmap in Hl as (c & -> & Hc).
  rewrite Forall_forall in IH, Hcs.
  destruct (IH c Hc (Some b) a (Hcs c Hc) Hal) as (m & Hm & [[-> Hq]|(q & Hq & Hin)]).
  - exists m. split; [done|]. right. exists b. split; [done|]. left.
  - exists m. split; [done|]. right. exists q. split; [done|].
    by eapply addrs_child.
Qed.

Lemma deep_copy_intro k0 (h : list N) G u cp :
  repr h (Some G) cp → erase cp = erase u → NoDup (addrs cp) →
  (∀ a, a ∈ addrs cp → k0 ≤ a) →
  deep_copy kids up k0 h G u cp.
Proof.
  intros Hr He Hnd Hfresh. unfold deep_copy. split_and!; try done.
  - by rewrite size_addrs, <- !erase_size, He.
  - destruct (repr_root _ _ _ _ _ Hr) as (n & ? & _ & ?). eauto.
  - intros a Ha Hne.
    destruct (repr_parents h cp (Some G) a Hr Ha) as (n & Hn & [[? _]|(q & ? & ?)]);
      [done|eauto].
Qed.

(** What a regrowing cut has done to the store, read off the trees
    before and after. *)
Lemma regrow_store (h h' : list N) c G l1 l2 P m1 m2 L copies k0 :
  repr h None (plug c (T G (l1 ++ T P (m1 ++ T L [] :: m2) :: l2))) →
  NoDup (addrs (plug c (T G (l1 ++ T P (m1 ++ T L [] :: m2) :: l2)))) →
  repr h' None (plug c (T G (l1 ++ T P (m1 ++ m2) :: l2 ++ copies))) →
  Forall (λ cp, erase cp = erase (T P (m1 ++ m2))) copies →
  mjoin (addrs <$> copies) = seq k0 (length copies * size (T P (m1 ++ m2))) →
  ∃ p g p' g',
    h !! P = Some p ∧ h !! G = Some g ∧ h' !! P = Some p' ∧ h' !! G = Some g' ∧
    up p = Some G ∧ up p' = Some G ∧ up g' = up g ∧
    kids p = (tr_root <$> m1) ++ L :: (tr_root <$> m2) ∧
    kids p' = (tr_root <$> m1) ++ (tr_root <$> m2) ∧
    (L ∉ kids p') ∧ (L ∉ addrs (T P (m1 ++ m2))) ∧
    P ∈ kids g ∧ kids g' = kids g ++ (tr_root <$> copies) ∧
    repr h' (Some G) (T P (m1 ++ m2)) ∧
    Forall (deep_copy kids up k0 h' G (T P (m1 ++ m2))) copies ∧
    NoDup (mjoin (addrs <$> copies)).
Proof.
  intros Hr Hnd Hr' Her Hadd.
  pose proof (repr_plug _ _ _ _ _ _ Hr) as (g & Hg & Hgk & Hgu & HGcs)%repr_inv.
  rewrite Forall_app, Forall_cons in HGcs. destruct HGcs as (_ & HrP & _).
  pose proof HrP as (p & Hp & Hpk & Hpu & _)%repr_inv.
  pose proof (repr_plug _ _ _ _ _ _ Hr') as (g' & Hg' & Hgk' & Hgu' & HGcs')%repr_inv.
  rewrite Forall_app, Forall_cons, Forall_app in HGcs'.
  destruct HGcs' as (_ & HrP' & _ & Hcps).
  pose proof HrP' as (p' & Hp' & Hpk' & Hpu' & _)%repr_inv.
  pose proof (NoDup_plug_hole _ _ Hnd) as HndG.
  assert (NoDup (addrs (T P (m1 ++ T L [] :: m2)))) as HndP.
  { apply (NoDup_plug_hole [Fr G l1 l2]). exact HndG. }
  assert (NoDup (mjoin (addrs <$> copies))) as Hndc by (rewrite Hadd; apply NoDup_seq).
  exists p, g, p', g'. split_and!; try done.
  - congruence.
  - by rewrite Hpk, fmap_app.
  - by rewrite Hpk', fmap_app.
  - rewrite Hpk', fmap_app. apply NoDup_roots in HndP.
    rewrite fmap_app in HndP. csimpl in HndP.
    apply NoDup_app in HndP as (_ & H1 & H2). apply NoDup_cons in H2 as [H2 _].
    intros [?|?]%elem_of_app; [|done]. eapply H1; [done|left].
  - rewrite (addrs_T_cut P m1 (T L []) m2) in HndP. csimpl in HndP.
    by apply NoDup_cons in HndP as [? _].
  - rewrite Hgk, fmap_app. apply elem_of_app. right. left.
  - rewrite Hgk', Hgk, !fmap_app. csimpl. rewrite fmap_app.
    by rewrite <- !app_assoc.
  - rewrite Forall_forall in *. intros cp Hcp.
    assert (∀ a, a ∈ addrs cp → a ∈ mjoin (addrs <$> copies)) as Hin.
    { intros a Ha. apply list_elem_of_join. exists (addrs cp). split; [done|].
      apply list_elem_of_fmap. eauto. }
    apply deep_copy_intro; [by apply Hcps|by apply Her| |].
    + apply list_elem_of_split in Hcp as (c1 & c2 & ->).
      rewrite fmap_app, join_app in Hndc. csimpl in Hndc.
      apply NoDup_app in Hndc as (_ & _ & Hndc). by apply NoDup_app in Hndc as (? & _).
    + intros a Ha%Hin. rewrite Hadd in Ha. apply elem_of_seq in Ha. lia.
Qed.

Lemma regrow_summary (h h' : list N) c G l1 l2 P m1 m2 L copies p0 :
  repr h None (plug c (T G (l1 ++ T P (m1 ++ T L [] :: m2) :: l2))) →
  NoDup (addrs (plug c (T G (l1 ++ T P (m1 ++ T L [] :: m2) :: l2)))) →
  repr h' None (plug c (T G (l1 ++ T P (m1 ++ m2) :: l2 ++ copies))) →
  Forall (λ cp, erase cp = erase (T P (m1 ++ m2))) copies →
  mjoin (addrs <$> copies) =
    seq (length h) (length copies * size (T P (m1 ++ m2))) →
  length h' = length h + length copies * size (T P (m1 ++ m2)) →
  h !! P = Some p0 →
  filter (λ x, x ≠ L) (kids p0) = tr_root <$> (m1 ++ m2) →
  (∀ b n, h !! b = Some n → b ≠ P → b ≠ G →
     ∃ n', h' !! b = Some n' ∧ kids n' = kids n ∧ up n' = up n) →
  regrown kids up h h' L P (length copies) ∧
  framed kids up h h' L P (length copies).
Proof.
  intros Hr Hnd Hr' Her Hadd Hlen Hp0 Hfilter Hframe.
  destruct (regrow_store h h' c G l1 l2 P m1 m2 L copies (length h) Hr Hnd Hr' Her Hadd)
    as (p & g & p' & g' & Hp & Hg & Hp' & Hg' & Hpu & Hpu' & Hgu & Hpk & Hpk'
        & HL & HLu & HPg & Hgk & Hru & Hcps & Hndc).
  assert (p0 = p) as -> by congruence.
  split.
  - exists p, G, g, p', g', (T P (m1 ++ m2)), copies. split_and!; try done.
    by rewrite Hfilter, Hpk', fmap_app.
  - exists p, G, g, p', g', (tr_root <$> m1), (tr_root <$> m2), (tr_root <$> copies).
    split_and!; try done.
    + by rewrite <- Hpk'.
    + congruence.
    + by rewrite length_fmap.
    + intros a (cp & -> & Hcp)%list_elem_of_fmap. rewrite Forall_forall in Hcps.
      destruct (Hcps cp Hcp) as (_ & _ & _ & _ & Hfresh & _).
      apply Hfresh, tr_root_in.
Qed.

(** The store determines the tree below a node. *)
Lemma repr_unique (h : list N) t : ∀ t' par par',
  repr h par t → repr h par' t' → tr_root t = tr_root t' → t = t'.
Proof.
  induction t as [a cs IH] using tree_ind'. intros [a' cs'] par par' Hr Hr' Hroot.
  csimpl in Hroot. subst a'.
  apply repr_inv in Hr as (n & Hn & Hkids & _ & Hcs).
  apply repr_inv in Hr' as (n' & Hn' & Hkids' & _ & Hcs').
  assert (n' = n) as -> by congruence. f_equal.
  rewrite Hkids in Hkids'. clear Hn Hn' Hkids.
  revert cs' Hkids' Hcs'. induction cs as [|c cs IHcs]; intros [|c' cs'] Heq Hcs';
    try done.
  csimpl in Heq. injection Heq as Hc Hrest.
  apply Forall_cons in IH as [IHc IH], Hcs as [Hc1 Hcs], Hcs' as [Hc1' Hcs'].
  f_equal; [by eapply IHc|by apply IHcs].
Qed.
End mutations.

(** ** Cuts make the hydra smaller in a well-founded order *)

Lemma shape_ind' (P : shape → Prop) :
  (∀ cs, Forall P cs → P (Sh cs)) → ∀ s, P s.
Proof.
  intros step. fix IH 1. intros [cs]. apply step.
  induction cs as [|c cs IHcs]; constructor; [apply IH | exact IHcs].
Qed.

Lemma red_inv cs' cs :
  red (Sh cs') (Sh cs) →
  ∃ l1 c l2 ds, cs = l1 ++ c :: l2 ∧ cs' ≡ₚ l1 ++ l2 ++ ds ∧
                Forall (λ d, red d c) ds.
Proof. inversion 1; subst. eauto 10. Qed.

Lemma red_perm_r X N N' : red (Sh X) (Sh N') → N ≡ₚ N' → red (Sh X) (Sh N).
Proof.
  intros (l1 & c & l2 & ds & -> & HX & Hds)%red_inv HN.
  assert (c ∈ N) as (k1 & k2 & ->)%list_elem_of_split.
  { rewrite HN. apply elem_of_app. right. left. }
  apply Permutation_app_inv in HN.
  econstructor; [|exact Hds]. rewrite HX, !app_assoc. by rewrite HN.
Qed.

Lemma Acc_red_perm N N' : Acc red (Sh N) → N ≡ₚ N' → Acc red (Sh N').
Proof.
  intros HN Hperm. constructor. intros [X] HX.
  apply (Acc_inv HN). by eapply red_perm_r.
Qed.

Lemma Acc_red_cons c : Acc red c → ∀ M, Acc red (Sh M) → Acc red (Sh (c :: M)).
Proof.
  induction 1 as [c _ IH1]. intros M HM.
  remember (Sh M) as sM eqn:HsM. revert M HsM.
  induction HM as [sM HaccM IH2]. intros M ->.
  constructor. intros [X] (l1 & x & l2 & ds & Heq & HX & Hds)%red_inv.
  destruct l1 as [|c0 l1]; csimpl in Heq; injection Heq as <- ->.
  - apply (Acc_red_perm (ds ++ l2)); [|by rewrite HX, Permutation_app_comm].
    clear HX. induction Hds as [|d ds Hd _ IHds]; csimpl.
    + by constructor.
    + by apply IH1.
  - apply (Acc_red_perm (c :: l1 ++ l2 ++ ds)); [|by rewrite HX].
    eapply IH2; [|done]. by econstructor.
Qed.

Lemma red_wf : ∀ s, Acc red s.
Proof.
  induction s as [cs IH] using shape_ind'.
  induction IH as [|c cs Hc _ IHcs].
  - constructor. intros [X] (l1 & c & l2 & ds & Heq & _)%red_inv. by destruct l1.
  - by apply Acc_red_cons.
Qed.

Lemma red_plug c u u' :
  red (erase u') (erase u) → red (erase (plug c u')) (erase (plug c u)).
Proof.
  intros H. induction c as [|[a l r] c IH]; csimpl; [done|].
  rewrite !fmap_app. csimpl.
  apply (red_intro _ _ _ [erase (plug c u')]); [|by constructor].
  apply Permutation_app_head, Permutation_cons_append.
Qed.

Lemma red_cut_root a m1 L m2 :
  red (erase (T a (m1 ++ m2))) (erase (T a (m1 ++ T L [] :: m2))).
Proof.
  csimpl. rewrite !fmap_app. csimpl.
  apply (red_intro _ _ _ []); [by rewrite app_nil_r|constructor].
Qed.

Lemma red_cut_regrow G l1 P m1 L m2 l2 copies :
  Forall (λ cp, erase cp = erase (T P (m1 ++ m2))) copies →
  red (erase (T G (l1 ++ T P (m1 ++ m2) :: l2 ++ copies)))
      (erase (T G (l1 ++ T P (m1 ++ T L [] :: m2) :: l2))).
Proof.
  intros Her. cbn [erase]. rewrite !fmap_app, !fmap_cons, !fmap_app.
  apply (red_intro _ _ _ (erase (T P (m1 ++ m2)) :: (erase <$> copies))).
  - apply Permutation_app_head, Permutation_middle.
  - constructor; [apply red_cut_root|].
    rewrite Forall_fmap. eapply Forall_impl; [exact Her|].
    intros cp Hcp. unfold compose. rewrite Hcp. apply red_cut_root.
Qed.

(** A tree with a child has a leaf. *)
Lemma tree_leaf t :
  tr_kids t ≠ [] → ∃ c P m1 L m2, t = plug c (T P (m1 ++ T L [] :: m2)).
Proof.
  induction t as [a cs IH] using tree_ind'. destruct cs as [|[b bs] cs]; [done|].
  intros _. apply Forall_cons in IH as [IHb _].
  destruct bs as [|b' bs].
  - by exists [], a, [], b, cs.
  - destruct IHb as (c & P & m1 & L & m2 & Heq); [done|].
    exists (Fr a [] cs :: c), P, m1, L, m2. csimpl. by rewrite Heq.
Qed.

(** ** Levels and leaves *)

Lemma level_addrs t : ∀ d a, a ∈ level d t → a ∈ addrs t.
Proof.
  induction t as [b cs IH] using tree_ind'. intros [|d] a Ha; csimpl in Ha.
  - apply list_elem_of_singleton in Ha as ->. left.
  - apply list_elem_of_join in Ha as (l & Hal & Hl).
    apply list_elem_of_fmap in Hl as (c & -> & Hc).
    rewrite Forall_forall in IH. eapply addrs_child; [exact Hc|]. by eapply IH.
Qed.

Lemma addrs_level t : ∀ a, a ∈ addrs t → ∃ d, a ∈ level d t.
Proof.
  induction t as [b cs IH] using tree_ind'. intros a Ha. csimpl in Ha.
  apply elem_of_cons in Ha as [->|Ha]; [exists 0; left|].
  apply list_elem_of_join in Ha as (l & Hal & Hl).
  apply list_elem_of_fmap in Hl as (c & -> & Hc).
  rewrite Forall_forall in IH. destruct (IH c Hc a Hal) as (d & Hd).
  exists (S d). csimpl. apply list_elem_of_join. exists (level d c).
  split; [done|]. apply list_elem_of_fmap. eauto.
Qed.

Lemma level_child a cs d b :
  b ∈ level (S d) (T a cs) → ∃ i c, cs !! i = Some c ∧ b ∈ level d c.
Proof.
  csimpl. intros (l & Hbl & Hl)%list_elem_of_join.
  apply list_elem_of_fmap in Hl as (c & -> & Hc).
  apply list_elem_of_lookup in Hc as (i & Hi). eauto.
Qed.

Lemma lookup_two_split {A} (l : list A) i j x y :
  l !! i = Some x → l !! j = Some y → i < j →
  ∃ l1 l2 l3, l = l1 ++ x :: l2 ++ y :: l3.
Proof.
  intros Hi Hj Hij.
  exists (take i l), (take (j - S i) (drop (S i) l)), (drop (S (j - S i)) (drop (S i) l)).
  rewrite <- (take_drop_middle l i x Hi) at 1. f_equal. f_equal.
  symmetry. apply take_drop_middle. rewrite lookup_drop. rewrite <- Hj. f_equal. lia.
Qed.

Lemma leaves_pos t : 0 < leaves t.
Proof.
  induction t as [a cs IH] using tree_ind'. cbn [leaves].
  case_bool_decide as Hlen; [lia|].
  destruct cs as [|c cs]; [done|]. apply Forall_cons in IH as [Hc _].
  rewrite fmap_cons. change (0 < leaves c + sum_list (leaves <$> cs)). lia.
Qed.

Lemma leaves_le_size t : leaves t ≤ size t.
Proof.
  induction t as [a cs IH] using tree_ind'.
  assert (sum_list (leaves <$> cs) ≤ sum_list (size <$> cs)) as Hsum.
  { induction IH as [|c cs Hc _ IHcs]; [done|]. rewrite !fmap_cons.
    change (leaves c + sum_list (leaves <$> cs) ≤ size c + sum_list (size <$> cs)).
    lia. }
  cbn [leaves size]. case_bool_decide; lia.
Qed.

(** ** [index.js]: copying and cutting *)

Module IndexFacts.
Import Index.

#[local] Abbreviation repr := (repr children parent).
#[local] Abbreviation keeps := (keeps children parent).
#[local] Arguments update : simpl never.

Lemma lookup_update_ne s a b f :
  a ≠ b → heap (update b f s) !! a = heap s !! a.
Proof. intros. by apply list_lookup_alter_ne. Qed.

Lemma lookup_update_eq s a f n :
  heap s !! a = Some n → heap (update a f s) !! a = Some (f n).
Proof.
  intros H. change (alter f a (heap s) !! a = Some (f n)).
  by rewrite list_lookup_alter_eq, H.
Qed.

Lemma length_update s a f : length (heap (update a f s)) = length (heap s).
Proof. apply length_alter. Qed.

Lemma get_Done s a n : heap s !! a = Some n → get a s = Done n.
Proof. unfold get. by intros ->. Qed.

Lemma keeps_same (h h' : list Node) a : h' !! a = h !! a → keeps h h' a.
Proof. apply keeps_eq. Qed.

Lemma extends_refl s : extends s s 0.
Proof. unfold extends. split_and!; auto with lia. Qed.

Lemma extends_trans s1 s2 s3 k1 k2 :
  extends s1 s2 k1 → extends s2 s3 k2 → extends s1 s3 (k1 + k2).
Proof.
  intros (L1 & F1 & ? & ? & ? & ?) (L2 & F2 & ? & ? & ? & ?).
  unfold extends. split_and!; try congruence; try lia.
  intros a Ha. rewrite F2, F1; [done|lia|lia].
Qed.

Lemma extends_update s s' k a f :
  extends s s' k → length (heap s) ≤ a → extends s (update a f s') k.
Proof.
  intros (L & F & ? & ? & ? & ?) Ha. unfold extends.
  rewrite length_update. split_and!; try done.
  intros b Hb. rewrite lookup_update_ne by lia. by apply F.
Qed.

Lemma repr_extends s s' k par t :
  extends s s' k → repr (heap s) par t → repr (heap s') par t.
Proof.
  intros (_ & F & _) Hr. eapply repr_local; [exact Hr|].
  intros a Ha. apply keeps_same, F.
  destruct (repr_lookup _ _ _ _ _ _ Hr Ha) as [n Hn]. by eapply lookup_lt_Some.
Qed.

(** [deepCopy] of a tree-shaped subtree returns a copy laid out in
    pre-order at the next free addresses. *)
Lemma deepCopy_spec u : ∀ fuel s par np,
  repr (heap s) par u → height u ≤ fuel →
  ∃ s' c,
    deepCopy fuel (tr_root u) np s = Done (length (heap s), s') ∧
    extends s s' (size u) ∧
    repr (heap s') np c ∧
    tr_root c = length (heap s) ∧
    erase c = erase u ∧
    addrs c = seq (length (heap s)) (size u).
Proof.
  induction u as [a cs IH] using tree_ind'. intros fuel s par np Hr Hfuel.
  destruct fuel as [|fuel]; [pose proof (height_pos (T a cs)); lia|].
  pose proof Hr as (n & Hn & Hkids & Hup & Hcs)%repr_inv.
  set (k := length (heap s)).
  assert (a < k) as Hak by (by eapply lookup_lt_Some).
  cbn [deepCopy tr_root]. unfold newId, new_Node. cbn [foldl heap set_idCounter].
  fold k. set (s0 := update _ _ _).
  assert (extends s s0 1) as Hext0.
  { unfold extends, s0. rewrite length_update. csimpl. rewrite length_app. csimpl.
    split_and!; try done; try lia.
    intros b Hb. rewrite list_lookup_alter_ne by lia. by rewrite lookup_app_l. }
  assert (heap s0 !! k = Some (mkNode (idCounter s) [] np 0 0 0)) as Hk0.
  { apply (lookup_update_eq _ k (set_parent np) (mkNode (idCounter s) [] None 0 0 0)).
    cbn [heap set_heap]. by rewrite lookup_app_r, Nat.sub_diag. }
  rewrite (get_Done s0 a n) by (destruct Hext0 as (_ & F & _); by rewrite F).
  csimpl. rewrite Hkids.
  edestruct (forEach_trees
    (λ child s1, '(newChild, s2) ← deepCopy fuel child (Some k) s1;
                 Done (update k (push_child newChild) s2))
    (λ pre s1, ∃ cpre,
       extends s s1 (S (sum_list (size <$> pre))) ∧
       repr (heap s1) np (T k cpre) ∧
       erase <$> cpre = erase <$> pre ∧
       mjoin (addrs <$> cpre) = seq (S k) (sum_list (size <$> pre)))
    cs s0) as (s' & Hloop & cpre & Hext & Hrepr & Herase & Haddrs).
  - exists []. split_and!; [done| |done|done].
    econstructor; [exact Hk0|done|done|constructor].
  - intros pre c post s1 -> (cpre & Hext1 & Hrepr1 & Herase1 & Haddrs1).
    rewrite Forall_forall in IH, Hcs.
    assert (c ∈ pre ++ c :: post) as Hc by (apply elem_of_app; right; left).
    destruct (IH c Hc fuel s1 (Some a) (Some k)) as
      (s2 & cc & Hcopy & Hext2 & Hrepr2 & Hroot2 & Herase2 & Haddrs2).
    { eapply repr_extends; [exact Hext1|]. by apply Hcs. }
    { pose proof (height_child a _ c Hc). lia. }
    rewrite Hcopy. csimpl. eexists. split; [done|].
    pose proof Hext1 as (L1 & F1 & _). pose proof Hext2 as (L2 & F2 & _).
    fold k in L1.
    apply repr_inv in Hrepr1 as (nk & Hnk & Hkidsk & Hupk & Hcpre).
    exists (cpre ++ [cc]). split_and!.
    + rewrite fmap_app, sum_list_with_app. csimpl.
      replace (S (sum_list (size <$> pre) + (size c + 0)))
        with (S (sum_list (size <$> pre)) + size c) by lia.
      apply extends_update; [|done].
      eapply extends_trans; [exact Hext1|exact Hext2].
    + econstructor.
      * apply lookup_update_eq. rewrite F2 by lia. exact Hnk.
      * csimpl. rewrite Hkidsk, fmap_app. csimpl. by rewrite Hroot2.
      * done.
      * rewrite Forall_app, Forall_singleton. split.
        -- rewrite Forall_forall in *. intros d Hd.
           eapply repr_local; [by apply Hcpre|]. intros b Hb.
           assert (b ∈ seq (S k) (sum_list (size <$> pre))) as Hbs.
           { rewrite <- Haddrs1. apply list_elem_of_join. exists (addrs d).
             split; [done|]. apply list_elem_of_fmap. eauto. }
           apply elem_of_seq in Hbs.
           apply keeps_same. rewrite lookup_update_ne by lia. apply F2. lia.
        -- eapply repr_local; [exact Hrepr2|]. intros b Hb.
           rewrite Haddrs2 in Hb. apply elem_of_seq in Hb.
           apply keeps_same, lookup_update_ne. lia.
    + rewrite !fmap_app. csimpl. by rewrite Herase1, Herase2.
    + rewrite !fmap_app, join_app, sum_list_with_app. csimpl.
      rewrite app_nil_r, Haddrs1, Haddrs2, L1, Nat.add_0_r, seq_app.
      do 2 f_equal. lia.
  - rewrite Hloop. csimpl. exists s', (T k cpre). split_and!; try done.
    + csimpl. by rewrite <- Herase.
    + csimpl. by rewrite Haddrs.
Qed.

(** *** The passes of [redraw] *)

#[local] Instance links_refl : Reflexive links.
Proof. by intros n. Qed.
#[local] Instance links_trans : Transitive links.
Proof. intros n1 n2 n3 [] []. split; congruence. Qed.
#[local] Instance links_width_refl : Reflexive links_width.
Proof. by intros n. Qed.
#[local] Instance links_width_trans : Transitive links_width.
Proof. intros n1 n2 n3 (? & ? & ?) (? & ? & ?). split_and!; [by etrans|congruence..]. Qed.

Lemma restyle_refl R `{!Reflexive R} s : restyle R s s.
Proof. unfold restyle. split_and!; try done. Qed.

Lemma restyle_trans R `{!Transitive R} s1 s2 s3 :
  restyle R s1 s2 → restyle R s2 s3 → restyle R s1 s3.
Proof.
  intros (? & ? & ? & ? & ?) (? & ? & ? & ? & ?). unfold restyle.
  split_and!; try congruence. by etrans.
Qed.

Lemma restyle_update R `{!Reflexive R} s a f :
  (∀ n, R n (f n)) → restyle R s (update a f s).
Proof.
  intros Hf. unfold restyle. split_and!; try done.
  change (Forall2 R (heap s) (alter f a (heap s))).
  apply Forall2_same_length_lookup. rewrite length_alter. split; [done|].
  intros i n n' Hn. destruct (decide (a = i)) as [->|].
  - rewrite list_lookup_alter_eq, Hn. intros [= <-]. apply Hf.
  - rewrite list_lookup_alter_ne, Hn by done. by intros [= <-].
Qed.

Lemma restyle_weaken (R R' : Node → Node → Prop) s s' :
  (∀ n n', R n n' → R' n n') → restyle R s s' → restyle R' s s'.
Proof.
  intros HR (? & ?). split; [|done]. eapply Forall2_impl; eauto.
Qed.

Lemma restyle_lookup R s s' a n :
  restyle R s s' → heap s !! a = Some n →
  ∃ n', heap s' !! a = Some n' ∧ R n n'.
Proof. intros (H & _) Hn. by eapply Forall2_lookup_l. Qed.

Lemma restyle_length R s s' : restyle R s s' → length (heap s') = length (heap s).
Proof. intros (H & _). symmetry. by eapply Forall2_length. Qed.

Lemma restyle_keeps s s' a : restyle links s s' → keeps (heap s) (heap s') a.
Proof.
  intros H n Hn. destruct (restyle_lookup _ _ _ _ _ H Hn) as (n' & ? & ? & ?). eauto.
Qed.

Lemma repr_restyle s s' par t :
  restyle links s s' → repr (heap s) par t → repr (heap s') par t.
Proof.
  intros H Hr. eapply repr_local; [exact Hr|]. intros. by apply restyle_keeps.
Qed.

Lemma relabel_traverse_spec t : ∀ fuel next s par,
  repr (heap s) par t → height t ≤ fuel →
  ∃ s', relabel_traverse fuel (tr_root t) (next, s) = Done (next + size t, s') ∧
        restyle links s s'.
Proof.
  induction t as [a cs IH] using tree_ind'. intros fuel next s par Hr Hfuel.
  destruct fuel as [|fuel]; [pose proof (height_pos (T a cs)); lia|].
  pose proof Hr as (n & Hn & Hkids & Hup & Hcs)%repr_inv.
  cbn [relabel_traverse tr_root].
  erewrite get_Done by (by apply lookup_update_eq). csimpl. rewrite Hkids.
  assert (restyle links s (update a (set_id next) s)) as H0
    by (by apply restyle_update).
  edestruct (forEach_trees (relabel_traverse fuel)
    (λ pre st, st.1 = S next + sum_list (size <$> pre) ∧ restyle links s st.2)
    cs (S next, update a (set_id next) s)) as ([next' s'] & Hloop & Hnext & Hs').
  - split; [csimpl; lia|done].
  - intros pre c post [next1 s1] -> [Hnext1 Hs1]. cbn [fst snd] in *.
    rewrite Forall_forall in IH, Hcs.
    assert (c ∈ pre ++ c :: post) as Hc by (apply elem_of_app; right; left).
    destruct (IH c Hc fuel next1 s1 (Some a)) as (s2 & Hrun & Hs2).
    { eapply repr_restyle; [exact Hs1|]. by apply Hcs. }
    { pose proof (height_child a _ c Hc). lia. }
    eexists. split; [exact Hrun|]. split.
    + csimpl. rewrite fmap_app, sum_list_with_app. csimpl. lia.
    + exact (restyle_trans links _ _ _ Hs1 Hs2).
  - rewrite Hloop. exists s'. cbn [fst snd] in *. split; [|done].
    csimpl. do 2 f_equal. lia.
Qed.

Lemma all_traverse_spec t : ∀ fuel s par acc,
  repr (heap s) par t → height t ≤ fuel →
  all_traverse fuel s (tr_root t) acc = Done (acc ++ addrs t).
Proof.
  induction t as [a cs IH] using tree_ind'. intros fuel s par acc Hr Hfuel.
  destruct fuel as [|fuel]; [pose proof (height_pos (T a cs)); lia|].
  pose proof Hr as (n & Hn & Hkids & Hup & Hcs)%repr_inv.
  cbn [all_traverse tr_root]. rewrite (get_Done _ _ _ Hn). csimpl. rewrite Hkids.
  edestruct (forEach_trees (all_traverse fuel s)
    (λ pre acc', acc' = (acc ++ [a]) ++ mjoin (addrs <$> pre))
    cs (acc ++ [a])) as (acc' & Hloop & ->).
  - csimpl. by rewrite app_nil_r.
  - intros pre c post acc1 -> ->.
    rewrite Forall_forall in IH, Hcs.
    assert (c ∈ pre ++ c :: post) as Hc by (apply elem_of_app; right; left).
    eexists. split.
    + eapply IH; [done|by apply Hcs|]. pose proof (height_child a _ c Hc). lia.
    + rewrite fmap_app, join_app. csimpl. by rewrite app_nil_r, app_assoc.
  - rewrite Hloop. by rewrite <- app_assoc.
Qed.

Lemma laid_w_inv h a cs :
  laid_w h (T a cs) →
  ∃ n, h !! a = Some n ∧ width n = widthT (T a cs) ∧ Forall (laid_w h) cs.
Proof. inversion 1; subst. eauto. Qed.

Lemma laid_w_root h t : laid_w h t → ∃ n, h !! tr_root t = Some n ∧ width n = widthT t.
Proof. destruct t. intros (n & ? & ? & _)%laid_w_inv. eauto. Qed.

Lemma laid_w_local h h' t :
  laid_w h t →
  (∀ b n, b ∈ addrs t → h !! b = Some n → ∃ n', h' !! b = Some n' ∧ width n' = width n) →
  laid_w h' t.
Proof.
  induction t as [a cs IH] using tree_ind'. intros (n & Hn & Hw & Hcs)%laid_w_inv Hk.
  destruct (Hk a n (tr_root_in (T a cs)) Hn) as (n' & Hn' & Hw').
  econstructor; [exact Hn'|congruence|].
  rewrite Forall_forall in *. intros c Hc. apply IH; [done|by apply Hcs|].
  intros b m Hb. apply Hk. by eapply addrs_child.
Qed.

Lemma laid_w_frame h h' t :
  laid_w h t → (∀ b, b ∈ addrs t → h' !! b = h !! b) → laid_w h' t.
Proof.
  intros Hl Hf. eapply laid_w_local; [exact Hl|]. intros b n Hb Hn.
  exists n. by rewrite Hf.
Qed.

Lemma sumw_snoc ws w : sumw (ws ++ [w]) = (sumw ws + w)%Q.
Proof. unfold sumw. by rewrite foldl_app. Qed.

Lemma computeWidths_spec t : ∀ fuel s par,
  repr (heap s) par t → NoDup (addrs t) → height t ≤ fuel →
  ∃ s', computeWidths fuel (tr_root t) s = Done s' ∧
        restyle links s s' ∧
        (∀ b, b ∉ addrs t → heap s' !! b = heap s !! b) ∧
        laid_w (heap s') t.
Proof.
  induction t as [a cs IH] using tree_ind'. intros fuel s par Hr Hnd Hfuel.
  destruct fuel as [|fuel]; [pose proof (height_pos (T a cs)); lia|].
  pose proof Hr as (n & Hn & Hkids & Hup & Hcs)%repr_inv.
  cbn [computeWidths tr_root]. rewrite (get_Done _ _ _ Hn). csimpl. rewrite Hkids.
  loop (λ pre (st : Q * state),
    st.1 = sumw (widthT <$> pre) ∧ restyle links s st.2 ∧
    (∀ b, b ∉ mjoin (addrs <$> pre) → heap st.2 !! b = heap s !! b) ∧
    Forall (laid_w (heap st.2)) pre).
  - split_and!; [done|by apply restyle_refl|done|constructor].
  - intros pre c post [sum s1] -> (Hsum & Hs1 & Hfr1 & Hpre). cbn [fst snd] in *.
    rewrite Forall_forall in IH, Hcs.
    assert (c ∈ pre ++ c :: post) as Hc by (apply elem_of_app; right; left).
    destruct (NoDup_addrs_inv _ _ _ _ Hnd) as (Hndc & Hac & Hdpre & Hdpost).
    destruct (IH c Hc fuel s1 (Some a)) as (s2 & Hrun & Hs2 & Hfr2 & Hlaid).
    { eapply repr_restyle; [exact Hs1|]. by apply Hcs. }
    { done. }
    { pose proof (height_child a _ c Hc). lia. }
    rewrite Hrun. csimpl.
    destruct (laid_w_root _ _ Hlaid) as (nc & Hnc & Hwc).
    rewrite (get_Done _ _ _ Hnc). csimpl.
    eexists. split; [done|]. cbn [fst snd]. split_and!.
    + rewrite fmap_app. csimpl. by rewrite sumw_snoc, Hsum, Hwc.
    + exact (restyle_trans links _ _ _ Hs1 Hs2).
    + intros b Hb. rewrite fmap_app, join_app in Hb. csimpl in Hb.
      rewrite app_nil_r in Hb.
      rewrite Hfr2, Hfr1; [done|..]; intros ?; apply Hb, elem_of_app; auto.
    + rewrite Forall_app, Forall_singleton. split; [|done].
      rewrite Forall_forall in *. intros d Hd.
      eapply laid_w_frame; [by apply Hpre|]. intros b Hb. apply Hfr2.
      intros Hbc. apply (Hdpre b Hbc). apply list_elem_of_join.
      exists (addrs d). split; [done|]. apply list_elem_of_fmap. eauto.
  - intros [sum s1] (Hsum & Hs1 & Hfr1 & Hpre). cbn [fst snd] in *. csimpl.
    destruct (restyle_lookup _ _ _ _ _ Hs1 Hn) as (n1 & Hn1 & Hkids1 & Hup1).
    rewrite (get_Done _ _ _ Hn1). csimpl. eexists. split; [done|].
    pose proof (NoDup_addrs_root _ _ Hnd) as Ha.
    split_and!.
    + eapply (restyle_trans links); [exact Hs1|]. by apply restyle_update.
    + intros b Hb. csimpl in Hb. apply not_elem_of_cons in Hb as [? ?].
      rewrite lookup_update_ne by done. by apply Hfr1.
    + econstructor.
      * by apply lookup_update_eq.
      * csimpl. rewrite Hkids1, Hkids, length_fmap, Hsum. done.
      * rewrite Forall_forall in *. intros d Hd.
        eapply laid_w_frame; [by apply Hpre|]. intros b Hb.
        apply lookup_update_ne. intros ->. apply Ha. apply list_elem_of_join.
        exists (addrs d). split; [done|]. apply list_elem_of_fmap. eauto.
Qed.

Lemma placed_inv h px py a cs :
  placed h px py (T a cs) →
  ∃ n, h !! a = Some n ∧ x n = px ∧ y n = py ∧
    ∀ pre c post, cs = pre ++ c :: post →
      placed h (edge (px - sumw (widthT <$> cs) / 2) pre + widthT c / 2)%Q
               (py - vSpacing)%Q c.
Proof. inversion 1; subst. eauto. Qed.

Lemma placed_frame h h' t : ∀ px py,
  placed h px py t → (∀ b, b ∈ addrs t → h' !! b = h !! b) → placed h' px py t.
Proof.
  induction t as [a cs IH] using tree_ind'.
  intros px py (n & Hn & Hx & Hy & Hcs)%placed_inv Hf.
  econstructor; [by rewrite Hf by apply (tr_root_in (T a cs))|done|done|].
  intros pre c post ->. rewrite Forall_forall in IH.
  assert (c ∈ pre ++ c :: post) as Hc by (apply elem_of_app; right; left).
  apply IH; [done|by eapply Hcs|]. intros b Hb. apply Hf. by eapply addrs_child.
Qed.

Lemma snoc_split {A} (pre p1 p2 : list A) (c d : A) :
  pre ++ [c] = p1 ++ d :: p2 →
  (p1 = pre ∧ d = c ∧ p2 = []) ∨ (∃ p2', p2 = p2' ++ [c] ∧ pre = p1 ++ d :: p2').
Proof.
  destruct p2 as [|e p2 _] using rev_ind.
  - intros [-> ->]%app_inj_tail. by left.
  - rewrite app_comm_cons, app_assoc. intros [-> ->]%app_inj_tail. right. eauto.
Qed.

Lemma laid_w_restyle s s' t :
  restyle links_width s s' → laid_w (heap s) t → laid_w (heap s') t.
Proof.
  intros H Hl. eapply laid_w_local; [exact Hl|]. intros b n _ Hn.
  destruct (restyle_lookup _ _ _ _ _ H Hn) as (n' & ? & _ & _ & ?). eauto.
Qed.

Lemma restyle_links_width s s' : restyle links_width s s' → restyle links s s'.
Proof. apply restyle_weaken. by intros n n' [? _]. Qed.

Lemma placeNodes_spec t : ∀ fuel s par px py,
  repr (heap s) par t → NoDup (addrs t) → laid_w (heap s) t → height t ≤ fuel →
  ∃ s', placeNodes fuel (tr_root t) px py s = Done s' ∧
        restyle links_width s s' ∧
        (∀ b, b ∉ addrs t → heap s' !! b = heap s !! b) ∧
        placed (heap s') px py t.
Proof.
  induction t as [a cs IH] using tree_ind'. intros fuel s par px py Hr Hnd Hw Hfuel.
  destruct fuel as [|fuel]; [pose proof (height_pos (T a cs)); lia|].
  pose proof Hr as (n & Hn & Hkids & Hup & Hcs)%repr_inv.
  pose proof Hw as (? & Hn_ & Hwn & Hwcs)%laid_w_inv.
  cbn [placeNodes tr_root].
  set (s0 := update a (set_xy px py) s).
  assert (restyle links_width s s0) as Hs0 by (by apply restyle_update).
  assert (heap s0 !! a = Some (set_xy px py n)) as Hn0 by (by apply lookup_update_eq).
  rewrite (get_Done _ _ _ Hn0). csimpl. rewrite Hkids.
  rewrite Forall_forall in IH, Hcs, Hwcs.
  loop (λ pre (st : Q * state), st.1 = sumw (widthT <$> pre) ∧ st.2 = s0).
  { done. }
  { intros pre c post [sum s1] -> [Hsum Hs1]. cbn [fst snd] in *. subst s1.
    assert (c ∈ pre ++ c :: post) as Hc by (apply elem_of_app; right; left).
    destruct (laid_w_root (heap s0) c) as (nc & Hnc & Hwc).
    { eapply laid_w_restyle; [exact Hs0|]. by apply Hwcs. }
    rewrite (get_Done _ _ _ Hnc). csimpl. eexists. split; [done|].
    cbn [fst snd]. split; [|done]. rewrite fmap_app. csimpl.
    by rewrite sumw_snoc, Hsum, Hwc. }
  intros [sum s1] [Hsum Hs1]. cbn [fst snd] in *. csimpl. subst sum s1.
  set (start := (px - sumw (widthT <$> cs) / 2)%Q).
  loop (λ pre (st : Q * state),
    st.1 = edge start pre ∧ restyle links_width s0 st.2 ∧
    (∀ b, b ∉ mjoin (addrs <$> pre) → heap st.2 !! b = heap s0 !! b) ∧
    (∀ p1 c p2, pre = p1 ++ c :: p2 →
       placed (heap st.2) (edge start p1 + widthT c / 2)%Q (py - vSpacing)%Q c)).
  - split_and!; [done|by apply restyle_refl|done|].
    intros p1 c p2 H. by destruct p1.
  - intros pre c post [cur s1] -> (Hcur & Hs1 & Hfr1 & Hpl). cbn [fst snd] in *.
    assert (c ∈ pre ++ c :: post) as Hc by (apply elem_of_app; right; left).
    destruct (NoDup_addrs_inv _ _ _ _ Hnd) as (Hndc & Hac & Hdpre & Hdpost).
    assert (restyle links_width s s1) as Hss1
      by exact (restyle_trans links_width _ _ _ Hs0 Hs1).
    assert (laid_w (heap s1) c) as Hwc1.
    { eapply laid_w_restyle; [exact Hss1|]. by apply Hwcs. }
    destruct (laid_w_root _ _ Hwc1) as (nc & Hnc & Hwc).
    rewrite (get_Done _ _ _ Hnc). csimpl.
    destruct (IH c Hc fuel s1 (Some a) (cur + width nc / 2)%Q (py - vSpacing)%Q)
      as (s2 & Hrun & Hs2 & Hfr2 & Hplaced).
    { eapply repr_restyle; [apply restyle_links_width, Hss1|]. by apply Hcs. }
    { done. }
    { done. }
    { pose proof (height_child a _ c Hc). lia. }
    rewrite Hrun. csimpl.
    destruct (restyle_lookup _ _ _ _ _ Hs2 Hnc) as (nc2 & Hnc2 & _ & _ & Hwc2).
    rewrite (get_Done _ _ _ Hnc2). csimpl. eexists. split; [done|].
    cbn [fst snd]. split_and!.
    + unfold edge. rewrite foldl_app. csimpl. by rewrite Hwc2, Hwc, Hcur.
    + exact (restyle_trans links_width _ _ _ Hs1 Hs2).
    + intros b Hb. rewrite fmap_app, join_app in Hb. csimpl in Hb.
      rewrite app_nil_r in Hb.
      rewrite Hfr2, Hfr1; [done|..]; intros ?; apply Hb, elem_of_app; auto.
    + intros p1 d p2 [(-> & -> & ->)|(p2' & -> & ->)]%snoc_split.
      * by rewrite <- Hcur, <- Hwc.
      * eapply placed_frame; [by eapply Hpl|]. intros b Hb. apply Hfr2.
        intros Hbc. apply (Hdpre b Hbc). apply list_elem_of_join.
        exists (addrs d). split; [done|]. apply list_elem_of_fmap.
        exists d. split; [done|]. apply elem_of_app. right. left.
  - intros [cur s1] (Hcur & Hs1 & Hfr1 & Hpl). cbn [fst snd] in *. csimpl.
    eexists. split; [done|].
    pose proof (NoDup_addrs_root _ _ Hnd) as Ha.
    split_and!.
    + exact (restyle_trans links_width _ _ _ Hs0 Hs1).
    + intros b Hb. csimpl in Hb. apply not_elem_of_cons in Hb as [? ?].
      rewrite Hfr1 by done. by apply lookup_update_ne.
    + econstructor; [rewrite Hfr1 by done; exact Hn0|done|done|].
      intros pre c post ->. by eapply Hpl.
Qed.

(** *** [redraw] *)

Lemma wf_links s s' t :
  Forall2 links (heap s) (heap s') → wf s t → wf s' t.
Proof.
  intros H (Hroot & Hr & Hnd). split_and!; [done| |done].
  eapply repr_local; [exact Hr|]. intros a _ n Hn.
  destruct (Forall2_lookup_l _ _ _ _ _ H Hn) as (n' & ? & ? & ?). eauto.
Qed.

Lemma redraw_spec fuel s t :
  wf s t → height t ≤ fuel →
  ∃ s', redraw fuel s = Done s' ∧
    Forall2 links (heap s) (heap s') ∧
    step s' = step s ∧ reducedGrowth s' = reducedGrowth s ∧
    listening s' = listening s ∧ idCounter s' = size t ∧
    laid_w (heap s') t ∧ placed (heap s') 0 0 t.
Proof.
  intros (Hroot & Hr & Hnd) Hfuel. unfold redraw, relabelTree, getAllNodes.
  rewrite <- Hroot.
  destruct (relabel_traverse_spec t fuel 0 s None Hr Hfuel) as (s1 & -> & Hs1).
  csimpl. set (s1' := set_idCounter (size t) s1).
  destruct (computeWidths_spec t fuel s1' None) as (s2 & -> & Hs2 & _ & Hw);
    [exact (repr_restyle _ _ _ _ Hs1 Hr)|done|done|].
  csimpl.
  destruct (placeNodes_spec t fuel s2 None 0%Q 0%Q) as (s3 & -> & Hs3 & _ & Hp);
    [|done|done|done|].
  { eapply repr_restyle; [exact Hs2|]. exact (repr_restyle _ _ _ _ Hs1 Hr). }
  csimpl. erewrite all_traverse_spec; [|eapply repr_restyle|done].
  2: { apply restyle_links_width, Hs3. }
  2: { eapply repr_restyle; [exact Hs2|]. exact (repr_restyle _ _ _ _ Hs1 Hr). }
  csimpl. exists s3.
  destruct Hs1 as (F1 & ? & ? & ? & ?), Hs2 as (F2 & ? & ? & ? & I2),
    (restyle_links_width _ _ Hs3) as (F3 & ? & ? & ? & I3).
  subst s1'. cbn [step reducedGrowth listening idCounter heap set_idCounter] in *.
  split_and!; try done; try congruence.
  - etrans; [exact F1|]. etrans; [exact F2|exact F3].
  - eapply laid_w_restyle; [exact Hs3|done].
Qed.

(** *** The two mutations of [chop] *)

Lemma repr_bound s par t b : repr (heap s) par t → b ∈ addrs t → b < length (heap s).
Proof. apply repr_lt. Qed.

Lemma prune_step s par c P m1 L m2 p :
  repr (heap s) par (plug c (T P (m1 ++ T L [] :: m2))) →
  NoDup (addrs (plug c (T P (m1 ++ T L [] :: m2)))) →
  heap s !! P = Some p →
  children p = tr_root <$> (m1 ++ T L [] :: m2) ∧
  filter (λ x, x ≠ L) (children p) = tr_root <$> (m1 ++ m2) ∧
  repr (heap (update P (set_children (filter (λ x, x ≠ L) (children p))) s))
    par (plug c (T P (m1 ++ m2))) ∧
  NoDup (addrs (plug c (T P (m1 ++ m2)))).
Proof. by apply (prune_heap children parent set_children). Qed.

(** One round of the regrowth loop: a copy of the child [u] of [G] is
    appended to the children of [G]. *)
Lemma graft_step fuel s par c G kids u :
  repr (heap s) par (plug c (T G kids)) →
  NoDup (addrs (plug c (T G kids))) →
  u ∈ kids → height u ≤ fuel →
  ∃ s1 cp,
    deepCopy fuel (tr_root u) (Some G) s = Done (length (heap s), s1) ∧
    tr_root cp = length (heap s) ∧
    extends s s1 (size u) ∧
    repr (heap (update G (push_child (length (heap s))) s1)) par
      (plug c (T G (kids ++ [cp]))) ∧
    NoDup (addrs (plug c (T G (kids ++ [cp])))) ∧
    erase cp = erase u ∧
    addrs cp = seq (length (heap s)) (size u).
Proof.
  intros Hr Hnd Hu Hfuel.
  pose proof (repr_plug _ _ _ _ _ _ Hr) as (g & Hg & Hkids & Hup & Hcs)%repr_inv.
  rewrite Forall_forall in Hcs.
  destruct (deepCopy_spec u fuel s (Some G) (Some G)) as
    (s1 & cp & Hcopy & Hext & Hrcp & Hroot & Herase & Haddrs); [by apply Hcs|done|].
  pose proof Hext as (L1 & F1 & _).
  exists s1, cp. rewrite <- Hroot.
  destruct (graft_heap children parent set_children (λ _ _, eq_refl) (λ _ _, eq_refl)
    (heap s) (heap s1) par c G kids cp (size u) Hr Hnd F1 Hrcp Haddrs) as [? ?].
  split_and!; try done; by rewrite Hroot.
Qed.

(** *** [chop] *)

Lemma leaf_focus s t L :
  wf s t → L ∈ addrs t → isLeaf L s = true →
  ∃ c P m1 m2, t = plug c (T P (m1 ++ T L [] :: m2)).
Proof.
  intros (Hroot & Hr & Hnd) HL Hleaf. unfold isLeaf in Hleaf.
  destruct (heap s !! L) as [l|] eqn:Hl; [|done].
  apply andb_prop in Hleaf as [Hlen Hne].
  apply bool_decide_eq_true in Hlen, Hne.
  destruct (tree_focus t L HL) as (c & P & m1 & m2 & cs & ->); [congruence|].
  exists c, P, m1, m2. do 3 f_equal.
  apply repr_plug, repr_inv in Hr as (_ & _ & _ & _ & Hcs).
  rewrite Forall_app, Forall_cons in Hcs. destruct Hcs as (_ & HrL & _).
  apply repr_inv in HrL as (l' & Hl' & Hkids & _).
  assert (l' = l) as -> by congruence.
  rewrite Hkids, length_fmap in Hlen. by destruct cs.
Qed.

Lemma finish_fields (b : bool) s :
  let s' := if b then set_listening false s else s in
  heap s' = heap s ∧ step s' = step s ∧ reducedGrowth s' = reducedGrowth s ∧
  idCounter s' = idCounter s.
Proof. by destruct b. Qed.

(** Cutting a leaf directly below the root. *)
Lemma chop_root fuel s m1 L m2 :
  wf s (T root (m1 ++ T L [] :: m2)) →
  height (T root (m1 ++ T L [] :: m2)) ≤ fuel →
  ∃ s' r r',
    chop fuel L s = Done s' ∧
    wf s' (T root (m1 ++ m2)) ∧
    length (heap s') = length (heap s) ∧
    step s' = S (step s) ∧ reducedGrowth s' = reducedGrowth s ∧
    heap s !! root = Some r ∧ heap s' !! root = Some r' ∧
    children r = tr_root <$> (m1 ++ T L [] :: m2) ∧
    children r' = filter (λ x, x ≠ L) (children r) ∧
    children r' = tr_root <$> (m1 ++ m2) ∧
    parent r' = parent r ∧
    (∀ b n, heap s !! b = Some n → b ≠ root →
       ∃ n', heap s' !! b = Some n' ∧ links n n').
Proof.
  intros (Hroot & Hr & Hnd) Hfuel.
  pose proof Hr as (r & Hrt & Hkids & Hup & Hcs)%repr_inv.
  rewrite Forall_app, Forall_cons in Hcs. destruct Hcs as (_ & HrL & _).
  apply repr_inv in HrL as (l & Hl & _ & HupL & _).
  set (s1 := set_step (S (step s)) s).
  destruct (prune_step s1 None [] root m1 L m2 r Hr Hnd Hrt)
    as (_ & Hfilter & Hr2 & Hnd2).
  set (s2 := update root _ s1) in Hr2. cbn [plug] in *.
  unfold chop. fold s1. rewrite (get_Done s1 L l Hl). csimpl. rewrite HupL. csimpl.
  rewrite (get_Done s1 root r Hrt). csimpl. fold s2.
  destruct (decide (root ≠ root)) as [?|_]; [done|]. csimpl.
  destruct (redraw_spec fuel s2 (T root (m1 ++ m2))) as
    (s3 & -> & F3 & Hstep3 & Hred3 & _ & Hid3 & _); [done| |].
  { etrans; [|exact Hfuel]. apply height_T_le. intros d Hd. exists d. split; [|done].
    apply elem_of_app in Hd as [?|?]; apply elem_of_app; [by left|right; by right]. }
  csimpl.
  assert (heap s2 !! root = Some (set_children (filter (λ x, x ≠ L) (children r)) r))
    as Hrt2 by (by apply lookup_update_eq).
  destruct (Forall2_lookup_l _ _ _ _ _ F3 Hrt2) as (r3 & Hrt3 & Hk3 & Hp3).
  rewrite (get_Done s3 root r3 Hrt3). csimpl.
  eexists _, r, r3. split; [done|].
  match goal with |- context [if ?b then _ else _] =>
    destruct (finish_fields b s3) as (-> & -> & -> & _) end.
  split_and!; try done.
  - destruct (bool_decide _); (eapply (wf_links s2); [exact F3|by split_and!]).
  - rewrite <- (Forall2_length _ _ _ F3). exact (length_update s1 _ _).
  - by rewrite Hk3, Hfilter.
  - intros b n Hn Hb.
    assert (heap s2 !! b = Some n) as Hn2.
    { unfold s2. rewrite lookup_update_ne by done. exact Hn. }
    destruct (Forall2_lookup_l _ _ _ _ _ F3 Hn2) as (n' & ? & ?). eauto.
Qed.

(** Cutting a leaf whose parent [P] hangs below a grandparent [G]. *)
Lemma chop_regrow fuel s c G l1 l2 P m1 m2 L :
  wf s (plug c (T G (l1 ++ T P (m1 ++ T L [] :: m2) :: l2))) →
  height (plug c (T G (l1 ++ T P (m1 ++ T L [] :: m2) :: l2))) ≤ fuel →
  ∃ s' copies p g,
    chop fuel L s = Done s' ∧
    wf s' (plug c (T G (l1 ++ T P (m1 ++ m2) :: l2 ++ copies))) ∧
    length copies = growth (set_step (S (step s)) s) ∧
    Forall (λ cp, erase cp = erase (T P (m1 ++ m2))) copies ∧
    mjoin (addrs <$> copies) =
      seq (length (heap s)) (length copies * size (T P (m1 ++ m2))) ∧
    length (heap s') = length (heap s) + length copies * size (T P (m1 ++ m2)) ∧
    step s' = S (step s) ∧ reducedGrowth s' = reducedGrowth s ∧
    heap s !! P = Some p ∧ parent p = Some G ∧
    children p = tr_root <$> (m1 ++ T L [] :: m2) ∧
    filter (λ x, x ≠ L) (children p) = tr_root <$> (m1 ++ m2) ∧
    heap s !! G = Some g ∧
    children g = tr_root <$> (l1 ++ T P (m1 ++ T L [] :: m2) :: l2) ∧
    P ≠ root ∧
    (∀ b n, heap s !! b = Some n → b ≠ P → b ≠ G →
       ∃ n', heap s' !! b = Some n' ∧ links n n').
Proof.
  set (Pfull := T P (m1 ++ T L [] :: m2)). set (u := T P (m1 ++ m2)).
  set (t := plug c (T G (l1 ++ Pfull :: l2))).
  intros (Hroot & Hr & Hnd) Hfuel.
  assert (t = plug (c ++ [Fr G l1 l2]) Pfull) as Ht by (by rewrite plug_app).
  (* the objects the cut reads *)
  pose proof (repr_plug _ _ _ _ _ _ Hr) as HrG.
  pose proof HrG as (g & Hg & Hgkids & _ & HGcs)%repr_inv.
  rewrite Forall_app, Forall_cons in HGcs. destruct HGcs as (_ & HrP & _).
  pose proof HrP as (p & Hp & Hpkids & Hpup & HPcs)%repr_inv.
  rewrite Forall_app, Forall_cons in HPcs. destruct HPcs as (_ & HrL & _).
  apply repr_inv in HrL as (l & Hl & _ & Hlup & _).
  assert (height u ≤ height Pfull) as Hhu.
  { apply height_T_le. intros d Hd. exists d. split; [|done].
    apply elem_of_app in Hd as [?|?]; apply elem_of_app; [by left|right; by right]. }
  assert (height Pfull ≤ fuel) as HhP.
  { etrans; [|exact Hfuel]. etrans; [|apply height_plug].
    apply Nat.lt_le_incl, height_child. apply elem_of_app. right. left. }
  assert (P ≠ root) as HPr.
  { rewrite <- Hroot. intros HP. rewrite Ht in Hnd.
    apply (plug_root_notin _ _ Hnd); [by destruct c|]. rewrite <- Ht, <- HP. left. }
  (* excision *)
  set (s1 := set_step (S (step s)) s).
  rewrite Ht in Hr, Hnd.
  destruct (prune_step s1 None _ P m1 L m2 p Hr Hnd Hp) as (_ & Hfilter & Hr2 & Hnd2).
  set (s2 := update P _ s1) in Hr2. rewrite plug_app in Hr2, Hnd2. cbn [plug] in Hr2, Hnd2.
  fold u in Hr2, Hnd2.
  unfold chop. fold s1. rewrite (get_Done s1 L l Hl). csimpl. rewrite Hlup. csimpl.
  rewrite (get_Done s1 P p Hp). csimpl. fold s2.
  destruct (decide (P ≠ root)) as [_|?]; [|done].
  erewrite (get_Done s2 P) by (by apply lookup_update_eq). csimpl. rewrite Hpup.
  set (k0 := length (heap s)).
  (* the regrowth loop *)
  edestruct (times_inv
    (λ s, '(copy, s) ← deepCopy fuel P (Some G) s;
          g ← deref (Some G); Done (update g (push_child copy) s))
    (λ i si, ∃ copies,
       length copies = i ∧
       repr (heap si) None (plug c (T G (l1 ++ u :: l2 ++ copies))) ∧
       NoDup (addrs (plug c (T G (l1 ++ u :: l2 ++ copies)))) ∧
       Forall (λ cp, erase cp = erase u) copies ∧
       mjoin (addrs <$> copies) = seq k0 (i * size u) ∧
       length (heap si) = k0 + i * size u ∧
       step si = step s2 ∧ reducedGrowth si = reducedGrowth s2 ∧
       (∀ b, b < k0 → b ≠ G → heap si !! b = heap s2 !! b))
    (growth s2) s2) as (s3 & -> & copies & Hlen & Hr3 & Hnd3 & Her & Hadd & Hlen3
                          & Hstep3 & Hred3 & Hfr3).
  { exists []. rewrite app_nil_r. split_and!; try done.
    unfold s2. rewrite length_update. cbn. lia. }
  { intros i si _ (copies & Hlen & Hri & Hndi & Her & Hadd & Hleni & Hstepi & Hredi & Hfri).
    destruct (graft_step fuel si None c G (l1 ++ u :: l2 ++ copies) u Hri Hndi)
      as (si' & cp & Hcopy & Hcproot & Hext & Hr' & Hnd' & Hecp & Hacp).
    { apply elem_of_app. right. left. }
    { lia. }
    change (tr_root u) with P in Hcopy. rewrite Hcopy.
    cbn [mbind outcome_bind deref].
    eexists. split; [done|]. exists (copies ++ [cp]).
    pose proof Hext as (L1 & F1 & S1 & R1 & _).
    assert ((l1 ++ u :: l2 ++ copies) ++ [cp] = l1 ++ u :: l2 ++ copies ++ [cp])
      as Hre by (rewrite <- app_assoc; csimpl; by rewrite <- app_assoc).
    rewrite Hre in Hr', Hnd'.
    split_and!.
    - rewrite length_app. csimpl. lia.
    - done.
    - done.
    - rewrite Forall_app, Forall_singleton. done.
    - rewrite join_fmap_snoc, Hadd, Hacp, Hleni.
      replace (S i * size u) with (i * size u + size u) by lia.
      by rewrite seq_app.
    - rewrite length_update, L1, Hleni. lia.
    - change (step si' = step s2). congruence.
    - change (reducedGrowth si' = reducedGrowth s2). congruence.
    - intros b Hb HbG. rewrite lookup_update_ne by done.
      rewrite F1 by lia. by apply Hfri. }
  (* redraw *)
  set (t3 := plug c (T G (l1 ++ u :: l2 ++ copies))) in *.
  assert (forall d, d ∈ copies → height d = height u) as Hhc.
  { intros d Hd. rewrite Forall_forall in Her.
    by rewrite <- !erase_height, (Her d Hd). }
  assert (height t3 ≤ fuel) as Hh3.
  { etrans; [|exact Hfuel]. apply height_plug_mono, height_T_le.
    intros d [Hd|[->|[Hd|Hd]%elem_of_app]%elem_of_cons]%elem_of_app.
    - exists d. split; [|done]. apply elem_of_app. by left.
    - exists Pfull. split; [|done]. apply elem_of_app. right. left.
    - exists d. split; [|done]. apply elem_of_app. right. by right.
    - exists Pfull. split; [|rewrite (Hhc d Hd); done].
      apply elem_of_app. right. left. }
  assert (wf s3 t3) as Hwf3.
  { split_and!; [|done|done]. rewrite <- Hroot. unfold t3, t.
    rewrite !tr_root_plug. by destruct c. }
  csimpl.
  destruct (redraw_spec fuel s3 t3 Hwf3 Hh3) as
    (s4 & -> & F4 & Hstep4 & Hred4 & _ & Hid4 & _).
  csimpl.
  destruct Hwf3 as (Hroot3 & Hrr3 & _).
  destruct (repr_root _ _ _ _ _ Hrr3) as (r3 & Hrt3 & _). rewrite Hroot3 in Hrt3.
  destruct (Forall2_lookup_l _ _ _ _ _ F4 Hrt3) as (r4 & Hrt4 & _).
  rewrite (get_Done s4 root r4 Hrt4). csimpl.
  eexists _, copies, p, g. split; [done|].
  match goal with |- context [if ?b then _ else _] =>
    destruct (finish_fields b s4) as (Hheap & -> & -> & _);
    set (sf := if b then _ else _) in *  end.
  fold (wf sf t3). rewrite Hheap.
  split_and!; try done.
  - eapply (wf_links s3); [by rewrite Hheap|]. by split_and!.
  - by rewrite Hlen.
  - rewrite <- (Forall2_length _ _ _ F4), Hlen3, Hlen. done.
  - by rewrite Hstep4, Hstep3.
  - by rewrite Hred4, Hred3.
  - intros b n Hn HbP HbG.
    assert (heap s3 !! b = Some n) as Hn3.
    { rewrite Hfr3; [|by eapply lookup_lt_Some|done].
      unfold s2. rewrite lookup_update_ne by done. exact Hn. }
    destruct (Forall2_lookup_l _ _ _ _ _ F4 Hn3) as (n' & ? & ?). eauto.
Qed.

(** *** Whatever the store holds, the passes keep the turn *)

Lemma relabel_traverse_turn fuel : ∀ node st st',
  relabel_traverse fuel node st = Done st' → turn st'.2 = turn st.2.
Proof.
  induction fuel as [|fuel IH]; intros node [next s] st' H; [done|].
  cbn [relabel_traverse] in H. bind_inv H as n En.
  apply (forEach_keeps (λ st, turn st.2)) in H; [done|].
  intros c st1 st2. apply IH.
Qed.

Lemma computeWidths_turn fuel : ∀ node s s',
  computeWidths fuel node s = Done s' → turn s' = turn s.
Proof.
  induction fuel as [|fuel IH]; intros node s s' H; [done|].
  cbn [computeWidths] in H. bind_inv H as n En. bind_inv H as [sum s1] Eloop.
  bind_inv H as n1 En1. injection H as <-.
  apply (forEach_keeps (λ st, turn st.2)) in Eloop; [done|].
  intros c [sum1 s2] [sum2 s3] Hc. bind_inv Hc as s4 Erec. bind_inv Hc as nc Enc.
  injection Hc as _ <-. by apply IH in Erec.
Qed.

Lemma placeNodes_turn fuel : ∀ node px py s s',
  placeNodes fuel node px py s = Done s' → turn s' = turn s.
Proof.
  induction fuel as [|fuel IH]; intros node px py s s' H; [done|].
  cbn [placeNodes] in H. bind_inv H as n En. bind_inv H as [sum s1] Esum.
  bind_inv H as [cur s2] Eloop. injection H as <-.
  apply (forEach_keeps (λ st, turn st.2)) in Eloop; [done|].
  intros c [cur1 s3] [cur2 s4] Hc. bind_inv Hc as nc Enc. bind_inv Hc as s5 Erec.
  bind_inv Hc as nc' Enc'. injection Hc as _ <-. by apply IH in Erec.
Qed.

Lemma redraw_turn fuel s s' : redraw fuel s = Done s' → turn s' = turn s.
Proof.
  unfold redraw, relabelTree. intros H. bind_inv H as s1 E1.
  bind_inv E1 as [next s0] E0. injection E1 as <-.
  bind_inv H as s2 E2. bind_inv H as s3 E3. bind_inv H as nodes E4. injection H as <-.
  apply relabel_traverse_turn in E0. apply computeWidths_turn in E2.
  apply placeNodes_turn in E3. unfold turn in *. cbn [snd] in *.
  change (step (set_idCounter next s0)) with (step s0) in E2.
  change (reducedGrowth (set_idCounter next s0)) with (reducedGrowth s0) in E2.
  change (listening (set_idCounter next s0)) with (listening s0) in E2.
  congruence.
Qed.

Lemma initHydra_step fuel n s s' : initHydra fuel n s = Done s' → step s' = 0.
Proof.
  unfold initHydra. intros H.
  destruct (new_Node n [] _) as [current s1] eqn:E1.
  assert (step s1 = 0) as Hs1 by (injection E1 as _ <-; done).
  destruct (foldl _ _ _) as [current' s2] eqn:E2.
  assert (step s2 = 0) as Hs2.
  { clear E1 H. revert current s1 Hs1 E2. generalize (rev (seq 1 (n - 1))).
    induction l as [|i l IHl]; intros current s1 Hs1 E2; csimpl in E2.
    - by injection E2 as _ <-.
    - destruct (new_Node i [current] s1) as [c' s'0] eqn:E3.
      eapply (IHl c' s'0); [|done]. injection E3 as _ <-. exact Hs1. }
  bind_inv H as r Er. bind_inv H as c0 Ec. apply redraw_turn in H.
  injection H as H _ _. rewrite H. exact Hs2.
Qed.

Lemma leaf_parent s t L :
  wf s t → L ∈ addrs t → isLeaf L s = true →
  ∃ l P, heap s !! L = Some l ∧ parent l = Some P.
Proof.
  intros Hwf HL Hleaf. destruct (leaf_focus s t L Hwf HL Hleaf) as (c & P & m1 & m2 & ->).
  destruct Hwf as (_ & Hr & _).
  apply repr_plug, repr_inv in Hr as (_ & _ & _ & _ & Hcs).
  rewrite Forall_app, Forall_cons in Hcs. destruct Hcs as (_ & HrL & _).
  apply repr_inv in HrL as (l & Hl & _ & Hup & _). eauto.
Qed.

(** *** The two kinds of cut, on the store *)

Lemma isLeaf_inv L s l :
  isLeaf L s = true → heap s !! L = Some l → children l = [] ∧ L ≠ root.
Proof.
  unfold isLeaf. intros H Hl. rewrite Hl in H.
  apply andb_prop in H as [H1 H2]. apply bool_decide_eq_true in H1, H2.
  split; [|done]. by destruct (children l).
Qed.

Lemma chop_below_root fuel s t L l :
  wf s t → L ∈ addrs t → isLeaf L s = true →
  heap s !! L = Some l → parent l = Some root → height t ≤ fuel →
  ∃ s', chop fuel L s = Done s' ∧
        cut_off children parent (heap s) (heap s') L root ∧
        step s' = S (step s) ∧ reducedGrowth s' = reducedGrowth s.
Proof.
  intros Hwf HL Hleaf Hl Hup Hfuel. pose proof Hwf as (Hroot & Hr & Hnd).
  destruct (isLeaf_inv _ _ _ Hleaf Hl) as [Hkids HLr].
  destruct (cut_focus children parent (heap s) t L l root Hr HL Hl Hkids Hup)
    as [(m1 & m2 & ->)|(c & G & l1 & l2 & m1 & m2 & ->)].
  - destruct (chop_root fuel s m1 L m2 Hwf Hfuel) as
      (s' & r & r' & Hchop & Hwf' & Hlen & Hstep & Hred & Hrt & Hrt' & Hk & Hk'
         & Hk'' & Hp' & Hframe).
    exists s'. split_and!; try done.
    exists r, r', (tr_root <$> m1), (tr_root <$> m2). split_and!; try done.
    + by rewrite Hk, fmap_app.
    + by rewrite Hk'', fmap_app.
    + rewrite <- fmap_app, <- Hk'', Hk'. intros [? _]%list_elem_of_filter. done.
  - exfalso.
    assert (plug c (T G (l1 ++ T root (m1 ++ T L [] :: m2) :: l2)) =
            plug (c ++ [Fr G l1 l2]) (T root (m1 ++ T L [] :: m2))) as Heq
      by (by rewrite plug_app).
    rewrite Heq in Hnd, Hroot.
    apply (plug_root_notin _ _ Hnd); [by destruct c|]. rewrite Hroot. left.
Qed.

Lemma chop_below_other fuel s t L l P :
  wf s t → L ∈ addrs t → isLeaf L s = true →
  heap s !! L = Some l → parent l = Some P → P ≠ root → height t ≤ fuel →
  ∃ s', chop fuel L s = Done s' ∧
        regrown children parent (heap s) (heap s') L P (growth s') ∧
        framed children parent (heap s) (heap s') L P (growth s') ∧
        step s' = S (step s) ∧ reducedGrowth s' = reducedGrowth s.
Proof.
  intros Hwf HL Hleaf Hl Hup HP Hfuel. pose proof Hwf as (Hroot & Hr & Hnd).
  destruct (isLeaf_inv _ _ _ Hleaf Hl) as [Hkids HLr].
  destruct (cut_focus children parent (heap s) t L l P Hr HL Hl Hkids Hup)
    as [(m1 & m2 & ->)|(c & G & l1 & l2 & m1 & m2 & ->)]; [done|].
  destruct (chop_regrow fuel s c G l1 l2 P m1 m2 L Hwf Hfuel) as
    (s' & copies & p & g & Hchop & (_ & Hr' & _) & Hlen & Her & Hadd & Hlen'
       & Hstep & Hred & Hp & _ & _ & Hfilter & _ & _ & _ & Hframe).
  exists s'. split; [done|].
  assert (growth s' = length copies) as ->.
  { rewrite Hlen. unfold growth. by rewrite Hstep, Hred. }
  destruct (regrow_summary children parent (heap s) (heap s') c G l1 l2 P m1 m2 L
    copies p Hr Hnd Hr' Her Hadd Hlen' Hp Hfilter Hframe) as [? ?].
  by split_and!.
Qed.

(** *** The layout of [index.js] *)

Ltac qlra :=
  unfold hSpacing, vSpacing, Qdiv in *;
  change (/ 2)%Q with (1 # 2)%Q in *; lra.

Lemma widthT_erase t : widthT t = widthS (erase t).
Proof.
  induction t as [a cs IH] using tree_ind'. cbn [widthT erase widthS].
  rewrite length_fmap, <- list_fmap_compose.
  by rewrite (Forall_fmap_ext_1 _ _ _ IH).
Qed.

Lemma widthT_min t : (hSpacing <= widthT t)%Q.
Proof.
  destruct t as [a cs]. cbn [widthT]. case_bool_decide; [apply Qle_refl|].
  apply Q.le_max_l.
Qed.

Lemma sumw_shift ws : ∀ a, (foldl Qplus a ws == a + sumw ws)%Q.
Proof.
  unfold sumw. induction ws as [|w ws IH]; intros a; csimpl; [lra|].
  rewrite (IH (a + w)%Q), (IH (0 + w)%Q). lra.
Qed.

Lemma sumw_cons w ws : (sumw (w :: ws) == w + sumw ws)%Q.
Proof. unfold sumw at 1. csimpl. rewrite sumw_shift. lra. Qed.

Lemma sumw_app l1 l2 : (sumw (l1 ++ l2) == sumw l1 + sumw l2)%Q.
Proof.
  induction l1 as [|w l1 IH]; csimpl.
  - unfold sumw at 2. csimpl. lra.
  - rewrite !sumw_cons, IH. lra.
Qed.

Lemma sumw_widths_nonneg cs : (0 <= sumw (widthT <$> cs))%Q.
Proof.
  induction cs as [|c cs IH]; csimpl; [by unfold sumw|].
  rewrite sumw_cons. pose proof (widthT_min c). qlra.
Qed.

Lemma edge_sum start pre : (edge start pre == start + sumw (widthT <$> pre))%Q.
Proof.
  unfold edge. rewrite <- sumw_shift. revert start.
  induction pre as [|c pre IH]; intros start; csimpl; [lra|]. apply IH.
Qed.

Lemma widthT_sum a cs :
  cs ≠ [] → (widthT (T a cs) == sumw (widthT <$> cs))%Q.
Proof.
  intros Hcs. cbn [widthT]. rewrite bool_decide_eq_false_2 by (by destruct cs).
  apply Q.max_r. destruct cs as [|c cs]; [done|]. csimpl. rewrite sumw_cons.
  pose proof (widthT_min c). pose proof (sumw_widths_nonneg cs). lra.
Qed.

(** Every node of a placed subtree lies within the span reserved for it,
    half a spacing away from both ends. *)
Lemma placed_span h t : ∀ px py a,
  placed h px py t → a ∈ addrs t →
  ∃ n, h !! a = Some n ∧
       (px - widthT t / 2 + hSpacing / 2 <= x n)%Q ∧
       (x n <= px + widthT t / 2 - hSpacing / 2)%Q.
Proof.
  induction t as [b cs IH] using tree_ind'. intros px py a Hp Ha.
  apply placed_inv in Hp as (n & Hn & Hx & Hy & Hcs). csimpl in Ha.
  apply elem_of_cons in Ha as [->|Ha].
  - exists n. split; [done|]. pose proof (widthT_min (T b cs)). rewrite Hx. split; qlra.
  - apply list_elem_of_join in Ha as (l & Hal & Hl).
    apply list_elem_of_fmap in Hl as (c & -> & Hc).
    pose proof Hc as (pre & post & ->)%list_elem_of_split.
    rewrite Forall_forall in IH.
    destruct (IH c Hc _ _ a (Hcs pre c post eq_refl) Hal) as (m & Hm & Hlo & Hhi).
    exists m. split; [done|].
    pose proof (widthT_sum b (pre ++ c :: post)) as Hw.
    rewrite fmap_app, fmap_cons, sumw_app, sumw_cons in Hw.
    specialize (Hw ltac:(by destruct pre)).
    pose proof (edge_sum (px - sumw (widthT <$> pre ++ c :: post) / 2)%Q pre) as He.
    pose proof (sumw_app (widthT <$> pre) (widthT <$> c :: post)) as Hs.
    rewrite <- fmap_app, fmap_cons, sumw_cons in Hs.
    pose proof (sumw_widths_nonneg pre). pose proof (sumw_widths_nonneg post).
    revert Hlo Hhi He Hs Hw.
    generalize (edge (px - sumw (widthT <$> pre ++ c :: post) / 2)%Q pre).
    generalize (sumw (widthT <$> pre ++ c :: post)).
    generalize (widthT (T b (pre ++ c :: post))).
    intros wt S e Hlo Hhi He Hs Hw. split; qlra.
Qed.

(** Two sibling subtrees are a full spacing apart: every node of the left
    one is at least [hSpacing] to the left of every node of the right one. *)
Lemma placed_siblings h px py p l1 c1 l2 c2 l3 a1 a2 n1 n2 :
  placed h px py (T p (l1 ++ c1 :: l2 ++ c2 :: l3)) →
  a1 ∈ addrs c1 → a2 ∈ addrs c2 →
  h !! a1 = Some n1 → h !! a2 = Some n2 →
  (x n1 + hSpacing <= x n2)%Q.
Proof.
  intros (n & _ & _ & _ & Hcs)%placed_inv Ha1 Ha2 Hn1 Hn2.
  set (cs := l1 ++ c1 :: l2 ++ c2 :: l3) in *.
  pose proof (Hcs l1 c1 (l2 ++ c2 :: l3) eq_refl) as Hp1.
  assert (cs = (l1 ++ c1 :: l2) ++ c2 :: l3) as Hsplit
    by (unfold cs; by rewrite <- app_assoc).
  pose proof (Hcs _ c2 l3 Hsplit) as Hp2.
  destruct (placed_span _ _ _ _ _ Hp1 Ha1) as (m1 & Hm1 & _ & Hhi).
  destruct (placed_span _ _ _ _ _ Hp2 Ha2) as (m2 & Hm2 & Hlo & _).
  assert (m1 = n1) as -> by congruence. assert (m2 = n2) as -> by congruence.
  pose proof (edge_sum (px - sumw (widthT <$> cs) / 2)%Q l1) as He1.
  pose proof (edge_sum (px - sumw (widthT <$> cs) / 2)%Q (l1 ++ c1 :: l2)) as He2.
  rewrite fmap_app, sumw_app in He2. csimpl in He2. rewrite sumw_cons in He2.
  pose proof (sumw_widths_nonneg l2).
  revert Hhi Hlo He1 He2.
  generalize (edge (px - sumw (widthT <$> cs) / 2)%Q l1).
  generalize (edge (px - sumw (widthT <$> cs) / 2)%Q (l1 ++ c1 :: l2)).
  intros e2 e1 Hhi Hlo He1 He2. qlra.
Qed.

(** The vertical coordinate is a function of the depth alone. *)
Lemma placed_level h t : ∀ px py d a,
  placed h px py t → a ∈ level d t →
  ∃ n, h !! a = Some n ∧ y n = Nat.iter d (λ v, (v - vSpacing)%Q) py.
Proof.
  induction t as [b cs IH] using tree_ind'. intros px py d a Hp Ha.
  apply placed_inv in Hp as (n & Hn & Hx & Hy & Hcs).
  destruct d as [|d]; csimpl in Ha.
  - apply list_elem_of_singleton in Ha as ->. eauto.
  - apply list_elem_of_join in Ha as (l & Hal & Hl).
    apply list_elem_of_fmap in Hl as (c & -> & Hc).
    pose proof Hc as (pre & post & ->)%list_elem_of_split.
    rewrite Forall_forall in IH.
    destruct (IH c Hc _ _ d a (Hcs pre c post eq_refl) Hal) as (m & Hm & Hym).
    exists m. split; [done|]. by rewrite Nat.iter_succ_r.
Qed.

Lemma placed_plug h c u : ∀ px py,
  placed h px py (plug c u) → ∃ qx qy, placed h qx qy u.
Proof.
  induction c as [|[a l r] c IH]; intros px py Hp; [eauto|].
  csimpl in Hp. apply placed_inv in Hp as (_ & _ & _ & _ & Hcs).
  eapply IH. by eapply Hcs.
Qed.

(** The positions are those the shape alone prescribes. *)
Lemma placed_coords h t : ∀ px py,
  placed h px py t →
  position h <$> addrs t = Some <$> coordsS px py (erase t).
Proof.
  induction t as [b cs IH] using tree_ind'. intros px py Hp.
  apply placed_inv in Hp as (n & Hn & Hx & Hy & Hcs).
  cbn [addrs erase coordsS]. rewrite !fmap_cons. f_equal.
  { unfold position. by rewrite Hn, <- Hx, <- Hy. }
  replace (sumw (widthS <$> (erase <$> cs))) with (sumw (widthT <$> cs)).
  2: { f_equal. rewrite <- list_fmap_compose. apply list_fmap_ext.
       intros _ c _. apply widthT_erase. }
  set (start := (px - sumw (widthT <$> cs) / 2)%Q) in *.
  assert (∀ post pre, cs = pre ++ post →
    position h <$> mjoin (addrs <$> post) =
    Some <$> (fix row (cur : Q) (cs : list shape) : list (Q * Q) :=
       match cs with
       | [] => []
       | c :: cs' =>
           coordsS (cur + widthS c / 2)%Q (py - vSpacing)%Q c
           ++ row (cur + widthS c)%Q cs'
       end) (edge start pre) (erase <$> post)) as Hrow.
  { induction post as [|c post IHpost]; intros pre Heq; [done|].
    csimpl. rewrite !fmap_app. rewrite Forall_forall in IH. f_equal.
    - rewrite <- widthT_erase. apply IH; [|by eapply Hcs].
      rewrite Heq. apply elem_of_app. right. left.
    - rewrite <- widthT_erase.
      specialize (IHpost (pre ++ [c])). unfold edge in IHpost. rewrite foldl_app in IHpost.
      apply IHpost. by rewrite <- app_assoc. }
  apply (Hrow cs []). done.
Qed.

(** *** Every play slays the hydra *)

Lemma chop_decreases fuel s t L :
  wf s t → L ∈ addrs t → isLeaf L s = true → height t ≤ fuel →
  ∃ s' t', chop fuel L s = Done s' ∧ wf s' t' ∧ red (erase t') (erase t) ∧
           reducedGrowth s' = reducedGrowth s.
Proof.
  intros Hwf HL Hleaf Hfuel.
  destruct (leaf_focus s t L Hwf HL Hleaf) as (c0 & P & m1 & m2 & ->).
  destruct c0 as [|f c _] using rev_ind.
  - cbn [plug] in *. assert (P = root) as -> by (by destruct Hwf as (H & _)).
    destruct (chop_root fuel s m1 L m2 Hwf Hfuel) as
      (s' & r & r' & Hchop & Hwf' & _ & _ & Hred & _).
    exists s', (T root (m1 ++ m2)). split_and!; try done. apply red_cut_root.
  - destruct f as [G l1 l2]. rewrite plug_app in *. cbn [plug] in *.
    destruct (chop_regrow fuel s c G l1 l2 P m1 m2 L Hwf Hfuel) as
      (s' & copies & p & g & Hchop & Hwf' & _ & Her & _ & _ & _ & Hred & _).
    exists s', (plug c (T G (l1 ++ T P (m1 ++ m2) :: l2 ++ copies))).
    split_and!; try done. by apply red_plug, red_cut_regrow.
Qed.

Lemma leaf_exists s t :
  wf s t → tr_kids t ≠ [] → ∃ L, L ∈ addrs t ∧ isLeaf L s = true.
Proof.
  intros (Hroot & Hr & Hnd) Hk.
  destruct (tree_leaf t Hk) as (c & P & m1 & L & m2 & ->).
  assert (plug c (T P (m1 ++ T L [] :: m2)) = plug (c ++ [Fr P m1 m2]) (T L []))
    as Heq by (by rewrite plug_app).
  rewrite Heq in *. exists L. split.
  - rewrite addrs_plug. apply elem_of_app. right. left.
  - pose proof (repr_plug _ _ _ _ _ _ Hr) as (l & Hl & Hkids & _)%repr_inv.
    unfold isLeaf. rewrite Hl, Hkids. cbn [fmap list_fmap length].
    rewrite !bool_decide_eq_true_2; [done| |done].
    rewrite <- Hroot. intros HLr.
    apply (plug_root_notin _ _ Hnd); [by destruct c|]. rewrite <- HLr. left.
Qed.

Lemma slays_acc sh :
  Acc red sh → ∀ s t, wf s t → erase t = sh → slays s.
Proof.
  induction 1 as [sh _ IH]. intros s t Hwf <-.
  destruct (decide (tr_kids t = [])) as [Hk|Hk].
  - apply slays_now. destruct Hwf as (Hroot & Hr & _).
    destruct (repr_root _ _ _ _ _ Hr) as (r & Hrt & Hkids & _).
    exists r. rewrite <- Hroot. split; [done|]. by rewrite Hkids, Hk.
  - apply slays_cut.
    + destruct (leaf_exists s t Hwf Hk) as (L & HL & Hleaf).
      destruct (chop_decreases (height t) s t L Hwf HL Hleaf) as (s' & _ & Hchop & _);
        [done|].
      exists s'. by econstructor.
    + intros s' [t0 L fuel Hwf0 HL Hleaf Hfuel Hchop].
      assert (t0 = t) as ->.
      { destruct Hwf as (Hroot & Hr & _), Hwf0 as (Hroot0 & Hr0 & _).
        eapply (repr_unique children parent); [exact Hr0|exact Hr|congruence]. }
      destruct (chop_decreases fuel s t L Hwf HL Hleaf Hfuel)
        as (s'' & t' & Hchop' & Hwf' & Hred & _).
      assert (s'' = s') as -> by congruence.
      by eapply IH.
Qed.

(** *** Labels *)

Lemma label_update_ne s a b f : a ≠ b → label (heap (update b f s)) a = label (heap s) a.
Proof. intros. unfold label. by rewrite lookup_update_ne. Qed.

Lemma label_frame (h h' : list Node) (l : list addr) :
  (∀ b, b ∈ l → h' !! b = h !! b) → label h' <$> l = label h <$> l.
Proof.
  intros H. apply list_fmap_ext. intros i b Hb. unfold label.
  rewrite H; [done|]. by eapply list_elem_of_lookup_2.
Qed.

(** [traverse] of [relabelTree] numbers the nodes in pre-order. *)
Lemma relabel_traverse_labels t : ∀ fuel next s par,
  repr (heap s) par t → NoDup (addrs t) → height t ≤ fuel →
  ∃ s', relabel_traverse fuel (tr_root t) (next, s) = Done (next + size t, s') ∧
        restyle links s s' ∧
        (∀ b, b ∉ addrs t → heap s' !! b = heap s !! b) ∧
        label (heap s') <$> addrs t = Some <$> seq next (size t).
Proof.
  induction t as [a cs IH] using tree_ind'. intros fuel next s par Hr Hnd Hfuel.
  destruct fuel as [|fuel]; [pose proof (height_pos (T a cs)); lia|].
  pose proof Hr as (n & Hn & Hkids & Hup & Hcs)%repr_inv.
  cbn [relabel_traverse tr_root].
  erewrite get_Done by (by apply lookup_update_eq). csimpl. rewrite Hkids.
  set (s0 := update a (set_id next) s).
  assert (restyle links s s0) as H0 by (by apply restyle_update).
  pose proof (NoDup_addrs_root _ _ Hnd) as Ha.
  edestruct (forEach_trees (relabel_traverse fuel)
    (λ pre st, st.1 = S next + sum_list (size <$> pre) ∧ restyle links s st.2 ∧
       (∀ b, b ∉ mjoin (addrs <$> pre) → heap st.2 !! b = heap s0 !! b) ∧
       label (heap st.2) <$> mjoin (addrs <$> pre)
         = Some <$> seq (S next) (sum_list (size <$> pre)))
    cs (S next, s0)) as ([next' s'] & Hloop & Hnext & Hs' & Hfr & Hlab).
  - split_and!; [csimpl; lia|done|done|done].
  - intros pre c post [next1 s1] -> (Hnext1 & Hs1 & Hfr1 & Hlab1). cbn [fst snd] in *.
    rewrite Forall_forall in IH, Hcs.
    assert (c ∈ pre ++ c :: post) as Hc by (apply elem_of_app; right; left).
    destruct (NoDup_addrs_inv _ _ _ _ Hnd) as (Hndc & Hac & Hdpre & Hdpost).
    destruct (IH c Hc fuel next1 s1 (Some a)) as (s2 & Hrun & Hs2 & Hfr2 & Hlab2).
    { eapply repr_restyle; [exact Hs1|]. by apply Hcs. }
    { done. }
    { pose proof (height_child a _ c Hc). lia. }
    eexists. split; [exact Hrun|]. cbn [fst snd]. split_and!.
    + rewrite fmap_app, sum_list_with_app. csimpl. lia.
    + exact (restyle_trans links _ _ _ Hs1 Hs2).
    + intros b Hb. rewrite join_fmap_snoc in Hb.
      rewrite Hfr2, Hfr1; [done|..]; intros ?; apply Hb, elem_of_app; auto.
    + rewrite join_fmap_snoc, !fmap_app, sum_list_with_app. csimpl.
      rewrite Nat.add_0_r, seq_app, fmap_app. f_equal.
      * rewrite <- Hlab1. apply label_frame. intros b Hb. apply Hfr2.
        intros Hbc. by apply (Hdpre b Hbc).
      * rewrite Hlab2. do 2 f_equal. lia.
  - cbn [fst snd] in *. rewrite Hloop. exists s'. split_and!.
    + csimpl. do 2 f_equal. lia.
    + done.
    + intros b Hb. csimpl in Hb. apply not_elem_of_cons in Hb as [? ?].
      rewrite Hfr by done. by apply lookup_update_ne.
    + f_equal.
      * unfold label. rewrite Hfr by done. unfold s0.
        by rewrite (lookup_update_eq _ _ _ _ Hn).
      * exact Hlab.
Qed.

Lemma computeWidths_ids fuel : ∀ node s s',
  computeWidths fuel node s = Done s' → id <$> heap s' = id <$> heap s.
Proof.
  assert (∀ s a w, id <$> heap (update a (set_width w) s) = id <$> heap s) as Hupd.
  { intros s a w. apply list_eq. intros i. rewrite !list_lookup_fmap.
    destruct (decide (i = a)) as [->|].
    - change (id <$> alter (set_width w) a (heap s) !! a = id <$> heap s !! a).
      rewrite list_lookup_alter_eq. by destruct (heap s !! a).
    - by rewrite lookup_update_ne. }
  induction fuel as [|fuel IH]; intros node s s' H; [done|].
  cbn [computeWidths] in H. bind_inv H as n En. bind_inv H as [sum s1] Eloop.
  bind_inv H as n1 En1. injection H as <-. rewrite Hupd.
  apply (forEach_keeps (λ st, id <$> heap st.2)) in Eloop; [done|].
  intros c [sum1 s2] [sum2 s3] Hc. bind_inv Hc as s4 Erec. bind_inv Hc as nc Enc.
  injection Hc as _ <-. by apply IH in Erec.
Qed.

Lemma placeNodes_ids fuel : ∀ node px py s s',
  placeNodes fuel node px py s = Done s' → id <$> heap s' = id <$> heap s.
Proof.
  assert (∀ s a px py, id <$> heap (update a (set_xy px py) s) = id <$> heap s) as Hupd.
  { intros s a px py. apply list_eq. intros i. rewrite !list_lookup_fmap.
    destruct (decide (i = a)) as [->|].
    - change (id <$> alter (set_xy px py) a (heap s) !! a = id <$> heap s !! a).
      rewrite list_lookup_alter_eq. by destruct (heap s !! a).
    - by rewrite lookup_update_ne. }
  induction fuel as [|fuel IH]; intros node px py s s' H; [done|].
  cbn [placeNodes] in H. bind_inv H as n En. bind_inv H as [sum s1] Esum.
  bind_inv H as [cur s2] Eloop. injection H as <-.
  apply (forEach_keeps (λ st, id <$> heap st.2)) in Eloop;
    [cbn [snd] in Eloop; rewrite Eloop; apply Hupd|].
  intros c [cur1 s3] [cur2 s4] Hc. bind_inv Hc as nc Enc. bind_inv Hc as s5 Erec.
  bind_inv Hc as nc' Enc'. injection Hc as _ <-. by apply IH in Erec.
Qed.

Lemma label_ids (h h' : list Node) a : id <$> h' = id <$> h → label h' a = label h a.
Proof.
  intros H. unfold label. by rewrite <- !list_lookup_fmap, H.
Qed.

(** *** Distances between the nodes of a layout *)

Lemma iter_down d : ∀ py, (Nat.iter d (λ v, v - vSpacing) py == py - inject_Z (Z.of_nat d) * vSpacing)%Q.
Proof.
  induction d as [|d IH]; intros py.
  - change (py == py - 0 * vSpacing)%Q. qlra.
  - rewrite Nat.iter_succ, IH, Nat2Z.inj_succ, <- Z.add_1_r, inject_Z_plus.
    change (inject_Z 1) with 1%Q. qlra.
Qed.

(** Two different nodes at the same depth are a full spacing apart. *)
Lemma placed_apart h t : ∀ px py d a1 a2 n1 n2,
  placed h px py t → a1 ∈ level d t → a2 ∈ level d t → a1 ≠ a2 →
  h !! a1 = Some n1 → h !! a2 = Some n2 →
  (x n1 + hSpacing <= x n2)%Q ∨ (x n2 + hSpacing <= x n1)%Q.
Proof.
  induction t as [b cs IH] using tree_ind'.
  intros px py d a1 a2 n1 n2 Hp H1 H2 Hne Hn1 Hn2.
  destruct d as [|d].
  { csimpl in H1. csimpl in H2. apply list_elem_of_singleton in H1, H2. congruence. }
  apply level_child in H1 as (i & c1 & Hi & H1).
  apply level_child in H2 as (j & c2 & Hj & H2).
  destruct (Nat.lt_total i j) as [Hij|[->|Hij]].
  - destruct (lookup_two_split cs i j c1 c2 Hi Hj Hij) as (l1 & l2 & l3 & ->).
    left. eapply placed_siblings; eauto using level_addrs.
  - assert (c2 = c1) as -> by congruence.
    rewrite Forall_forall in IH.
    assert (c1 ∈ cs) as Hc by (by eapply list_elem_of_lookup_2).
    apply placed_inv in Hp as (_ & _ & _ & _ & Hcs).
    destruct (list_elem_of_split _ _ Hc) as (pre & post & Heq).
    exact (IH c1 Hc _ _ d a1 a2 n1 n2 (Hcs pre c1 post Heq) H1 H2 Hne Hn1 Hn2).
  - destruct (lookup_two_split cs j i c2 c1 Hj Hi Hij) as (l1 & l2 & l3 & ->).
    right. eapply placed_siblings; eauto using level_addrs.
Qed.

(** The reserved width of a tree is one spacing for each of its leaves. *)
Lemma widthT_leaves t : (widthT t == hSpacing * inject_Z (Z.of_nat (leaves t)))%Q.
Proof.
  induction t as [a cs IH] using tree_ind'.
  destruct cs as [|c cs].
  { cbn. reflexivity. }
  rewrite widthT_sum by done. cbn [leaves].
  rewrite bool_decide_eq_false_2 by done.
  induction IH as [|d ds Hd _ IHds].
  - cbn. reflexivity.
  - rewrite fmap_cons, sumw_cons. csimpl.
    rewrite Nat2Z.inj_add, inject_Z_plus, Hd, IHds. unfold hSpacing. lra.
Qed.

(** Any two different nodes of a layout are a full spacing apart,
    horizontally or vertically. *)
Lemma placed_distinct h t px py a1 a2 n1 n2 :
  placed h px py t → a1 ∈ addrs t → a2 ∈ addrs t → a1 ≠ a2 →
  h !! a1 = Some n1 → h !! a2 = Some n2 →
  (x n1 + hSpacing <= x n2)%Q ∨ (x n2 + hSpacing <= x n1)%Q ∨
  (y n1 + vSpacing <= y n2)%Q ∨ (y n2 + vSpacing <= y n1)%Q.
Proof.
  intros Hp H1 H2 Hne Hn1 Hn2.
  destruct (addrs_level _ _ H1) as (d1 & Hd1).
  destruct (addrs_level _ _ H2) as (d2 & Hd2).
  destruct (placed_level _ _ _ _ _ _ Hp Hd1) as (m1 & Hm1 & Hy1).
  destruct (placed_level _ _ _ _ _ _ Hp Hd2) as (m2 & Hm2 & Hy2).
  assert (m1 = n1) as -> by congruence. assert (m2 = n2) as -> by congruence.
  pose proof (iter_down d1 py) as E1. pose proof (iter_down d2 py) as E2.
  rewrite <- Hy1 in E1. rewrite <- Hy2 in E2.
  destruct (Nat.lt_total d1 d2) as [Hlt|[->|Hlt]].
  - right. right. right.
    assert (Z.of_nat d1 + 1 <= Z.of_nat d2)%Z as Hz by lia.
    rewrite Zle_Qle, inject_Z_plus in Hz.
    change (inject_Z 1) with 1%Q in Hz. revert E1 E2 Hz.
    generalize (inject_Z (Z.of_nat d1)) (inject_Z (Z.of_nat d2)). intros. qlra.
  - destruct (placed_apart _ _ _ _ _ _ _ _ _ Hp Hd1 Hd2 Hne Hn1 Hn2); auto.
  - right. right. left.
    assert (Z.of_nat d2 + 1 <= Z.of_nat d1)%Z as Hz by lia.
    rewrite Zle_Qle, inject_Z_plus in Hz.
    change (inject_Z 1) with 1%Q in Hz. revert E1 E2 Hz.
    generalize (inject_Z (Z.of_nat d1)) (inject_Z (Z.of_nat d2)). intros. qlra.
Qed.

(** *** Clicks *)

Lemma hit_box wx wy n :
  hit wx wy n = true →
  (x n - radius < wx)%Q ∧ (wx < x n + radius)%Q ∧
  (y n - radius < wy)%Q ∧ (wy < y n + radius)%Q.
Proof.
  unfold hit, radius. destruct (Qlt_le_dec _ _) as [H|]; [|done]. intros _.
  assert (∀ dx dy : Q, dx * dx + dy * dy < 10 * 10 →
            -10 < dx ∧ dx < 10 ∧ -10 < dy ∧ dy < 10)%Q as Hbox
    by (intros dx dy Hd; repeat split; nra).
  destruct (Hbox _ _ H) as (? & ? & ? & ?). repeat split; lra.
Qed.

(** The discs of two different nodes of a layout have no point in common. *)
Lemma hit_unique h t px py wx wy a1 a2 n1 n2 :
  placed h px py t → a1 ∈ addrs t → a2 ∈ addrs t →
  h !! a1 = Some n1 → h !! a2 = Some n2 →
  hit wx wy n1 = true → hit wx wy n2 = true → a1 = a2.
Proof.
  intros Hp H1 H2 Hn1 Hn2 Hh1 Hh2.
  destruct (decide (a1 = a2)) as [|Hne]; [done|exfalso].
  apply hit_box in Hh1 as (? & ? & ? & ?). apply hit_box in Hh2 as (? & ? & ? & ?).
  unfold radius in *.
  destruct (placed_distinct _ _ _ _ _ _ _ _ Hp H1 H2 Hne Hn1 Hn2) as [?|[?|[?|?]]];
    qlra.
Qed.

Lemma getAllNodes_spec fuel s t :
  wf s t → height t ≤ fuel → getAllNodes fuel s = Done (addrs t).
Proof.
  intros (Hroot & Hr & _) Hfuel. unfold getAllNodes. rewrite <- Hroot.
  exact (all_traverse_spec t fuel s None [] Hr Hfuel).
Qed.

(** *** The listener *)

Lemma deepCopy_turn fuel : ∀ node np s c s',
  deepCopy fuel node np s = Done (c, s') → turn s' = turn s.
Proof.
  induction fuel as [|fuel IH]; intros node np s c s' H; [done|].
  cbn [deepCopy] in H. unfold newId, new_Node in H. cbn [foldl] in H.
  bind_inv H as n En. bind_inv H as s1 Eloop. injection H as _ <-.
  apply (forEach_keeps turn) in Eloop; [exact Eloop|].
  intros ch s2 s3 Hc. bind_inv Hc as [cc s4] Erec. injection Hc as <-.
  apply IH in Erec. exact Erec.
Qed.

Lemma chop_listening fuel L s s' :
  chop fuel L s = Done s' →
  ∃ r', heap s' !! root = Some r' ∧
    listening s' =
      (if bool_decide (length (children r') = 0) then false else listening s).
Proof.
  unfold chop. intros H. bind_inv H as l El. bind_inv H as P EP. bind_inv H as p Ep.
  bind_inv H as s1 Egrow. bind_inv H as s2 Edraw. bind_inv H as r Er.
  injection H as <-.
  assert (listening s1 = listening s) as H1.
  { destruct (decide (P ≠ root)).
    - bind_inv Egrow as p' Ep'. apply (times_keeps turn) in Egrow.
      + by injection Egrow.
      + intros sa sb Hf. bind_inv Hf as [copy sc] Ecopy. bind_inv Hf as g Eg.
        injection Hf as <-. apply deepCopy_turn in Ecopy. exact Ecopy.
    - by injection Egrow as <-. }
  apply redraw_turn in Edraw. injection Edraw as _ _ H2.
  unfold get in Er. destruct (heap s2 !! root) as [r2|] eqn:E; [|done].
  injection Er as ->. exists r. split; [by destruct (bool_decide _)|].
  destruct (bool_decide _); [done|]. congruence.
Qed.

(** *** [initHydra] *)

Lemma tr_root_chain_up k n : tr_root (chain_up k n) = k + n.
Proof. destruct n; cbn [chain_up tr_root]; lia. Qed.

Lemma addrs_chain_up k n : addrs (chain_up k n) = rev (seq k (S n)).
Proof.
  induction n as [|n IH]; [done|].
  change (addrs (chain_up k (S n))) with ((k + S n) :: (addrs (chain_up k n) ++ [])).
  rewrite app_nil_r, IH, (seq_S (S n)), rev_unit. done.
Qed.

Lemma size_chain_up k n : size (chain_up k n) = S n.
Proof. by rewrite <- size_addrs, addrs_chain_up, length_rev, length_seq. Qed.

Lemma height_chain_up k n : height (chain_up k n) = S n.
Proof.
  induction n as [|n IH]; [done|].
  change (height (chain_up k (S n))) with (S (height (chain_up k n) `max` 0)).
  rewrite IH. lia.
Qed.

Lemma NoDup_chain_up k n : NoDup (addrs (chain_up k n)).
Proof. rewrite addrs_chain_up, <- Permutation_rev. apply NoDup_seq. Qed.

Lemma elem_of_chain_up k n a : a ∈ addrs (chain_up k n) → k ≤ a ≤ k + n.
Proof.
  rewrite addrs_chain_up, <- Permutation_rev. intros Ha%elem_of_seq. lia.
Qed.

Lemma repr_app (h l : list Node) par t : repr h par t → repr (h ++ l) par t.
Proof.
  intros Hr. eapply repr_local; [exact Hr|]. intros a Ha.
  apply keeps_same, lookup_app_l. by eapply repr_lt.
Qed.

Lemma repr_set_parent (h : list Node) par np t :
  repr h par t → NoDup (addrs t) →
  repr (alter (set_parent np) (tr_root t) h) np t.
Proof.
  destruct t as [a cs]. intros (n & Hn & Hkids & Hup & Hcs)%repr_inv Hnd.
  cbn [tr_root]. econstructor; [by rewrite list_lookup_alter_eq, Hn|done|done|].
  rewrite Forall_forall in *. intros d Hd.
  eapply repr_local; [by apply Hcs|]. intros b Hb.
  apply keeps_same, list_lookup_alter_ne. intros ->.
  apply (NoDup_addrs_root _ _ Hnd). apply list_elem_of_join.
  exists (addrs d). split; [done|]. apply list_elem_of_fmap. eauto.
Qed.

(** The loop of [initHydra]: every [new Node(i, [current])] puts one more
    node on top of the chain. *)
Lemma chain_fold (ids : list nat) : ∀ s j k0,
  length (heap s) = k0 + S j →
  repr (heap s) None (chain_up k0 j) →
  ∃ s', foldl (λ '(current, s) i, new_Node i [current] s) (k0 + j, s) ids
          = (k0 + (j + length ids), s') ∧
    length (heap s') = k0 + S (j + length ids) ∧
    repr (heap s') None (chain_up k0 (j + length ids)) ∧
    (∀ a, a < k0 → heap s' !! a = heap s !! a) ∧
    turn s' = turn s ∧ idCounter s' = idCounter s.
Proof.
  induction ids as [|i ids IH]; intros s j k0 Hlen Hr.
  - exists s. cbn [foldl length]. rewrite !Nat.add_0_r. done.
  - set (s2 := update (k0 + j) (set_parent (Some (k0 + S j)))
                 (set_heap (heap s ++ [mkNode i [k0 + j] None 0 0 0]) s)).
    assert (new_Node i [k0 + j] s = (k0 + S j, s2)) as Hnew.
    { unfold new_Node. cbn [foldl]. by rewrite Hlen. }
    destruct (IH s2 (S j) k0) as (s' & Hrun & Hlen' & Hr' & Hfr & Hturn & Hid).
    + unfold s2. rewrite length_update. cbn [heap set_heap].
      rewrite length_app. cbn [length]. lia.
    + cbn [chain_up]. econstructor.
      * unfold s2. rewrite lookup_update_ne by lia. cbn [heap set_heap].
        by rewrite lookup_app_r, Hlen, Nat.sub_diag by lia.
      * cbn [children fmap list_fmap]. by rewrite tr_root_chain_up.
      * done.
      * apply Forall_singleton. unfold s2, update. cbn [heap set_heap].
        rewrite <- (tr_root_chain_up k0 j).
        apply (repr_set_parent _ None); [by apply repr_app|apply NoDup_chain_up].
    + exists s'. cbn [foldl length]. rewrite Hnew.
      replace (k0 + (j + S (length ids))) with (k0 + (S j + length ids)) by lia.
      replace (j + S (length ids)) with (S j + length ids) by lia.
      split_and!; try done.
      intros a Ha. rewrite Hfr by done. unfold s2.
      rewrite lookup_update_ne by lia. cbn [heap set_heap].
      apply lookup_app_l. lia.
Qed.

Lemma initHydra_spec fuel n s t0 :
  wf s t0 → S (S (n - 1)) ≤ fuel →
  ∃ s', initHydra fuel n s = Done s' ∧
        wf s' (T root [chain_up (length (heap s)) (n - 1)]) ∧
        step s' = 0 ∧ listening s' = true ∧
        reducedGrowth s' = reducedGrowth s ∧
        idCounter s' = S (S (n - 1)).
Proof.
  intros (Hroot0 & Hr0 & _) Hfuel.
  destruct (repr_root _ _ _ _ _ Hr0) as (r0 & Hrt0 & _ & Hup0). rewrite Hroot0 in Hrt0.
  set (k0 := length (heap s)).
  assert (0 < k0) as Hk0 by (by eapply lookup_lt_Some).
  unfold initHydra.
  set (s1 := set_heap (heap s ++ [mkNode n [] None 0 0 0])
               (set_idCounter (n + 1) (set_step 0 s))).
  change (new_Node n [] (set_idCounter (n + 1) (set_step 0 s))) with (k0, s1).
  cbn iota.
  destruct (chain_fold (rev (seq 1 (n - 1))) s1 0 k0) as
    (s2 & Hrun & Hlen2 & Hr2 & Hfr2 & Hturn2 & Hid2).
  { unfold s1. cbn [heap set_heap]. rewrite length_app. cbn [length]. fold k0. lia. }
  { cbn [chain_up]. apply (repr_T _ _ _ _ _ _ (mkNode n [] None 0 0 0));
      [|done|done|constructor].
    unfold s1. cbn [heap set_heap]. by rewrite lookup_app_r, Nat.sub_diag. }
  rewrite length_rev, length_seq in Hrun, Hlen2, Hr2. cbn [Nat.add] in Hrun, Hlen2, Hr2.
  rewrite Nat.add_0_r in Hrun. rewrite Hrun. cbn iota.
  set (m := n - 1) in *. set (cur := k0 + m).
  assert (heap s2 !! root = Some r0) as Hrt2.
  { rewrite Hfr2 by done. unfold s1. cbn [heap set_heap]. by apply lookup_app_l_Some. }
  set (s3 := update root (set_children [cur]) s2).
  rewrite (get_Done s3 root (set_children [cur] r0)) by (by apply lookup_update_eq).
  cbn [mbind outcome_bind children set_children lookup list_lookup deref].
  set (s4 := set_listening true (update cur (set_parent (Some root)) s3)).
  assert (cur ≠ root) as Hcur by (unfold cur, root; lia).
  assert (wf s4 (T root [chain_up k0 m])) as Hwf.
  { split_and!; [done| |].
    - econstructor.
      + unfold s4. change (heap (set_listening true ?s)) with (heap s).
        rewrite lookup_update_ne by done. by apply lookup_update_eq.
      + cbn [children set_children fmap list_fmap]. by rewrite tr_root_chain_up.
      + done.
      + apply Forall_singleton. unfold s4, update at 1. cbn [heap set_heap set_listening].
        unfold cur. rewrite <- (tr_root_chain_up k0 m).
        apply (repr_set_parent _ None); [|apply NoDup_chain_up].
        eapply repr_local; [exact Hr2|]. intros a Ha.
        apply keeps_same, lookup_update_ne. apply elem_of_chain_up in Ha.
        unfold root. lia.
    - change (addrs (T root [chain_up k0 m]))
        with (root :: (addrs (chain_up k0 m) ++ [])).
      rewrite app_nil_r. apply NoDup_cons. split; [|apply NoDup_chain_up].
      intros Ha%elem_of_chain_up. unfold root in Ha. lia. }
  destruct (redraw_spec fuel s4 _ Hwf) as (s' & -> & F & Hstep & Hred & Hlis & Hid & _).
  { change (height (T root [chain_up k0 m]))
      with (S (height (chain_up k0 m) `max` 0)).
    rewrite height_chain_up. lia. }
  injection Hturn2 as T1 T2 T3.
  exists s'. split_and!; [done|by eapply wf_links| | | |].
  - rewrite Hstep. change (step s2 = 0). by rewrite T1.
  - by rewrite Hlis.
  - rewrite Hred. change (reducedGrowth s2 = reducedGrowth s). by rewrite T2.
  - rewrite Hid. change (size (T root [chain_up k0 m]))
      with (S (size (chain_up k0 m) + 0)).
    rewrite size_chain_up. lia.
Qed.

(** *** [initRandomHydra] *)



End IndexFacts.

(** ** [script.js]: copying and cutting *)

Module ScriptFacts.
Import Script.

#[local] Abbreviation repr := (repr children parent).
#[local] Abbreviation keeps := (keeps children parent).
#[local] Arguments update : simpl never.

Lemma supdate_ne s a b f : a ≠ b → heap (update b f s) !! a = heap s !! a.
Proof. intros. by apply list_lookup_alter_ne. Qed.

Lemma supdate_eq s a f n :
  heap s !! a = Some n → heap (update a f s) !! a = Some (f n).
Proof.
  intros H. change (alter f a (heap s) !! a = Some (f n)).
  by rewrite list_lookup_alter_eq, H.
Qed.

Lemma slength_update s a f : length (heap (update a f s)) = length (heap s).
Proof. apply length_alter. Qed.

Lemma sget_Done s a n : heap s !! a = Some n → get a s = Done n.
Proof. unfold get. by intros ->. Qed.

#[local] Instance slinks_refl : Reflexive links.
Proof. by intros n. Qed.
#[local] Instance slinks_trans : Transitive links.
Proof. intros n1 n2 n3 [] []. split; congruence. Qed.

Lemma same_vars_refl s : same_vars s s.
Proof. by unfold same_vars. Qed.

Lemma same_vars_trans s1 s2 s3 : same_vars s1 s2 → same_vars s2 s3 → same_vars s1 s3.
Proof.
  intros (? & ? & ? & ? & ?) (? & ? & ? & ? & ?). unfold same_vars.
  split_and!; congruence.
Qed.

Lemma links_update s a f :
  (∀ n, links n (f n)) → Forall2 links (heap s) (heap (update a f s)).
Proof.
  intros Hf. change (Forall2 links (heap s) (alter f a (heap s))).
  apply Forall2_same_length_lookup. rewrite length_alter. split; [done|].
  intros i n n' Hn. destruct (decide (a = i)) as [->|].
  - rewrite list_lookup_alter_eq, Hn. intros [= <-]. apply Hf.
  - rewrite list_lookup_alter_ne, Hn by done. by intros [= <-].
Qed.

Lemma repr_links (h h' : list Node) par t :
  Forall2 links h h' → repr h par t → repr h' par t.
Proof.
  intros H Hr. eapply repr_local; [exact Hr|]. intros a _ n Hn.
  destruct (Forall2_lookup_l _ _ _ _ _ H Hn) as (n' & ? & ? & ?). eauto.
Qed.

Lemma grows_update s s' k a f :
  grows s s' k → length (heap s) ≤ a → grows s (update a f s') k.
Proof.
  intros (L & F & ?) Ha. unfold grows.
  rewrite slength_update. split_and!; try done.
  intros b Hb. rewrite supdate_ne by lia. by apply F.
Qed.

Lemma grows_trans s1 s2 s3 k1 k2 :
  grows s1 s2 k1 → grows s2 s3 k2 → grows s1 s3 (k1 + k2).
Proof.
  intros (L1 & F1 & (? & ? & ? & I1 & ?)) (L2 & F2 & (? & ? & ? & I2 & ?)).
  unfold grows, same_vars in *. cbn in *.
  split_and!; try congruence; try lia.
  intros a Ha. rewrite F2, F1; [done|lia|lia].
Qed.

Lemma repr_grows s s' k par t :
  grows s s' k → repr (heap s) par t → repr (heap s') par t.
Proof.
  intros (_ & F & _) Hr. eapply repr_local; [exact Hr|].
  intros a Ha. apply keeps_eq, F. by eapply repr_lt.
Qed.

(** Re-pointing the parent reference of the root of a subtree. *)
Lemma repr_reparent s par np t :
  repr (heap s) par t → NoDup (addrs t) →
  repr (heap (update (tr_root t) (set_parent np) s)) np t.
Proof.
  destruct t as [a cs]. intros (n & Hn & Hkids & Hup & Hcs)%repr_inv Hnd.
  econstructor; [by apply supdate_eq|done|done|].
  rewrite Forall_forall in *. intros d Hd.
  eapply repr_local; [by apply Hcs|]. intros b Hb.
  apply keeps_eq, supdate_ne. intros ->.
  apply (NoDup_addrs_root _ _ Hnd). apply list_elem_of_join.
  exists (addrs d). split; [done|]. apply list_elem_of_fmap. eauto.
Qed.

(** [cloneSubtree] of a tree-shaped subtree returns a detached copy laid
    out in pre-order at the next free addresses. *)
Lemma clone_rec_spec u : ∀ fuel s par,
  repr (heap s) par u → height u ≤ fuel →
  ∃ s' c,
    clone_rec fuel (tr_root u) s = Done (length (heap s), s') ∧
    grows s s' (size u) ∧
    repr (heap s') None c ∧
    tr_root c = length (heap s) ∧
    erase c = erase u ∧
    addrs c = seq (length (heap s)) (size u).
Proof.
  induction u as [a cs IH] using tree_ind'. intros fuel s par Hr Hfuel.
  destruct fuel as [|fuel]; [pose proof (height_pos (T a cs)); lia|].
  pose proof Hr as (n & Hn & Hkids & Hup & Hcs)%repr_inv.
  set (k := length (heap s)).
  assert (a < k) as Hak by (by eapply lookup_lt_Some).
  cbn [clone_rec tr_root]. unfold new_object, newId. cbn [heap set_nextId].
  fold k. set (s0 := set_heap _ _).
  assert (grows s s0 1) as Hg0.
  { unfold grows, s0, same_vars. cbn. rewrite length_app. cbn.
    split_and!; try done; try lia. intros b Hb. by rewrite lookup_app_l. }
  assert (heap s0 !! k = Some (mkNode (nextId s) [] None 0)) as Hk0.
  { unfold s0. cbn. by rewrite lookup_app_r, Nat.sub_diag. }
  rewrite (sget_Done s0 a n) by (destruct Hg0 as (_ & F & _); by rewrite F).
  cbn [mbind outcome_bind]. rewrite Hkids.
  loop (λ pre s1, ∃ cpre,
       grows s s1 (S (sum_list (size <$> pre))) ∧
       repr (heap s1) None (T k cpre) ∧
       erase <$> cpre = erase <$> pre ∧
       mjoin (addrs <$> cpre) = seq (S k) (sum_list (size <$> pre))).
  - exists []. split_and!; [done| |done|done].
    econstructor; [exact Hk0|done|done|constructor].
  - intros pre c post s1 -> (cpre & Hg1 & Hrepr1 & Herase1 & Haddrs1).
    rewrite Forall_forall in IH, Hcs.
    assert (c ∈ pre ++ c :: post) as Hc by (apply elem_of_app; right; left).
    destruct (IH c Hc fuel s1 (Some a)) as
      (s2 & cc & Hcopy & Hg2 & Hrepr2 & Hroot2 & Herase2 & Haddrs2).
    { eapply repr_grows; [exact Hg1|]. by apply Hcs. }
    { pose proof (height_child a _ c Hc). lia. }
    rewrite Hcopy. cbn [mbind outcome_bind]. eexists. split; [done|].
    pose proof Hg1 as (L1 & F1 & _). pose proof Hg2 as (L2 & F2 & _).
    fold k in L1.
    apply repr_inv in Hrepr1 as (nk & Hnk & Hkidsk & Hupk & Hcpre).
    assert (NoDup (addrs cc)) as Hndcc by (rewrite Haddrs2; apply NoDup_seq).
    pose proof (repr_reparent s2 None (Some k) cc Hrepr2 Hndcc) as Hrepr2'.
    rewrite Hroot2 in Hrepr2'.
    set (s2' := update (length (heap s1)) (set_parent (Some k)) s2) in *.
    exists (cpre ++ [cc]). split_and!.
    + rewrite fmap_app, sum_list_with_app. csimpl.
      replace (S (sum_list (size <$> pre) + (size c + 0)))
        with (S (sum_list (size <$> pre)) + size c) by lia.
      apply grows_update; [|fold k; lia]. apply grows_update; [|fold k; lia].
      eapply grows_trans; [exact Hg1|exact Hg2].
    + econstructor.
      * apply supdate_eq. unfold s2'. rewrite supdate_ne by lia.
        rewrite F2 by lia. exact Hnk.
      * csimpl. rewrite Hkidsk, fmap_app. csimpl. by rewrite Hroot2.
      * done.
      * rewrite Forall_app, Forall_singleton. split.
        -- rewrite Forall_forall in *. intros d Hd.
           eapply repr_local; [by apply Hcpre|]. intros b Hb.
           assert (b ∈ seq (S k) (sum_list (size <$> pre))) as Hbs.
           { rewrite <- Haddrs1. apply list_elem_of_join. exists (addrs d).
             split; [done|]. apply list_elem_of_fmap. eauto. }
           apply elem_of_seq in Hbs.
           apply keeps_eq. rewrite supdate_ne by lia. unfold s2'.
           rewrite supdate_ne by lia. apply F2. lia.
        -- eapply repr_local; [exact Hrepr2'|]. intros b Hb.
           rewrite Haddrs2 in Hb. apply elem_of_seq in Hb.
           apply keeps_eq, supdate_ne. lia.
    + rewrite !fmap_app. csimpl. by rewrite Herase1, Herase2.
    + rewrite join_fmap_snoc, fmap_app, sum_list_with_app, Haddrs1, Haddrs2, L1.
      csimpl. rewrite Nat.add_0_r, seq_app. do 2 f_equal. lia.
  - intros s' (cpre & Hg & Hrepr & Herase & Haddrs). cbn [mbind outcome_bind].
    exists s', (T k cpre). split_and!; try done.
    + csimpl. by rewrite <- Herase.
    + csimpl. by rewrite Haddrs.
Qed.

(** *** The passes after a mutation *)

Lemma depths_ok_inv h d a cs :
  depths_ok h d (T a cs) →
  ∃ n, h !! a = Some n ∧ depth n = d ∧ Forall (depths_ok h (S d)) cs.
Proof. inversion 1; subst. eauto. Qed.

Lemma depths_ok_frame h h' t : ∀ d,
  depths_ok h d t → (∀ b, b ∈ addrs t → h' !! b = h !! b) → depths_ok h' d t.
Proof.
  induction t as [a cs IH] using tree_ind'. intros d (n & Hn & Hd & Hcs)%depths_ok_inv Hf.
  econstructor; [by rewrite Hf by apply (tr_root_in (T a cs))|done|].
  rewrite Forall_forall in *. intros c Hc. apply IH; [done|by apply Hcs|].
  intros b Hb. apply Hf. by eapply addrs_child.
Qed.

Lemma assignDepths_spec t : ∀ fuel s par d,
  repr (heap s) par t → NoDup (addrs t) → height t ≤ fuel →
  ∃ s', assignDepths fuel (tr_root t) d s = Done s' ∧
        Forall2 links (heap s) (heap s') ∧ same_vars s s' ∧
        (∀ b, b ∉ addrs t → heap s' !! b = heap s !! b) ∧
        depths_ok (heap s') d t.
Proof.
  induction t as [a cs IH] using tree_ind'. intros fuel s par d Hr Hnd Hfuel.
  destruct fuel as [|fuel]; [pose proof (height_pos (T a cs)); lia|].
  pose proof Hr as (n & Hn & Hkids & Hup & Hcs)%repr_inv.
  cbn [assignDepths tr_root]. set (s0 := update a (set_depth d) s).
  assert (heap s0 !! a = Some (set_depth d n)) as Hn0 by (by apply supdate_eq).
  assert (Forall2 links (heap s) (heap s0)) as Hl0 by (by apply links_update).
  pose proof (NoDup_addrs_root _ _ Hnd) as Ha.
  rewrite (sget_Done _ _ _ Hn0). cbn [mbind outcome_bind]. csimpl. rewrite Hkids.
  rewrite Forall_forall in IH, Hcs.
  loop (λ pre s1,
    Forall2 links (heap s) (heap s1) ∧ same_vars s s1 ∧
    (∀ b, b ∉ mjoin (addrs <$> pre) → heap s1 !! b = heap s0 !! b) ∧
    Forall (depths_ok (heap s1) (S d)) pre).
  - split_and!; [done|done|done|constructor].
  - intros pre c post s1 -> (Hl1 & Hv1 & Hfr1 & Hpre).
    assert (c ∈ pre ++ c :: post) as Hc by (apply elem_of_app; right; left).
    destruct (NoDup_addrs_inv _ _ _ _ Hnd) as (Hndc & Hac & Hdpre & Hdpost).
    destruct (IH c Hc fuel s1 (Some a) (d + 1)) as (s2 & Hrun & Hl2 & Hv2 & Hfr2 & Hok).
    { eapply repr_links; [exact Hl1|]. by apply Hcs. }
    { done. }
    { pose proof (height_child a _ c Hc). lia. }
    exists s2. split; [done|]. split_and!.
    + by etrans.
    + by eapply same_vars_trans.
    + intros b Hb. rewrite join_fmap_snoc in Hb.
      rewrite Hfr2, Hfr1; [done|..]; intros ?; apply Hb, elem_of_app; auto.
    + rewrite Forall_app, Forall_singleton. rewrite Nat.add_1_r in Hok.
      split; [|done]. rewrite Forall_forall in *. intros e He.
      eapply depths_ok_frame; [by apply Hpre|]. intros b Hb. apply Hfr2.
      intros Hbc. apply (Hdpre b Hbc). apply list_elem_of_join.
      exists (addrs e). split; [done|]. apply list_elem_of_fmap. eauto.
  - intros s' (Hl & Hv & Hfr & Hok). exists s'. split; [done|]. split_and!; try done.
    + intros b Hb. csimpl in Hb. apply not_elem_of_cons in Hb as [? ?].
      rewrite Hfr by done. by apply supdate_ne.
    + econstructor; [rewrite Hfr by done; exact Hn0|done|done].
Qed.

Lemma size_rec_spec t : ∀ fuel s par (cache : gmap nat nat),
  repr (heap s) par t → NoDup (addrs t) →
  (∀ b, b ∈ addrs t → cache !! b = None) → height t ≤ fuel →
  ∃ v cache', size_rec fuel s (tr_root t) cache = Done (v, cache') ∧
    ∀ b, is_Some (cache' !! b) ↔ is_Some (cache !! b) ∨ b ∈ addrs t.
Proof.
  induction t as [a cs IH] using tree_ind'. intros fuel s par cache Hr Hnd Hfresh Hfuel.
  destruct fuel as [|fuel]; [pose proof (height_pos (T a cs)); lia|].
  pose proof Hr as (n & Hn & Hkids & Hup & Hcs)%repr_inv.
  cbn [size_rec tr_root]. rewrite (Hfresh a) by left.
  rewrite (sget_Done _ _ _ Hn). cbn [mbind outcome_bind]. rewrite Hkids, length_fmap.
  rewrite Forall_forall in IH, Hcs.
  assert (∃ v cache1,
    (if bool_decide (length cs ≠ 0) then
       '(vals, sizeCache) ← forEach (λ c '(vals, sizeCache),
              '(v, sizeCache) ← size_rec fuel s c sizeCache;
              Done (vals ++ [v], sizeCache))
            (tr_root <$> cs) ([], cache);
       Done (foldl Nat.add 0 vals, sizeCache)
     else Done (1, cache)) = Done (v, cache1) ∧
    ∀ b, is_Some (cache1 !! b) ↔ is_Some (cache !! b) ∨ b ∈ mjoin (addrs <$> cs))
    as (v & cache1 & -> & Hc1).
  { case_bool_decide as Hlen.
    - loop (λ pre (st : list nat * gmap nat nat),
        ∀ b, is_Some (st.2 !! b) ↔ is_Some (cache !! b) ∨ b ∈ mjoin (addrs <$> pre)).
      + intros b. csimpl. rewrite elem_of_nil. tauto.
      + intros pre c post [vals cache1] -> Hinv. cbn [fst snd] in *.
        assert (c ∈ pre ++ c :: post) as Hc by (apply elem_of_app; right; left).
        destruct (NoDup_addrs_inv _ _ _ _ Hnd) as (Hndc & Hac & Hdpre & Hdpost).
        destruct (IH c Hc fuel s (Some a) cache1) as (v & cache2 & -> & Hc2).
        { by apply Hcs. }
        { done. }
        { intros b Hb. apply eq_None_not_Some. rewrite Hinv. intros [Hs|Hin].
          - rewrite Hfresh in Hs; [by destruct Hs|]. by eapply addrs_child.
          - by apply (Hdpre b Hb). }
        { pose proof (height_child a _ c Hc). lia. }
        cbn [mbind outcome_bind]. eexists. split; [done|]. cbn [fst snd].
        intros b. rewrite Hc2, Hinv, join_fmap_snoc, elem_of_app. tauto.
      + intros [vals cache1] Hinv. cbn [mbind outcome_bind fst snd] in *. eauto.
    - exists 1, cache. split; [done|]. destruct cs; [|done]. intros b. csimpl.
      rewrite elem_of_nil. tauto. }
  cbn [mbind outcome_bind]. eexists _, _. split; [done|].
  intros b. csimpl. rewrite elem_of_cons. specialize (Hc1 b).
  destruct (decide (b = a)) as [->|Hne].
  - rewrite lookup_insert_eq. split; [auto|eauto].
  - rewrite lookup_insert_ne by done. tauto.
Qed.

Lemma place_spec t : ∀ fuel s W (cache : gmap nat nat) par xl xr d coords,
  repr (heap s) par t → (∀ b, b ∈ addrs t → is_Some (cache !! b)) →
  height t ≤ fuel →
  ∃ coords', place fuel s W cache (tr_root t) xl xr d coords = Done coords'.
Proof.
  induction t as [a cs IH] using tree_ind'.
  intros fuel s W cache par xl xr d coords Hr Hcache Hfuel.
  destruct fuel as [|fuel]; [pose proof (height_pos (T a cs)); lia|].
  pose proof Hr as (n & Hn & Hkids & Hup & Hcs)%repr_inv.
  cbn [place tr_root]. rewrite (sget_Done _ _ _ Hn). cbn [mbind outcome_bind].
  case_bool_decide; [eauto|]. rewrite Hkids.
  rewrite Forall_forall in IH, Hcs.
  loop (λ (pre : list tree) (total : nat), True); [done| |].
  { intros pre c post total -> _.
    destruct (Hcache (tr_root c)) as [v ->]; [|cbn; eauto].
    eapply addrs_child; [|apply tr_root_in]. apply elem_of_app. right. left. }
  intros total _. cbn [mbind outcome_bind].
  loop (λ (pre : list tree) (st : Q * gmap nat (Q * Q)), True); [done| |].
  { intros pre c post [cur coords1] -> _.
    assert (c ∈ pre ++ c :: post) as Hc by (apply elem_of_app; right; left).
    destruct (Hcache (tr_root c)) as [v ->].
    { eapply addrs_child; [done|apply tr_root_in]. }
    cbn [deref mbind outcome_bind].
    edestruct (IH c Hc fuel s W cache (Some a)) as (coords2 & ->).
    - by apply Hcs.
    - intros b Hb. apply Hcache. by eapply addrs_child.
    - pose proof (height_child a _ c Hc). lia.
    - cbn [mbind outcome_bind]. eauto. }
  intros [cur coords1] _. cbn [mbind outcome_bind]. eauto.
Qed.

Lemma render_spec fuel s t :
  hydra s = Some (tr_root t) → repr (heap s) None t → NoDup (addrs t) →
  height t ≤ fuel →
  ∃ s', render fuel s = Done s' ∧
        Forall2 links (heap s) (heap s') ∧ same_vars s s' ∧
        depths_ok (heap s') 0 t.
Proof.
  intros Hh Hr Hnd Hfuel. unfold render, computeLayout. rewrite Hh. cbn [deref mbind outcome_bind].
  destruct (assignDepths_spec t fuel s None 0 Hr Hnd Hfuel) as (s1 & -> & Hl & Hv & _ & Hok).
  cbn [mbind outcome_bind].
  pose proof (repr_links _ _ _ _ Hl Hr) as Hr1.
  destruct (size_rec_spec t fuel s1 None ∅ Hr1 Hnd) as (v & cache & -> & Hcache);
    [done|done|].
  cbn [mbind outcome_bind].
  destruct (place_spec t fuel s1 (WIDTH s1) cache None 60%Q (WIDTH s1 - 60)%Q 0 ∅ Hr1)
    as (coords & ->); [|done|].
  { intros b Hb. apply Hcache. by right. }
  cbn [mbind outcome_bind]. eauto.
Qed.

Lemma afterMutation_spec fuel s t :
  hydra s = Some (tr_root t) → repr (heap s) None t → NoDup (addrs t) →
  height t ≤ fuel →
  ∃ s', afterMutation fuel s = Done s' ∧
        Forall2 links (heap s) (heap s') ∧ same_vars s s' ∧
        wf s' t.
Proof.
  intros Hh Hr Hnd Hfuel. unfold afterMutation. rewrite Hh. cbn [deref mbind outcome_bind].
  destruct (assignDepths_spec t fuel s None 0 Hr Hnd Hfuel) as (s1 & -> & Hl & Hv & _ & _).
  cbn [mbind outcome_bind].
  pose proof (repr_links _ _ _ _ Hl Hr) as Hr1.
  destruct (render_spec fuel s1 t) as (s2 & -> & Hl2 & Hv2 & Hok); try done.
  { destruct Hv as (-> & _). done. }
  exists s2. split; [done|]. split_and!.
  - by etrans.
  - by eapply same_vars_trans.
  - destruct Hv as (Hh1 & _), Hv2 as (Hh2 & _).
    split_and!; [congruence| |done|done]. by eapply repr_links.
Qed.

(** *** [cutLeaf] *)

Lemma depths_ok_plug h c u : ∀ d,
  depths_ok h d (plug c u) → depths_ok h (d + length c) u.
Proof.
  induction c as [|[a l r] c IH]; intros d Hd; csimpl in *.
  - by rewrite Nat.add_0_r.
  - apply depths_ok_inv in Hd as (n & _ & _ & Hcs).
    rewrite Forall_app, Forall_cons in Hcs. destruct Hcs as (_ & Hc & _).
    apply IH in Hc. by rewrite Nat.add_succ_r.
Qed.

Lemma sgraft_step fuel s par c G kids u :
  repr (heap s) par (plug c (T G kids)) →
  NoDup (addrs (plug c (T G kids))) →
  u ∈ kids → height u ≤ fuel →
  ∃ s1 cp,
    cloneSubtree fuel (tr_root u) s = Done (length (heap s), s1) ∧
    tr_root cp = length (heap s) ∧
    grows s s1 (size u) ∧
    repr (heap (update G (push_child (length (heap s)))
                  (update (length (heap s)) (set_parent (Some G)) s1))) par
      (plug c (T G (kids ++ [cp]))) ∧
    NoDup (addrs (plug c (T G (kids ++ [cp])))) ∧
    erase cp = erase u ∧
    addrs cp = seq (length (heap s)) (size u).
Proof.
  intros Hr Hnd Hu Hfuel.
  pose proof (repr_plug _ _ _ _ _ _ Hr) as (g & Hg & Hkids & Hup & Hcs)%repr_inv.
  rewrite Forall_forall in Hcs.
  destruct (clone_rec_spec u fuel s (Some G)) as
    (s1 & cp & Hcopy & Hgr & Hrcp & Hroot & Herase & Haddrs); [by apply Hcs|done|].
  pose proof Hgr as (L1 & F1 & _).
  exists s1, cp.
  assert (NoDup (addrs cp)) as Hndcp by (rewrite Haddrs; apply NoDup_seq).
  pose proof (repr_reparent s1 None (Some G) cp Hrcp Hndcp) as Hrcp'.
  rewrite Hroot in Hrcp'.
  destruct (graft_heap children parent set_children (λ _ _, eq_refl) (λ _ _, eq_refl)
    (heap s) (heap (update (length (heap s)) (set_parent (Some G)) s1))
    par c G kids cp (size u) Hr Hnd) as [Hr' Hnd']; [|done|done|].
  { intros b Hb. rewrite supdate_ne by lia. by apply F1. }
  rewrite Hroot in Hr'. by split_and!.
Qed.

Lemma isLeaf_true n : isLeaf n = true ↔ children n = [].
Proof.
  unfold isLeaf. rewrite bool_decide_eq_true. by destruct (children n).
Qed.

(** Cutting a leaf directly below the root. *)
Lemma cutLeaf_root fuel s R m1 L m2 :
  wf s (T R (m1 ++ T L [] :: m2)) →
  height (T R (m1 ++ T L [] :: m2)) ≤ fuel →
  ∃ s' r r',
    cutLeaf fuel L s = Done s' ∧
    wf s' (T R (m1 ++ m2)) ∧
    length (heap s') = length (heap s) ∧
    moveCount s' = S (moveCount s) ∧
    depthCounters s' = depthCounters s ∧
    heap s !! R = Some r ∧ heap s' !! R = Some r' ∧
    children r = tr_root <$> (m1 ++ T L [] :: m2) ∧
    children r' = filter (λ x, x ≠ L) (children r) ∧
    children r' = tr_root <$> (m1 ++ m2) ∧
    parent r' = parent r ∧
    (∀ b n, heap s !! b = Some n → b ≠ R →
       ∃ n', heap s' !! b = Some n' ∧ links n n').
Proof.
  intros (Hh & Hr & Hnd & Hok) Hfuel. cbn [tr_root] in Hh.
  pose proof Hr as (r & Hrt & Hkids & Hup & Hcs)%repr_inv.
  rewrite Forall_app, Forall_cons in Hcs. destruct Hcs as (_ & HrL & _).
  apply repr_inv in HrL as (l & Hl & HkL & HupL & _).
  destruct (prune_heap children parent set_children (λ _ _, eq_refl) (λ _ _, eq_refl)
    (heap s) None [] R m1 L m2 r Hr Hnd Hrt) as (_ & Hfilter & Hr2 & Hnd2).
  cbn [plug] in *.
  unfold cutLeaf. rewrite (sget_Done s L l Hl). cbn [mbind outcome_bind].
  rewrite (proj2 (isLeaf_true l)) by done. cbn [negb]. rewrite HupL.
  rewrite (sget_Done s R r Hrt). cbn [mbind outcome_bind].
  set (s2 := update R _ s).
  assert (heap s2 !! R = Some (set_children (filter (λ x, x ≠ L) (children r)) r))
    as Hrt2 by (by apply supdate_eq).
  rewrite (sget_Done s2 R _ Hrt2). cbn [mbind outcome_bind].
  unfold isRoot. cbn [parent set_children]. rewrite Hup, bool_decide_eq_true_2 by done.
  destruct (afterMutation_spec fuel (set_moveCount (S (moveCount s2)) s2) (T R (m1 ++ m2)))
    as (s3 & -> & F3 & Hv3 & Hwf3); [done|done|done| |].
  { etrans; [|exact Hfuel]. apply height_T_le. intros d Hd. exists d. split; [|done].
    apply elem_of_app in Hd as [?|?]; apply elem_of_app; [by left|right; by right]. }
  destruct (Forall2_lookup_l _ _ _ _ _ F3 Hrt2) as (r3 & Hrt3 & Hk3 & Hp3).
  destruct Hv3 as (_ & Hm3 & Hd3 & _).
  exists s3, r, r3. split_and!; try done.
  - rewrite <- (Forall2_length _ _ _ F3). exact (slength_update s _ _).
  - by rewrite Hk3, Hfilter.
  - intros b n Hn Hb.
    assert (heap s2 !! b = Some n) as Hn2.
    { unfold s2. rewrite supdate_ne by done. exact Hn. }
    destruct (Forall2_lookup_l _ _ _ _ _ F3 Hn2) as (n' & ? & ?). eauto.
Qed.

(** Cutting a leaf whose parent [P] hangs below a grandparent [G]. *)
Lemma cutLeaf_regrow fuel s c G l1 l2 P m1 m2 L :
  wf s (plug c (T G (l1 ++ T P (m1 ++ T L [] :: m2) :: l2))) →
  height (plug c (T G (l1 ++ T P (m1 ++ T L [] :: m2) :: l2))) ≤ fuel →
  ∃ s' copies p g,
    cutLeaf fuel L s = Done s' ∧
    wf s' (plug c (T G (l1 ++ T P (m1 ++ m2) :: l2 ++ copies))) ∧
    length copies = default 0 (depthCounters s !! depth p) + 1 ∧
    Forall (λ cp, erase cp = erase (T P (m1 ++ m2))) copies ∧
    mjoin (addrs <$> copies) =
      seq (length (heap s)) (length copies * size (T P (m1 ++ m2))) ∧
    length (heap s') = length (heap s) + length copies * size (T P (m1 ++ m2)) ∧
    moveCount s' = S (moveCount s) ∧
    depthCounters s' = <[depth p := length copies]> (depthCounters s) ∧
    heap s !! P = Some p ∧ parent p = Some G ∧ depth p = S (length c) ∧
    children p = tr_root <$> (m1 ++ T L [] :: m2) ∧
    filter (λ x, x ≠ L) (children p) = tr_root <$> (m1 ++ m2) ∧
    heap s !! G = Some g ∧
    children g = tr_root <$> (l1 ++ T P (m1 ++ T L [] :: m2) :: l2) ∧
    (∀ b n, heap s !! b = Some n → b ≠ P → b ≠ G →
       ∃ n', heap s' !! b = Some n' ∧ links n n').
Proof.
  set (Pfull := T P (m1 ++ T L [] :: m2)). set (u := T P (m1 ++ m2)).
  set (t := plug c (T G (l1 ++ Pfull :: l2))).
  intros (Hh & Hr & Hnd & Hok) Hfuel.
  assert (t = plug (c ++ [Fr G l1 l2]) Pfull) as Ht by (by rewrite plug_app).
  (* the objects the cut reads *)
  pose proof (repr_plug _ _ _ _ _ _ Hr) as HrG.
  pose proof HrG as (g & Hg & Hgkids & _ & HGcs)%repr_inv.
  rewrite Forall_app, Forall_cons in HGcs. destruct HGcs as (_ & HrP & _).
  pose proof HrP as (p & Hp & Hpkids & Hpup & HPcs)%repr_inv.
  rewrite Forall_app, Forall_cons in HPcs. destruct HPcs as (_ & HrL & _).
  apply repr_inv in HrL as (l & Hl & HkL & Hlup & _).
  assert (depth p = S (length c)) as Hdp.
  { rewrite Ht in Hok. apply depths_ok_plug in Hok.
    apply depths_ok_inv in Hok as (p' & Hp' & Hd & _).
    assert (p' = p) as -> by congruence.
    rewrite Hd, length_app. csimpl. lia. }
  assert (height u ≤ height Pfull) as Hhu.
  { apply height_T_le. intros d Hd. exists d. split; [|done].
    apply elem_of_app in Hd as [?|?]; apply elem_of_app; [by left|right; by right]. }
  assert (height Pfull ≤ fuel) as HhP.
  { etrans; [|exact Hfuel]. etrans; [|apply height_plug].
    apply Nat.lt_le_incl, height_child. apply elem_of_app. right. left. }
  (* excision *)
  rewrite Ht in Hr, Hnd.
  destruct (prune_heap children parent set_children (λ _ _, eq_refl) (λ _ _, eq_refl)
    (heap s) None _ P m1 L m2 p Hr Hnd Hp) as (_ & Hfilter & Hr2 & Hnd2).
  rewrite plug_app in Hr2, Hnd2. cbn [plug] in Hr2, Hnd2. fold u in Hr2, Hnd2.
  unfold cutLeaf. rewrite (sget_Done s L l Hl). cbn [mbind outcome_bind].
  rewrite (proj2 (isLeaf_true l)) by done. cbn [negb]. rewrite Hlup.
  rewrite (sget_Done s P p Hp). cbn [mbind outcome_bind].
  set (s2 := update P _ s).
  erewrite (sget_Done s2 P) by (by apply supdate_eq). cbn [mbind outcome_bind].
  unfold isRoot. cbn [parent depth set_children]. rewrite Hpup.
  rewrite bool_decide_eq_false_2 by done.
  change (depthCounters s2) with (depthCounters s).
  set (k := default 0 (depthCounters s !! depth p) + 1).
  set (k0 := length (heap s)).
  (* the regrowth loop *)
  edestruct (times_inv
    (λ s, '(copy, s) ← cloneSubtree fuel P s;
          g' ← deref (Some G);
          Done (update g' (push_child copy) (update copy (set_parent (Some G)) s)))
    (λ i si, ∃ copies,
       length copies = i ∧
       repr (heap si) None (plug c (T G (l1 ++ u :: l2 ++ copies))) ∧
       NoDup (addrs (plug c (T G (l1 ++ u :: l2 ++ copies)))) ∧
       Forall (λ cp, erase cp = erase u) copies ∧
       mjoin (addrs <$> copies) = seq k0 (i * size u) ∧
       length (heap si) = k0 + i * size u ∧
       hydra si = hydra s ∧ moveCount si = moveCount s ∧
       depthCounters si = depthCounters s ∧
       (∀ b, b < k0 → b ≠ G → heap si !! b = heap s2 !! b))
    k s2) as (s3 & -> & copies & Hlen & Hr3 & Hnd3 & Her & Hadd & Hlen3
                          & Hh3 & Hm3 & Hd3 & Hfr3).
  { exists []. rewrite app_nil_r. split_and!; try done.
    unfold s2. rewrite slength_update. cbn. lia. }
  { intros i si _ (copies & Hlen & Hri & Hndi & Her & Hadd & Hleni & Hhi & Hmi & Hdi & Hfri).
    destruct (sgraft_step fuel si None c G (l1 ++ u :: l2 ++ copies) u Hri Hndi)
      as (si' & cp & Hcopy & Hcproot & Hgr & Hr' & Hnd' & Hecp & Hacp).
    { apply elem_of_app. right. left. }
    { lia. }
    change (tr_root u) with P in Hcopy. rewrite Hcopy.
    cbn [mbind outcome_bind deref].
    eexists. split; [done|]. exists (copies ++ [cp]).
    pose proof Hgr as (L1 & F1 & (H1 & M1 & D1 & _)).
    assert ((l1 ++ u :: l2 ++ copies) ++ [cp] = l1 ++ u :: l2 ++ copies ++ [cp])
      as Hre by (rewrite <- app_assoc; csimpl; by rewrite <- app_assoc).
    rewrite Hre in Hr', Hnd'.
    split_and!.
    - rewrite length_app. csimpl. lia.
    - done.
    - done.
    - rewrite Forall_app, Forall_singleton. done.
    - rewrite join_fmap_snoc, Hadd, Hacp, Hleni.
      replace (S i * size u) with (i * size u + size u) by lia.
      by rewrite seq_app.
    - rewrite !slength_update, L1, Hleni. lia.
    - change (hydra si' = hydra s). cbn in H1. congruence.
    - change (moveCount si' = moveCount s). cbn in M1. congruence.
    - change (depthCounters si' = depthCounters s). cbn in D1. congruence.
    - intros b Hb HbG. rewrite !supdate_ne by (done || lia).
      rewrite F1 by lia. by apply Hfri. }
  (* the passes *)
  set (t3 := plug c (T G (l1 ++ u :: l2 ++ copies))) in *.
  assert (forall d, d ∈ copies → height d = height u) as Hhc.
  { intros d Hd. rewrite Forall_forall in Her.
    by rewrite <- !erase_height, (Her d Hd). }
  assert (height t3 ≤ fuel) as Hht3.
  { etrans; [|exact Hfuel]. apply height_plug_mono, height_T_le.
    intros d [Hd|[->|[Hd|Hd]%elem_of_app]%elem_of_cons]%elem_of_app.
    - exists d. split; [|done]. apply elem_of_app. by left.
    - exists Pfull. split; [|done]. apply elem_of_app. right. left.
    - exists d. split; [|done]. apply elem_of_app. right. by right.
    - exists Pfull. split; [|rewrite (Hhc d Hd); done].
      apply elem_of_app. right. left. }
  cbn [mbind outcome_bind].
  destruct (afterMutation_spec fuel
    (set_moveCount (S (moveCount (set_depthCounters (<[depth p:=k]> (depthCounters s3)) s3)))
       (set_depthCounters (<[depth p:=k]> (depthCounters s3)) s3)) t3)
    as (s4 & -> & F4 & Hv4 & Hwf4); [|done|done|done|].
  { cbn. rewrite Hh3, Hh. unfold t3, t. rewrite !tr_root_plug. by destruct c. }
  destruct Hv4 as (_ & Hm4 & Hd4 & _). cbn in Hm4, Hd4.
  exists s4, copies, p, g. split_and!; try done.
  - by rewrite Hlen.
  - rewrite <- (Forall2_length _ _ _ F4). cbn. by rewrite Hlen3, Hlen.
  - by rewrite Hm4, Hm3.
  - by rewrite Hd4, Hd3, Hlen.
  - intros b n Hn HbP HbG.
    assert (heap s3 !! b = Some n) as Hn3.
    { rewrite Hfr3; [|by eapply lookup_lt_Some|done].
      unfold s2. rewrite supdate_ne by done. exact Hn. }
    destruct (Forall2_lookup_l _ _ _ _ _ F4 Hn3) as (n' & ? & ?). eauto.
Qed.

(** *** The two kinds of cut, on the store *)

Lemma cutLeaf_below_root fuel s t L l R r :
  wf s t → L ∈ addrs t → heap s !! L = Some l → isLeaf l = true →
  parent l = Some R → heap s !! R = Some r → isRoot r = true →
  height t ≤ fuel →
  ∃ s', cutLeaf fuel L s = Done s' ∧
        cut_off children parent (heap s) (heap s') L R ∧
        moveCount s' = S (moveCount s) ∧
        depthCounters s' = depthCounters s.
Proof.
  intros Hwf HL Hl Hleaf Hup HR Hroot Hfuel. pose proof Hwf as (Hh & Hr & Hnd & Hok).
  apply isLeaf_true in Hleaf. apply bool_decide_eq_true in Hroot.
  destruct (cut_focus children parent (heap s) t L l R Hr HL Hl Hleaf Hup)
    as [(m1 & m2 & ->)|(c & G & l1 & l2 & m1 & m2 & ->)].
  - destruct (cutLeaf_root fuel s R m1 L m2 Hwf Hfuel) as
      (s' & r0 & r' & Hcut & Hwf' & Hlen & Hmove & Hdc & Hrt & Hrt' & Hk & Hk'
         & Hk'' & Hp' & Hframe).
    exists s'. split_and!; try done.
    exists r0, r', (tr_root <$> m1), (tr_root <$> m2). split_and!; try done.
    + by rewrite Hk, fmap_app.
    + by rewrite Hk'', fmap_app.
    + rewrite <- fmap_app, <- Hk'', Hk'. intros [? _]%list_elem_of_filter. done.
  - exfalso.
    pose proof (repr_plug _ _ _ _ _ _ Hr) as (_ & _ & _ & _ & HGcs)%repr_inv.
    rewrite Forall_app, Forall_cons in HGcs. destruct HGcs as (_ & HrP & _).
    apply repr_inv in HrP as (r' & Hr' & _ & Hup' & _). congruence.
Qed.

Lemma cutLeaf_below_other fuel s t L l P p :
  wf s t → L ∈ addrs t → heap s !! L = Some l → isLeaf l = true →
  parent l = Some P → heap s !! P = Some p → isRoot p = false →
  height t ≤ fuel →
  let k := default 0 (depthCounters s !! depth p) + 1 in
  ∃ s', cutLeaf fuel L s = Done s' ∧
        regrown children parent (heap s) (heap s') L P k ∧
        framed children parent (heap s) (heap s') L P k ∧
        moveCount s' = S (moveCount s) ∧
        depthCounters s' = <[depth p := k]> (depthCounters s) ∧
        P ∈ level (depth p) t ∧
        ∃ t', wf s' t'.
Proof.
  intros Hwf HL Hl Hleaf Hup HP Hroot Hfuel k. pose proof Hwf as (Hh & Hr & Hnd & Hok).
  apply isLeaf_true in Hleaf. apply bool_decide_eq_false in Hroot.
  destruct (cut_focus children parent (heap s) t L l P Hr HL Hl Hleaf Hup)
    as [(m1 & m2 & ->)|(c & G & l1 & l2 & m1 & m2 & ->)].
  { exfalso. apply repr_inv in Hr as (p' & Hp' & _ & Hup' & _). congruence. }
  destruct (cutLeaf_regrow fuel s c G l1 l2 P m1 m2 L Hwf Hfuel) as
    (s' & copies & p0 & g & Hcut & Hwf' & Hlen & Her & Hadd & Hlen'
       & Hmove & Hdc & Hp & _ & Hdp & _ & Hfilter & _ & _ & Hframe).
  pose proof Hwf' as (_ & Hr' & _).
  assert (p0 = p) as -> by congruence.
  exists s'. split; [done|]. fold k in Hlen. rewrite <- Hlen.
  destruct (regrow_summary children parent (heap s) (heap s') c G l1 l2 P m1 m2 L
    copies p Hr Hnd Hr' Her Hadd Hlen' Hp Hfilter Hframe) as [? ?].
  split_and!; try done; [|eauto].
  rewrite Hdp.
  assert (plug c (T G (l1 ++ T P (m1 ++ T L [] :: m2) :: l2)) =
          plug (c ++ [Fr G l1 l2]) (T P (m1 ++ T L [] :: m2))) as ->
    by (by rewrite plug_app).
  replace (S (length c)) with (length (c ++ [Fr G l1 l2]))
    by (rewrite length_app; cbn; lia).
  apply (level_plug _ (T P (m1 ++ T L [] :: m2))).
Qed.

(** *** Every play ends *)

Lemma cutLeaf_decreases fuel s t L l :
  wf s t → L ∈ addrs t → heap s !! L = Some l →
  isLeaf l = true → isRoot l = false → height t ≤ fuel →
  ∃ s' t', cutLeaf fuel L s = Done s' ∧ wf s' t' ∧ red (erase t') (erase t).
Proof.
  intros Hwf HL Hl Hleaf Hroot Hfuel. pose proof Hwf as (Hh & Hr & Hnd & Hok).
  apply isLeaf_true in Hleaf. apply bool_decide_eq_false in Hroot.
  destruct (parent l) as [P|] eqn:Hup; [|done].
  destruct (cut_focus children parent (heap s) t L l P Hr HL Hl Hleaf Hup)
    as [(m1 & m2 & ->)|(c & G & l1 & l2 & m1 & m2 & ->)].
  - destruct (cutLeaf_root fuel s P m1 L m2 Hwf Hfuel) as
      (s' & r & r' & Hcut & Hwf' & _).
    exists s', (T P (m1 ++ m2)). split_and!; [done|done|apply red_cut_root].
  - destruct (cutLeaf_regrow fuel s c G l1 l2 P m1 m2 L Hwf Hfuel) as
      (s' & copies & p0 & g & Hcut & Hwf' & _ & Her & _).
    exists s', (plug c (T G (l1 ++ T P (m1 ++ m2) :: l2 ++ copies))).
    split_and!; [done|done|]. by apply red_plug, red_cut_regrow.
Qed.

Lemma sleaf_exists s t :
  wf s t → tr_kids t ≠ [] →
  ∃ L l, L ∈ addrs t ∧ heap s !! L = Some l ∧ isLeaf l = true ∧ isRoot l = false.
Proof.
  intros (Hh & Hr & Hnd & _) Hk.
  destruct (tree_leaf t Hk) as (c & P & m1 & L & m2 & ->).
  assert (plug c (T P (m1 ++ T L [] :: m2)) = plug (c ++ [Fr P m1 m2]) (T L []))
    as Heq by (by rewrite plug_app).
  rewrite Heq in *.
  pose proof (repr_plug _ _ _ _ _ _ Hr) as (l & Hl & Hkids & Hup & _)%repr_inv.
  exists L, l. split_and!.
  - rewrite addrs_plug. apply elem_of_app. right. left.
  - done.
  - by apply isLeaf_true.
  - unfold isRoot. apply bool_decide_eq_false. rewrite Hup.
    unfold hole_par. by rewrite last_snoc.
Qed.

Lemma sslays_acc sh :
  Acc red sh → ∀ s t, wf s t → erase t = sh → slays s.
Proof.
  induction 1 as [sh _ IH]. intros s t Hwf <-.
  destruct (decide (tr_kids t = [])) as [Hk|Hk].
  - apply slays_now. destruct Hwf as (Hh & Hr & _).
    destruct (repr_root _ _ _ _ _ Hr) as (r & Hrt & Hkids & _).
    exists (tr_root t), r. split_and!; [done|done|]. by rewrite Hkids, Hk.
  - apply slays_cut.
    + destruct (sleaf_exists s t Hwf Hk) as (L & l & HL & Hl & Hleaf & Hroot).
      destruct (cutLeaf_decreases (height t) s t L l Hwf HL Hl Hleaf Hroot)
        as (s' & _ & Hcut & _); [done|].
      exists s'. by econstructor.
    + intros s' [t0 L l fuel Hwf0 HL Hl Hleaf Hroot Hfuel Hcut].
      assert (t0 = t) as ->.
      { destruct Hwf as (Hh & Hr & _), Hwf0 as (Hh0 & Hr0 & _).
        eapply (repr_unique children parent); [exact Hr0|exact Hr|congruence]. }
      destruct (cutLeaf_decreases fuel s t L l Hwf HL Hl Hleaf Hroot Hfuel)
        as (s'' & t' & Hcut' & Hwf' & Hred).
      assert (s'' = s') as -> by congruence.
      by eapply IH.
Qed.

(** *** Sizes *)

Lemma foldl_add_sum (l : list nat) : ∀ a, foldl Nat.add a l = a + sum_list l.
Proof. induction l as [|x l IH]; intros a; csimpl; [lia|]. rewrite IH. lia. Qed.

Lemma leaves_inner a cs : cs ≠ [] → leaves (T a cs) = sum_list (leaves <$> cs).
Proof. intros H. cbn [leaves]. rewrite bool_decide_eq_false_2; [done|by destruct cs]. Qed.

Lemma sized_inv cache a cs :
  sized cache (T a cs) →
  cache !! a = Some (leaves (T a cs)) ∧ Forall (sized cache) cs.
Proof. inversion 1; subst. eauto. Qed.

Lemma sized_root cache t : sized cache t → cache !! tr_root t = Some (leaves t).
Proof. destruct t. by intros [? _]%sized_inv. Qed.

Lemma sized_frame (cache cache' : gmap nat nat) t :
  sized cache t → (∀ b, b ∈ addrs t → cache' !! b = cache !! b) → sized cache' t.
Proof.
  induction t as [a cs IH] using tree_ind'. intros [Ha Hcs]%sized_inv Hf.
  constructor; [rewrite Hf; [done|left]|].
  rewrite Forall_forall in *. intros c Hc. apply IH; [done|by apply Hcs|].
  intros b Hb. apply Hf. by eapply addrs_child.
Qed.

(** [size] of [computeLayout] returns the number of leaves, and leaves it
    in the cache for every node it went through. *)
Lemma size_rec_leaves t : ∀ fuel s par (cache : gmap nat nat),
  repr (heap s) par t → NoDup (addrs t) →
  (∀ b, b ∈ addrs t → cache !! b = None) → height t ≤ fuel →
  ∃ cache', size_rec fuel s (tr_root t) cache = Done (leaves t, cache') ∧
    (∀ b, b ∉ addrs t → cache' !! b = cache !! b) ∧
    sized cache' t.
Proof.
  induction t as [a cs IH] using tree_ind'. intros fuel s par cache Hr Hnd Hfresh Hfuel.
  destruct fuel as [|fuel]; [pose proof (height_pos (T a cs)); lia|].
  pose proof Hr as (n & Hn & Hkids & Hup & Hcs)%repr_inv.
  cbn [size_rec tr_root]. rewrite (Hfresh a) by left.
  rewrite (sget_Done _ _ _ Hn). cbn [mbind outcome_bind]. rewrite Hkids, length_fmap.
  rewrite Forall_forall in IH, Hcs.
  pose proof (NoDup_addrs_root _ _ Hnd) as Ha.
  assert (∃ cache1,
    (if bool_decide (length cs ≠ 0) then
       '(vals, sizeCache) ← forEach (λ c '(vals, sizeCache),
              '(v, sizeCache) ← size_rec fuel s c sizeCache;
              Done (vals ++ [v], sizeCache))
            (tr_root <$> cs) ([], cache);
       Done (foldl Nat.add 0 vals, sizeCache)
     else Done (1, cache)) = Done (leaves (T a cs), cache1) ∧
    (∀ b, b ∉ mjoin (addrs <$> cs) → cache1 !! b = cache !! b) ∧
    Forall (sized cache1) cs)
    as (cache1 & -> & Hfr1 & Hs1).
  { case_bool_decide as Hlen.
    - loop (λ pre (st : list nat * gmap nat nat),
        st.1 = leaves <$> pre ∧
        (∀ b, b ∉ mjoin (addrs <$> pre) → st.2 !! b = cache !! b) ∧
        Forall (sized st.2) pre).
      + split_and!; [done|done|constructor].
      + intros pre c post [vals cache1] -> (Hvals & Hfr1 & Hs1). cbn [fst snd] in *.
        assert (c ∈ pre ++ c :: post) as Hc by (apply elem_of_app; right; left).
        destruct (NoDup_addrs_inv _ _ _ _ Hnd) as (Hndc & Hac & Hdpre & Hdpost).
        destruct (IH c Hc fuel s (Some a) cache1) as (cache2 & -> & Hfr2 & Hs2).
        { by apply Hcs. }
        { done. }
        { intros b Hb. rewrite Hfr1 by (by apply Hdpre).
          apply Hfresh. by eapply addrs_child. }
        { pose proof (height_child a _ c Hc). lia. }
        cbn [mbind outcome_bind]. eexists. split; [done|]. cbn [fst snd].
        split_and!.
        * by rewrite Hvals, fmap_app.
        * intros b Hb. rewrite join_fmap_snoc in Hb.
          rewrite Hfr2, Hfr1; [done|..]; intros ?; apply Hb, elem_of_app; auto.
        * rewrite Forall_app, Forall_singleton. split; [|done].
          rewrite Forall_forall in *. intros d Hd.
          eapply sized_frame; [by apply Hs1|]. intros b Hb. apply Hfr2.
          intros Hbc. apply (Hdpre b Hbc). apply list_elem_of_join.
          exists (addrs d). split; [done|]. apply list_elem_of_fmap. eauto.
      + intros [vals cache1] (Hvals & Hfr1 & Hs1). cbn [mbind outcome_bind fst snd] in *.
        exists cache1. split_and!; [|done|done].
        rewrite Hvals, foldl_add_sum, leaves_inner; [done|by destruct cs].
    - exists cache. destruct cs; [|done]. split_and!; [done|done|constructor]. }
  cbn [mbind outcome_bind]. eexists. split; [done|]. split.
  - intros b Hb. csimpl in Hb. apply not_elem_of_cons in Hb as [? ?].
    rewrite lookup_insert_ne by done. by apply Hfr1.
  - constructor; [by rewrite lookup_insert_eq|].
    rewrite Forall_forall in *. intros d Hd.
    eapply sized_frame; [by apply Hs1|]. intros b Hb.
    apply lookup_insert_ne. intros ->. apply Ha. apply list_elem_of_join.
    exists (addrs d). split; [done|]. apply list_elem_of_fmap. eauto.
Qed.

Lemma subtreeSize_spec t : ∀ fuel s par,
  repr (heap s) par t → height t ≤ fuel →
  subtreeSize fuel s (tr_root t) = Done (leaves t).
Proof.
  induction t as [a cs IH] using tree_ind'. intros fuel s par Hr Hfuel.
  destruct fuel as [|fuel]; [pose proof (height_pos (T a cs)); lia|].
  pose proof Hr as (n & Hn & Hkids & Hup & Hcs)%repr_inv.
  cbn [subtreeSize tr_root]. rewrite (sget_Done _ _ _ Hn). cbn [mbind outcome_bind].
  rewrite Hkids, length_fmap. cbn [leaves].
  case_bool_decide as Hlen; [done|].
  rewrite Forall_forall in IH, Hcs.
  edestruct (forEach_trees
    (λ c sum, v ← subtreeSize fuel s c; Done (sum + v))
    (λ pre sum, sum = sum_list (leaves <$> pre)) cs 0) as (sum & -> & ->); [done| |done].
  intros pre c post sum -> ->.
  assert (c ∈ pre ++ c :: post) as Hc by (apply elem_of_app; right; left).
  rewrite (IH c Hc fuel s (Some a)); [|by apply Hcs|].
  - cbn [mbind outcome_bind]. eexists. split; [done|].
    rewrite fmap_app, sum_list_with_app. csimpl. lia.
  - pose proof (height_child a _ c Hc). lia.
Qed.

(** *** The layout *)

Lemma laid_inv W coords xl xr d a cs :
  laid W coords xl xr d (T a cs) →
  coords !! a = Some (((xl + xr) / 2)%Q, (40 + num d * LEVEL_GAP)%Q) ∧
  ∀ pre c post, cs = pre ++ c :: post →
    laid W coords (sedge W (leaves (T a cs)) xl pre)
      (sedge W (leaves (T a cs)) xl pre + share W (leaves c) (leaves (T a cs)))%Q
      (S d) c.
Proof. inversion 1; subst. eauto. Qed.

Lemma laid_frame W (coords coords' : gmap nat (Q * Q)) t : ∀ xl xr d,
  laid W coords xl xr d t → (∀ b, b ∈ addrs t → coords' !! b = coords !! b) →
  laid W coords' xl xr d t.
Proof.
  induction t as [a cs IH] using tree_ind'. intros xl xr d [Ha Hcs]%laid_inv Hf.
  constructor; [rewrite Hf; [done|left]|].
  intros pre c post ->. rewrite Forall_forall in IH.
  assert (c ∈ pre ++ c :: post) as Hc by (apply elem_of_app; right; left).
  apply IH; [done|exact (Hcs pre c post eq_refl)|].
  intros b Hb. apply Hf. by eapply addrs_child.
Qed.

(** [place] returns on a tree whose sizes are cached, and sets the point
    of every node of the tree and of no other. *)
Lemma place_laid t : ∀ fuel s W (cache : gmap nat nat) par xl xr d coords,
  repr (heap s) par t → NoDup (addrs t) → sized cache t → height t ≤ fuel →
  ∃ coords', place fuel s W cache (tr_root t) xl xr d coords = Done coords' ∧
    (∀ b, b ∉ addrs t → coords' !! b = coords !! b) ∧
    laid W coords' xl xr d t.
Proof.
  induction t as [a cs IH] using tree_ind'.
  intros fuel s W cache par xl xr d coords Hr Hnd Hsz Hfuel.
  destruct fuel as [|fuel]; [pose proof (height_pos (T a cs)); lia|].
  pose proof Hr as (n & Hn & Hkids & Hup & Hcs)%repr_inv.
  pose proof Hsz as [Hca Hszcs]%sized_inv.
  pose proof (NoDup_addrs_root _ _ Hnd) as Ha.
  cbn [place tr_root]. rewrite (sget_Done _ _ _ Hn). cbn [mbind outcome_bind].
  set (coords0 := <[a:=(((xl + xr) / 2)%Q, (40 + num d * LEVEL_GAP)%Q)]> coords).
  rewrite Hkids, length_fmap.
  case_bool_decide as Hlen.
  { destruct cs; [|done]. exists coords0. split_and!; [done| |].
    - intros b Hb. csimpl in Hb. apply not_elem_of_cons in Hb as [? _].
      by apply lookup_insert_ne.
    - constructor; [by apply lookup_insert_eq|]. intros pre c post H. by destruct pre. }
  rewrite Forall_forall in IH, Hcs, Hszcs.
  loop (λ (pre : list tree) (total : nat), total = sum_list (leaves <$> pre)); [done| |].
  { intros pre c post total -> ->.
    assert (c ∈ pre ++ c :: post) as Hc by (apply elem_of_app; right; left).
    rewrite (sized_root _ _ (Hszcs c Hc)). cbn [deref mbind outcome_bind].
    eexists. split; [done|]. rewrite fmap_app, sum_list_with_app. csimpl. lia. }
  intros total ->. cbn [mbind outcome_bind].
  rewrite <- (leaves_inner a cs) by (by destruct cs).
  set (total := leaves (T a cs)).
  loop (λ (pre : list tree) (st : Q * gmap nat (Q * Q)),
    st.1 = sedge W total xl pre ∧
    (∀ b, b ∉ mjoin (addrs <$> pre) → st.2 !! b = coords0 !! b) ∧
    (∀ p1 c p2, pre = p1 ++ c :: p2 →
       laid W st.2 (sedge W total xl p1)
         (sedge W total xl p1 + share W (leaves c) total)%Q (S d) c)).
  - split_and!; [done|done|]. intros p1 c p2 H. by destruct p1.
  - intros pre c post [cur coords1] -> (Hcur & Hfr1 & Hl1). cbn [fst snd] in *.
    assert (c ∈ pre ++ c :: post) as Hc by (apply elem_of_app; right; left).
    destruct (NoDup_addrs_inv _ _ _ _ Hnd) as (Hndc & Hac & Hdpre & Hdpost).
    rewrite (sized_root _ _ (Hszcs c Hc)). cbn [deref mbind outcome_bind].
    destruct (IH c Hc fuel s W cache (Some a) cur
                (cur + num (leaves c) / num total * (W - 120))%Q (d + 1) coords1)
      as (coords2 & -> & Hfr2 & Hl2).
    { by apply Hcs. }
    { done. }
    { by apply Hszcs. }
    { pose proof (height_child a _ c Hc). lia. }
    cbn [mbind outcome_bind]. eexists. split; [done|]. cbn [fst snd]. split_and!.
    + unfold sedge. rewrite foldl_app. cbn [foldl]. by rewrite Hcur.
    + intros b Hb. rewrite join_fmap_snoc in Hb.
      rewrite Hfr2, Hfr1; [done|..]; intros ?; apply Hb, elem_of_app; auto.
    + intros p1 c' p2 [(-> & -> & ->)|(p2' & -> & ->)]%IndexFacts.snoc_split.
      * rewrite <- Hcur. replace (S d) with (d + 1) by lia. exact Hl2.
      * eapply laid_frame; [exact (Hl1 p1 c' p2' eq_refl)|]. intros b Hb. apply Hfr2.
        intros Hbc. apply (Hdpre b Hbc). rewrite fmap_app, join_app.
        apply elem_of_app. right. csimpl. apply elem_of_app. by left.
  - intros [cur coords1] (Hcur & Hfr1 & Hl1). cbn [mbind outcome_bind fst snd] in *.
    exists coords1. split_and!; [done| |].
    + intros b Hb. csimpl in Hb. apply not_elem_of_cons in Hb as [? ?].
      rewrite Hfr1 by done. by apply lookup_insert_ne.
    + constructor.
      * rewrite Hfr1 by done. by apply lookup_insert_eq.
      * intros pre c post Heq. by eapply Hl1.
Qed.

Lemma computeLayout_spec fuel s t :
  repr (heap s) None t → NoDup (addrs t) → height t ≤ fuel →
  ∃ coords, computeLayout fuel (tr_root t) s = Done coords ∧
    (∀ b, b ∉ addrs t → coords !! b = None) ∧
    laid (WIDTH s) coords 60 (WIDTH s - 60) 0 t.
Proof.
  intros Hr Hnd Hfuel. unfold computeLayout.
  destruct (size_rec_leaves t fuel s None ∅ Hr Hnd) as (cache & -> & _ & Hsz);
    [done|done|].
  cbn [mbind outcome_bind].
  destruct (place_laid t fuel s (WIDTH s) cache None 60%Q (WIDTH s - 60)%Q 0 ∅
              Hr Hnd Hsz Hfuel) as (coords & -> & Hfr & Hl).
  exists coords. split_and!; [done| |done].
  intros b Hb. by rewrite Hfr.
Qed.

Lemma laid_level W coords t : ∀ xl xr d k a,
  laid W coords xl xr d t → a ∈ level k t →
  ∃ px, coords !! a = Some (px, (40 + num (d + k) * LEVEL_GAP)%Q).
Proof.
  induction t as [b cs IH] using tree_ind'. intros xl xr d k a [Hb Hcs]%laid_inv Ha.
  destruct k as [|k]; csimpl in Ha.
  - apply list_elem_of_singleton in Ha as ->. rewrite Nat.add_0_r. eauto.
  - apply list_elem_of_join in Ha as (l & Hal & Hl).
    apply list_elem_of_fmap in Hl as (c & -> & Hc).
    pose proof Hc as (pre & post & ->)%list_elem_of_split.
    rewrite Forall_forall in IH.
    destruct (IH c Hc _ _ _ k a (Hcs pre c post eq_refl) Hal) as (px & Hpx).
    exists px. by replace (d + S k) with (S d + k) by lia.
Qed.




(** *** Generators *)

Lemma tr_root_chain_down k n : tr_root (chain_down k n) = k.
Proof. by destruct n. Qed.

Lemma addrs_chain_down n : ∀ k, addrs (chain_down k n) = seq k (S n).
Proof.
  induction n as [|n IH]; intros k; [done|].
  change (addrs (chain_down k (S n))) with (k :: (addrs (chain_down (S k) n) ++ [])).
  by rewrite app_nil_r, IH.
Qed.

Lemma height_chain_down n : ∀ k, height (chain_down k n) = S n.
Proof.
  induction n as [|n IH]; intros k; [done|].
  change (height (chain_down k (S n))) with (S (height (chain_down (S k) n) `max` 0)).
  rewrite IH. lia.
Qed.

(** One round of the loop of [lineHydra]: the new object [o] goes below
    the last node of the chain. *)
Lemma chain_down_extend (h : list Node) o : ∀ n k par,
  repr h par (chain_down k n) → length h = k + S n → children o = [] →
  repr (alter (push_child (length h)) (k + n)
          (alter (set_parent (Some (k + n))) (length h) (h ++ [o])))
       par (chain_down k (S n)).
Proof.
  induction n as [|n IH]; intros k par Hr Hlen Ho.
  - cbn [chain_down] in *. apply repr_inv in Hr as (nk & Hnk & Hkids & Hup & _).
    rewrite Nat.add_0_r. econstructor.
    + rewrite list_lookup_alter_eq, list_lookup_alter_ne by lia.
      by rewrite lookup_app_l, Hnk by lia.
    + cbn [children push_child set_children fmap list_fmap tr_root].
      rewrite Hkids, Hlen. cbn. f_equal. lia.
    + done.
    + apply Forall_singleton. replace (S k) with (length h) by lia.
      apply (repr_T _ _ _ _ _ _ (set_parent (Some k) o)); [|done|done|constructor].
      rewrite list_lookup_alter_ne, list_lookup_alter_eq by lia.
      by rewrite lookup_app_r, Nat.sub_diag by lia.
  - change (chain_down k (S n)) with (T k [chain_down (S k) n]) in Hr.
    change (chain_down k (S (S n))) with (T k [chain_down (S k) (S n)]).
    apply repr_inv in Hr as (nk & Hnk & Hkids & Hup & Hc).
    rewrite Forall_singleton in Hc.
    econstructor.
    + rewrite !list_lookup_alter_ne by lia. by rewrite lookup_app_l, Hnk by lia.
    + rewrite Hkids. cbn [fmap list_fmap]. by rewrite !tr_root_chain_down.
    + done.
    + apply Forall_singleton.
      replace (k + S n) with (S k + n) by lia. apply IH; [done|lia|done].
Qed.

Lemma line_iter n : ∀ s0 k0,
  length (heap s0) = S k0 → repr (heap s0) None (T k0 []) →
  ∃ s1,
    Nat.iter n (λ '(cur, s),
      let '(child, s) := makeNode [] s in
      let s := update child (set_parent (Some cur)) s in
      let s := update cur (push_child child) s in
      (child, s)) (k0, s0) = (k0 + n, s1) ∧
    length (heap s1) = k0 + S n ∧
    repr (heap s1) None (chain_down k0 n) ∧
    (∀ a, a < k0 → heap s1 !! a = heap s0 !! a) ∧
    same_vars (set_nextId (nextId s0 + n) s0) s1.
Proof.
  induction n as [|n IH]; intros s0 k0 Hlen Hr.
  - exists s0. rewrite !Nat.add_0_r. cbn [Nat.iter]. split_and!; try done. lia.
  - destruct (IH s0 k0 Hlen Hr) as (s1 & Hrun & Hlen1 & Hr1 & Hfr1 & Hv1).
    rewrite Nat.iter_succ, Hrun. unfold makeNode, new_object, newId. cbn [foldl].
    eexists. split; [f_equal; cbn [heap set_nextId]; lia|].
    unfold update. cbn [heap set_heap set_nextId]. rewrite !length_alter.
    split_and!.
    + rewrite length_app. cbn [length]. lia.
    + apply (chain_down_extend (heap s1) _ n k0 None); [done|lia|done].
    + intros a Ha. rewrite !list_lookup_alter_ne by lia.
      rewrite lookup_app_l by lia. by apply Hfr1.
    + destruct Hv1 as (? & ? & ? & Hid & ?). unfold same_vars in *.
      cbn in *. split_and!; try done. lia.
Qed.

Lemma lineHydra_spec fuel n s :
  S n ≤ fuel →
  ∃ s', lineHydra fuel n s = Done (length (heap s), s') ∧
    repr (heap s') None (chain_down (length (heap s)) n) ∧
    depths_ok (heap s') 0 (chain_down (length (heap s)) n) ∧
    length (heap s') = length (heap s) + S n ∧
    (∀ a, a < length (heap s) → heap s' !! a = heap s !! a) ∧
    same_vars (set_nextId (nextId s + S n) s) s'.
Proof.
  intros Hfuel. set (k0 := length (heap s)).
  set (s0 := set_heap (heap s ++ [mkNode (nextId s) [] None 0])
               (set_nextId (S (nextId s)) s)).
  assert (makeNode [] s = (k0, s0)) as Hmk by reflexivity.
  unfold lineHydra. rewrite Hmk.
  destruct (line_iter n s0 k0) as (s1 & Hrun & Hlen1 & Hr1 & Hfr1 & Hv1).
  { unfold s0. cbn [heap set_heap set_nextId]. rewrite length_app. cbn [length].
    fold k0. lia. }
  { apply (repr_T _ _ _ _ _ _ (mkNode (nextId s) [] None 0)); [|done|done|constructor].
    unfold s0. cbn [heap set_heap set_nextId]. by rewrite lookup_app_r, Nat.sub_diag. }
  cbv zeta in Hrun. rewrite Hrun.
  destruct (assignDepths_spec (chain_down k0 n) fuel s1 None 0 Hr1) as
    (s2 & Hrun2 & Hl2 & Hv2 & Hfr2 & Hok).
  { rewrite addrs_chain_down. apply NoDup_seq. }
  { rewrite height_chain_down. lia. }
  rewrite tr_root_chain_down in Hrun2. rewrite Hrun2. cbn [mbind outcome_bind].
  exists s2. split_and!; [done| |done| | |].
  - by eapply repr_links.
  - rewrite <- (Forall2_length _ _ _ Hl2). lia.
  - intros a Ha. rewrite Hfr2.
    + rewrite Hfr1 by done. unfold s0. cbn [heap set_heap set_nextId].
      by apply lookup_app_l.
    + rewrite addrs_chain_down. intros Hin%elem_of_seq. lia.
  - eapply same_vars_trans; [|exact Hv2]. eapply same_vars_trans; [|exact Hv1].
    unfold same_vars, s0. cbn. split_and!; try done; lia.
Qed.

(** [for (const c of children) c.parent = node] in [makeNode]. *)
Lemma foldl_reparent_lookup (node : addr) (l : list addr) : ∀ s a,
  heap (foldl (λ s c, update c (set_parent (Some node)) s) s l) !! a =
  if bool_decide (a ∈ l) then set_parent (Some node) <$> heap s !! a
  else heap s !! a.
Proof.
  induction l as [|c l IH]; intros s a; cbn [foldl]; [done|].
  rewrite IH. destruct (decide (a = c)) as [->|Hne].
  - rewrite (bool_decide_eq_true_2 (c ∈ c :: l)) by left.
    change (heap (update c (set_parent (Some node)) s) !! c)
      with (alter (set_parent (Some node)) c (heap s) !! c).
    rewrite list_lookup_alter_eq. case_bool_decide; [|done].
    by destruct (heap s !! c).
  - rewrite supdate_ne by done.
    destruct (decide (a ∈ l)) as [Hin|Hin].
    + rewrite !bool_decide_eq_true_2; [done|by right|done].
    + rewrite !bool_decide_eq_false_2; [done| |done].
      by intros [?|?]%elem_of_cons.
Qed.

Lemma foldl_reparent_vars (node : addr) (l : list addr) : ∀ s,
  length (heap (foldl (λ s c, update c (set_parent (Some node)) s) s l))
    = length (heap s) ∧
  same_vars s (foldl (λ s c, update c (set_parent (Some node)) s) s l).
Proof.
  induction l as [|c l IH]; intros s; cbn [foldl]; [by split|].
  destruct (IH (update c (set_parent (Some node)) s)) as [Hlen Hv].
  rewrite slength_update in Hlen. split; [done|].
  eapply same_vars_trans; [|exact Hv]. done.
Qed.

Lemma NoDup_join_unique (ts : list tree) c c' b :
  NoDup (mjoin (addrs <$> ts)) → c ∈ ts → c' ∈ ts →
  b ∈ addrs c → b ∈ addrs c' → c = c'.
Proof.
  induction ts as [|t ts IH]; [by intros _ ?%elem_of_nil|].
  rewrite fmap_cons. cbn [mjoin list_join]. intros (Ht & Hdis & Hts)%NoDup_app.
  assert (∀ d, d ∈ ts → b ∈ addrs d → b ∈ mjoin (addrs <$> ts)) as Hin.
  { intros d Hd Hb. apply list_elem_of_join. exists (addrs d). split; [done|].
    apply list_elem_of_fmap. eauto. }
  intros [->|Hc]%elem_of_cons [->|Hc']%elem_of_cons Hb Hb'; [done| | |by apply IH].
  - destruct (Hdis b Hb). by eapply Hin.
  - destruct (Hdis b Hb'). by eapply Hin.
Qed.

Lemma fmap_const_replicate {A B} (f : A → B) (x : B) (l : list A) :
  Forall (λ a, f a = x) l → f <$> l = replicate (length l) x.
Proof. induction 1 as [|a l Ha _ IH]; csimpl; [done|]. by rewrite Ha, IH. Qed.

Lemma sh_height_full b d : sh_height (full b d) ≤ S d.
Proof.
  induction d as [|d IH]; [done|]. cbn [full sh_height].
  apply le_n_S, max_list_le, Forall_forall.
  intros x (y & -> & Hy%elem_of_replicate)%list_elem_of_fmap.
  destruct Hy as [-> _]. done.
Qed.

(** [rec] of [balancedHydra] builds the full tree, children before their
    parent, at the next free addresses. *)
Lemma balanced_rec_spec b d : ∀ s,
  ∃ s' t, balanced_rec b d s = (tr_root t, s') ∧
    repr (heap s') None t ∧ erase t = full b d ∧
    addrs t ≡ₚ seq (length (heap s)) (size t) ∧
    grows s s' (size t).
Proof.
  induction d as [|d IHd]; intros s.
  { exists (set_heap (heap s ++ [mkNode (nextId s) [] None 0])
             (set_nextId (S (nextId s)) s)), (T (length (heap s)) []).
    split_and!; [done| |done|done|].
    - apply (repr_T _ _ _ _ _ _ (mkNode (nextId s) [] None 0)); [|done|done|constructor].
      cbn [heap set_heap set_nextId]. by rewrite lookup_app_r, Nat.sub_diag.
    - unfold grows, same_vars. cbn. rewrite length_app. cbn.
      split_and!; try done; try lia. intros a Ha. by apply lookup_app_l. }
  set (k0 := length (heap s)).
  set (f := λ '(kids, s) (_ : nat),
              let '(k, s) := balanced_rec b d s in (kids ++ [k], s)).
  assert (∀ (l : list nat) ts0 s1,
    Forall (λ t, repr (heap s1) None t ∧ erase t = full b d) ts0 →
    mjoin (addrs <$> ts0) ≡ₚ seq k0 (sum_list (size <$> ts0)) →
    grows s s1 (sum_list (size <$> ts0)) →
    ∃ ts s2, foldl f (tr_root <$> ts0, s1) l = (tr_root <$> ts, s2) ∧
      length ts = length ts0 + length l ∧
      Forall (λ t, repr (heap s2) None t ∧ erase t = full b d) ts ∧
      mjoin (addrs <$> ts) ≡ₚ seq k0 (sum_list (size <$> ts)) ∧
      grows s s2 (sum_list (size <$> ts))) as Hfold.
  { induction l as [|i l IHl]; intros ts0 s1 Hts Hadd Hg.
    - exists ts0, s1. cbn [foldl length]. split_and!; try done; lia.
    - cbn [foldl]. unfold f at 2.
      destruct (IHd s1) as (s1' & t & -> & Hr & He & Ha & Hg').
      rewrite <- (fmap_snoc tr_root).
      destruct (IHl (ts0 ++ [t]) s1') as (ts & s2 & Hrun & Hlen & Hts2 & Hadd2 & Hg2).
      + rewrite Forall_app, Forall_singleton. split; [|done].
        eapply Forall_impl; [exact Hts|]. intros u [Hu ?]. split; [|done].
        by eapply repr_grows.
      + rewrite join_fmap_snoc, fmap_app, sum_list_with_app. cbn.
        rewrite Nat.add_0_r, seq_app, Hadd, Ha.
        destruct Hg as (-> & _). done.
      + rewrite fmap_app, sum_list_with_app. cbn. rewrite Nat.add_0_r.
        by eapply grows_trans.
      + exists ts, s2. split_and!; try done.
        rewrite Hlen, length_app. cbn. lia. }
  destruct (Hfold (seq 0 b) [] s) as (ts & s2 & Hrun & Hlen & Hts & Hadd & Hg).
  { constructor. }
  { done. }
  { unfold grows, same_vars. cbn. rewrite !Nat.add_0_r. by destruct s. }
  rewrite length_seq in Hlen. cbn [length Nat.add] in Hlen.
  cbn [balanced_rec]. fold f. change (@nil addr) with (tr_root <$> @nil tree).
  rewrite Hrun. unfold makeNode, new_object, newId.
  set (kids := tr_root <$> ts). set (Σ := sum_list (size <$> ts)) in *.
  set (node := length (heap s2)).
  set (s3 := set_heap (heap s2 ++ [mkNode (nextId s2) kids None 0])
               (set_nextId (S (nextId s2)) s2)).
  change (heap (set_nextId (S (nextId s2)) s2)) with (heap s2). fold node. fold s3.
  set (s4 := foldl (λ s c, update c (set_parent (Some node)) s) s3 kids).
  pose proof Hg as (Hlen2 & Hfr2 & Hv2). fold k0 node in Hlen2.
  assert (NoDup (mjoin (addrs <$> ts))) as Hnd by (rewrite Hadd; apply NoDup_seq).
  assert (∀ a, a ∈ mjoin (addrs <$> ts) → k0 ≤ a < node) as Hrange.
  { intros a Ha. rewrite Hadd in Ha. apply elem_of_seq in Ha. lia. }
  assert (∀ c, c ∈ ts → tr_root c ∈ mjoin (addrs <$> ts)) as Hroots.
  { intros c Hc. apply list_elem_of_join. exists (addrs c).
    split; [apply tr_root_in|]. apply list_elem_of_fmap. eauto. }
  assert (∀ a, a ∈ kids → k0 ≤ a < node) as Hkrange.
  { intros a (c & -> & Hc)%list_elem_of_fmap. by apply Hrange, Hroots. }
  destruct (foldl_reparent_vars node kids s3) as [Hlen4 Hv4]. fold s4 in Hlen4, Hv4.
  exists s4, (T node ts). split_and!.
  - done.
  - apply (repr_T _ _ _ _ _ _ (mkNode (nextId s2) kids None 0)); [|done|done|].
    + unfold s4. rewrite foldl_reparent_lookup, bool_decide_eq_false_2.
      * unfold s3. cbn [heap set_heap set_nextId].
        by rewrite lookup_app_r, Nat.sub_diag.
      * intros Hin%Hkrange. lia.
    + rewrite Forall_forall in Hts |- *. intros [a cs] Hc.
      destruct (Hts _ Hc) as [(n & Hn & Hk & Hup & Hcs)%repr_inv _].
      assert (a ∈ kids) as Hak.
      { apply list_elem_of_fmap. exists (T a cs). split; done. }
      apply (repr_T _ _ _ _ _ _ (set_parent (Some node) n)); [|done|done|].
      * unfold s4. rewrite foldl_reparent_lookup, bool_decide_eq_true_2 by done.
        unfold s3. cbn [heap set_heap set_nextId].
        rewrite lookup_app_l by (by eapply lookup_lt_Some). by rewrite Hn.
      * rewrite Forall_forall in Hcs |- *. intros u Hu.
        eapply repr_local; [by apply Hcs|]. intros e He. apply keeps_eq.
        unfold s4. rewrite foldl_reparent_lookup, bool_decide_eq_false_2.
        -- unfold s3. cbn [heap set_heap set_nextId]. apply lookup_app_l.
           eapply repr_lt; [by apply Hcs|done].
        -- intros (c' & Heq & Hc')%list_elem_of_fmap.
           assert (e ∈ addrs (T a cs)) as HeT by (by eapply addrs_child).
           assert (T a cs = c') as <-.
           { eapply NoDup_join_unique; [exact Hnd|done|done|done|].
             rewrite Heq. apply tr_root_in. }
           cbn [tr_root] in Heq. subst e.
           assert (NoDup (addrs (T a cs))) as Hnda.
           { revert Hnd. clear -Hc. intros Hnd.
             apply list_elem_of_split in Hc as (l1 & l2 & ->).
             rewrite fmap_app, join_app, fmap_cons in Hnd. cbn [mjoin list_join] in Hnd.
             apply NoDup_app in Hnd as (_ & _ & Hnd).
             by apply NoDup_app in Hnd as (? & _). }
           apply (NoDup_addrs_root _ _ Hnda). apply list_elem_of_join.
           exists (addrs u). split; [done|]. apply list_elem_of_fmap. eauto.
  - cbn [erase full]. f_equal. rewrite <- Hlen at 1.
    apply fmap_const_replicate. eapply Forall_impl; [exact Hts|]. by intros u [_ ?].
  - cbn [addrs size]. fold Σ. rewrite Hadd. fold k0.
    rewrite (seq_S Σ), <- Permutation_cons_append. by rewrite Hlen2.
  - unfold grows. cbn [size]. fold Σ. split_and!.
    + rewrite Hlen4. unfold s3. cbn [heap set_heap set_nextId].
      rewrite length_app. cbn [length]. fold node k0. lia.
    + intros a Ha. unfold s4. rewrite foldl_reparent_lookup, bool_decide_eq_false_2.
      * unfold s3. cbn [heap set_heap set_nextId].
        rewrite lookup_app_l by (fold node; fold k0 in Ha; lia). by apply Hfr2.
      * intros Hin%Hkrange. fold k0 in Ha. lia.
    + eapply same_vars_trans; [|exact Hv4].
      destruct Hv2 as (? & ? & ? & Hid & ?). unfold same_vars, s3 in *. cbn in *.
      split_and!; try done. lia.
Qed.

Lemma balancedHydra_spec fuel d b s :
  S d ≤ fuel →
  ∃ s' t, balancedHydra fuel d b s = Done (tr_root t, s') ∧
    repr (heap s') None t ∧ NoDup (addrs t) ∧ depths_ok (heap s') 0 t ∧
    erase t = full b d ∧
    addrs t ≡ₚ seq (length (heap s)) (size t) ∧
    length (heap s') = length (heap s) + size t ∧
    (∀ a, a < length (heap s) → heap s' !! a = heap s !! a) ∧
    same_vars (set_nextId (nextId s + size t) s) s'.
Proof.
  intros Hfuel. unfold balancedHydra.
  destruct (balanced_rec_spec b d s) as (s1 & t & -> & Hr & He & Ha & Hlen & Hfr & Hv).
  assert (NoDup (addrs t)) as Hnd by (rewrite Ha; apply NoDup_seq).
  destruct (assignDepths_spec t fuel s1 None 0 Hr Hnd) as
    (s2 & -> & Hl2 & Hv2 & Hfr2 & Hok).
  { rewrite <- erase_height, He. pose proof (sh_height_full b d). lia. }
  cbn [mbind outcome_bind]. exists s2, t. split_and!; try done.
  - by eapply repr_links.
  - by rewrite <- (Forall2_length _ _ _ Hl2).
  - intros a Hlt. rewrite Hfr2; [by apply Hfr|].
    rewrite Ha. intros Hin%elem_of_seq. lia.
  - by eapply same_vars_trans.
Qed.

Lemma setHydra_spec fuel s t :
  repr (heap s) None t → NoDup (addrs t) → height t ≤ fuel →
  ∃ s', setHydra fuel (tr_root t) s = Done s' ∧
        wf s' t ∧ moveCount s' = 0 ∧ depthCounters s' = ∅ ∧
        nextId s' = nextId s ∧ Forall2 links (heap s) (heap s').
Proof.
  intros Hr Hnd Hfuel. unfold setHydra.
  destruct (assignDepths_spec t fuel (set_hydra (Some (tr_root t)) s) None 0 Hr Hnd Hfuel)
    as (s1 & -> & Hl1 & Hv1 & _ & _).
  cbn [mbind outcome_bind].
  destruct Hv1 as (Hh1 & _ & _ & Hid1 & _). cbn in Hh1, Hid1.
  destruct (render_spec fuel (resetCounters (set_moveCount 0 s1)) t) as
    (s2 & -> & Hl2 & Hv2 & Hok); [done|by eapply repr_links|done|done|].
  destruct Hv2 as (Hh2 & Hm2 & Hd2 & Hid2 & _). cbn in Hh2, Hm2, Hd2, Hid2.
  exists s2. split_and!; try done.
  - split_and!; [congruence| |done|done].
    eapply repr_links; [exact Hl2|]. by eapply repr_links.
  - congruence.
  - by etrans.
Qed.



Section random.
Context (rnd : nat → Q) (maxDepth : nat) (maxBranch leafBias : Q) (b : nat).
Hypothesis branch_le : ∀ j, Z.to_nat (1 + Qfloor (rnd j * maxBranch)%Q) ≤ b.



End random.


Lemma depths_ok_level h t : ∀ d k a,
  depths_ok h d t → a ∈ level k t → ∃ n, h !! a = Some n ∧ depth n = d + k.
Proof.
  induction t as [b cs IH] using tree_ind'.
  intros d k a (n & Hn & Hd & Hcs)%depths_ok_inv Ha.
  destruct k as [|k]; csimpl in Ha.
  - apply list_elem_of_singleton in Ha as ->. exists n. split; [done|lia].
  - apply list_elem_of_join in Ha as (l & Hal & Hl).
    apply list_elem_of_fmap in Hl as (c & -> & Hc).
    rewrite Forall_forall in IH, Hcs.
    destruct (IH c Hc (S d) k a (Hcs c Hc) Hal) as (m & Hm & Hdm).
    exists m. split; [done|lia].
Qed.


End ScriptFacts.

(** * The claims *)

(** ** The hydras at the start of a game are what the generators build *)

Lemma chain3_boot : Index.initHydra 4 3 Index.init = Done chain3.
Proof. vm_compute. reflexivity. Qed.

Lemma chain1_boot : Index.initHydra 2 1 Index.init = Done chain1.
Proof. vm_compute. reflexivity. Qed.

Lemma simple_boot : Script.btnSimple 4 (Script.init 0) = Done simple.
Proof. vm_compute. reflexivity. Qed.

Lemma twig_boot :
  ('(r, s) ← Script.balancedHydra 2 1 2 (Script.init 0); Script.setHydra 2 r s)
  = Done twig.
Proof. vm_compute. reflexivity. Qed.

(** A store literal holds a tree literal. *)
Ltac holds_tree :=
  repeat first
    [ apply Forall_nil_2
    | apply Forall_cons_2
    | eapply repr_T; [reflexivity|reflexivity|reflexivity|]
    | eapply Script.depths_ok_T; [reflexivity|reflexivity|] ].

Ltac decided := apply (bool_decide_unpack _); vm_compute; exact I.

Lemma chain3_wf : Index.wf chain3 chain3_tree.
Proof. split_and!; [reflexivity|holds_tree|decided]. Qed.

Lemma chain1_wf : Index.wf chain1 chain1_tree.
Proof. split_and!; [reflexivity|holds_tree|decided]. Qed.

Lemma simple_wf : Script.wf simple simple_tree.
Proof. split_and!; [reflexivity|holds_tree|decided|holds_tree]. Qed.

Lemma twig_wf : Script.wf twig twig_tree.
Proof. split_and!; [reflexivity|holds_tree|decided|holds_tree]. Qed.

(** ** Cuts *)

(** C6: for every tree and every leaf whose parent is the root, the cut
    ([chop] of [index.js], [cutLeaf] of [script.js]) returns, takes exactly
    that leaf out of the root's children, adds one to the move counter,
    allocates no object and leaves the links of every other object as they
    were; the depth counters of [script.js] are not touched. *)
Theorem C6_cut_below_root :
  (∀ fuel s t L l,
     Index.wf s t → L ∈ addrs t → Index.isLeaf L s = true →
     Index.heap s !! L = Some l → Index.parent l = Some Index.root →
     height t ≤ fuel →
     ∃ s', Index.chop fuel L s = Done s' ∧
           cut_off Index.children Index.parent (Index.heap s) (Index.heap s')
             L Index.root ∧
           Index.step s' = S (Index.step s)) ∧
  (∀ fuel s t L l R r,
     Script.wf s t → L ∈ addrs t →
     Script.heap s !! L = Some l → Script.isLeaf l = true →
     Script.parent l = Some R →
     Script.heap s !! R = Some r → Script.isRoot r = true →
     height t ≤ fuel →
     ∃ s', Script.cutLeaf fuel L s = Done s' ∧
           cut_off Script.children Script.parent (Script.heap s) (Script.heap s')
             L R ∧
           Script.moveCount s' = S (Script.moveCount s) ∧
           Script.depthCounters s' = Script.depthCounters s).
Proof.
  split.
  - intros fuel s t L l Hwf HL Hleaf Hl Hup Hfuel.
    destruct (IndexFacts.chop_below_root fuel s t L l Hwf HL Hleaf Hl Hup Hfuel)
      as (s' & ? & ? & ? & _). eauto.
  - intros fuel s t L l R r Hwf HL Hl Hleaf Hup HR Hroot Hfuel.
    exact (ScriptFacts.cutLeaf_below_root fuel s t L l R r Hwf HL Hl Hleaf Hup HR
             Hroot Hfuel).
Qed.

Lemma C6_witness :
  (Index.wf chain1 chain1_tree ∧ 1 ∈ addrs chain1_tree ∧
   Index.isLeaf 1 chain1 = true ∧
   Index.parent <$> Index.heap chain1 !! 1 = Some (Some Index.root) ∧
   height chain1_tree ≤ 2 ∧
   ∃ s', Index.chop 2 1 chain1 = Done s' ∧
         cut_off Index.children Index.parent (Index.heap chain1) (Index.heap s')
           1 Index.root ∧
         Index.step s' = 1) ∧
  (Script.wf twig twig_tree ∧ 0 ∈ addrs twig_tree ∧
   Script.isLeaf <$> Script.heap twig !! 0 = Some true ∧
   Script.parent <$> Script.heap twig !! 0 = Some (Some 2) ∧
   Script.isRoot <$> Script.heap twig !! 2 = Some true ∧
   height twig_tree ≤ 2 ∧
   ∃ s', Script.cutLeaf 2 0 twig = Done s' ∧
         cut_off Script.children Script.parent (Script.heap twig) (Script.heap s')
           0 2 ∧
         Script.moveCount s' = 1 ∧
         Script.depthCounters s' = Script.depthCounters twig).
Proof.
  split.
  - split_and!; [exact chain1_wf|decided|reflexivity|reflexivity|
                 decided|].
    eapply (proj1 C6_cut_below_root 2 chain1 chain1_tree 1);
      [exact chain1_wf|decided|reflexivity|reflexivity|reflexivity|
       decided].
  - split_and!; [exact twig_wf|decided|reflexivity|reflexivity|reflexivity|
                 decided|].
    eapply (proj2 C6_cut_below_root 2 twig twig_tree 0);
      [exact twig_wf|decided|reflexivity|reflexivity|reflexivity|
       reflexivity|reflexivity|decided].
Defined.



(** C10: for every successful cut of a leaf [L] whose parent [P] is not the
    root, [P] loses exactly [L] from its children, the grandparent [G] gets
    [N] objects of this cut appended after its previous children, which
    stay in order with [P] among them, and every other object that existed
    before the cut keeps its children and its parent reference; so do the
    parent references of [P] and [G]. *)
Theorem C10_cut_frame :
  (∀ fuel s t L l P,
     Index.wf s t → L ∈ addrs t → Index.isLeaf L s = true →
     Index.heap s !! L = Some l → Index.parent l = Some P → P ≠ Index.root →
     height t ≤ fuel →
     ∃ s', Index.chop fuel L s = Done s' ∧
           framed Index.children Index.parent (Index.heap s) (Index.heap s')
             L P (Index.growth s')) ∧
  (∀ fuel s t L l P p,
     Script.wf s t → L ∈ addrs t →
     Script.heap s !! L = Some l → Script.isLeaf l = true →
     Script.parent l = Some P →
     Script.heap s !! P = Some p → Script.isRoot p = false →
     height t ≤ fuel →
     ∃ s', Script.cutLeaf fuel L s = Done s' ∧
           framed Script.children Script.parent (Script.heap s) (Script.heap s')
             L P (default 0 (Script.depthCounters s !! Script.depth p) + 1)).
Proof.
  split.
  - intros fuel s t L l P Hwf HL Hleaf Hl Hup HP Hfuel.
    destruct (IndexFacts.chop_below_other fuel s t L l P Hwf HL Hleaf Hl Hup HP Hfuel)
      as (s' & ? & _ & ? & _). eauto.
  - intros fuel s t L l P p Hwf HL Hl Hleaf Hup HP Hroot Hfuel.
    destruct (ScriptFacts.cutLeaf_below_other fuel s t L l P p Hwf HL Hl Hleaf Hup HP
                Hroot Hfuel) as (s' & ? & _ & ? & _). eauto.
Qed.

Lemma C10_witness :
  (Index.wf chain3 chain3_tree ∧ 1 ∈ addrs chain3_tree ∧
   Index.isLeaf 1 chain3 = true ∧
   Index.parent <$> Index.heap chain3 !! 1 = Some (Some 2) ∧
   2 ≠ Index.root ∧ height chain3_tree ≤ 4 ∧
   ∃ s', Index.chop 4 1 chain3 = Done s' ∧
         framed Index.children Index.parent (Index.heap chain3) (Index.heap s')
           1 2 (Index.growth s')) ∧
  (Script.wf simple simple_tree ∧ 0 ∈ addrs simple_tree ∧
   Script.isLeaf <$> Script.heap simple !! 0 = Some true ∧
   Script.parent <$> Script.heap simple !! 0 = Some (Some 2) ∧
   Script.isRoot <$> Script.heap simple !! 2 = Some false ∧
   height simple_tree ≤ 4 ∧
   ∃ s', Script.cutLeaf 4 0 simple = Done s' ∧
         framed Script.children Script.parent (Script.heap simple) (Script.heap s')
           0 2 1).
Proof.
  split.
  - split_and!; [exact chain3_wf|decided|reflexivity|reflexivity|decided|decided|].
    eapply (proj1 C10_cut_frame 4 chain3 chain3_tree 1);
      [exact chain3_wf|decided|reflexivity|reflexivity|reflexivity|decided|decided].
  - split_and!; [exact simple_wf|decided|reflexivity|reflexivity|reflexivity|decided|].
    eapply (proj2 C10_cut_frame 4 simple simple_tree 0);
      [exact simple_wf|decided|reflexivity|reflexivity|reflexivity|reflexivity|
       reflexivity|decided].
Defined.

(** ** Growth policies *)

(** C2: in [index.js] the turn counter [step] is 0 when the script starts
    and after every [initHydra]; every cut of a leaf returns and adds one to
    it, whether the parent of the leaf is the root or not; and when the
    parent is not the root, the number of copies appended to the
    grandparent is the counter after the increment in normal mode, and 1 in
    reduced-growth mode. *)
Theorem C2_turn_indexed_growth fuel s t L :
  Index.wf s t → L ∈ addrs t → Index.isLeaf L s = true → height t ≤ fuel →
  Index.step Index.init = 0 ∧
  (∀ fuel0 n s0 s1, Index.initHydra fuel0 n s0 = Done s1 → Index.step s1 = 0) ∧
  ∃ s' l P,
    Index.chop fuel L s = Done s' ∧
    Index.step s' = S (Index.step s) ∧
    Index.heap s !! L = Some l ∧ Index.parent l = Some P ∧
    (P ≠ Index.root →
       regrown Index.children Index.parent (Index.heap s) (Index.heap s') L P
         (if Index.reducedGrowth s then 1 else S (Index.step s))).
Proof.
  intros Hwf HL Hleaf Hfuel. split; [done|]. split; [apply IndexFacts.initHydra_step|].
  destruct (IndexFacts.leaf_parent s t L Hwf HL Hleaf) as (l & P & Hl & Hup).
  destruct (decide (P = Index.root)) as [->|HP].
  - destruct (IndexFacts.chop_below_root fuel s t L l Hwf HL Hleaf Hl Hup Hfuel)
      as (s' & Hchop & _ & Hstep & _).
    exists s', l, Index.root. by split_and!.
  - destruct (IndexFacts.chop_below_other fuel s t L l P Hwf HL Hleaf Hl Hup HP Hfuel)
      as (s' & Hchop & Hre & _ & Hstep & Hred).
    exists s', l, P. split_and!; try done. intros _.
    unfold Index.growth in Hre. by rewrite Hstep, Hred in Hre.
Qed.

Lemma C2_witness :
  Index.wf chain3 chain3_tree ∧ 1 ∈ addrs chain3_tree ∧
  Index.isLeaf 1 chain3 = true ∧ height chain3_tree ≤ 4 ∧
  Index.step Index.init = 0 ∧
  (∀ fuel0 n s0 s1, Index.initHydra fuel0 n s0 = Done s1 → Index.step s1 = 0) ∧
  ∃ s' l P,
    Index.chop 4 1 chain3 = Done s' ∧
    Index.step s' = S (Index.step chain3) ∧
    Index.heap chain3 !! 1 = Some l ∧ Index.parent l = Some P ∧
    (P ≠ Index.root →
       regrown Index.children Index.parent (Index.heap chain3) (Index.heap s') 1 P
         (if Index.reducedGrowth chain3 then 1 else S (Index.step chain3))).
Proof.
  split_and!; [exact chain3_wf|decided|reflexivity|decided|..];
    apply (C2_turn_indexed_growth 4 chain3 chain3_tree 1);
    solve [exact chain3_wf|decided|reflexivity].
Defined.

(** C3: in [script.js], a cut of a leaf whose parent [P] has a grandparent
    returns; with [d] the depth of [P] (the [depth] field, which is its
    distance from the root) and [stored] the counter kept for [d] (0 when
    there is none), [stored + 1] copies are appended to the grandparent,
    [stored + 1] is stored back for [d] and the counters of every other
    depth are as before.  So the factor is 1 at a depth without a counter
    and 2 at a depth whose counter is 1.  The counters are empty when the
    page starts, and the store after the cut holds a tree again, so that the
    next cut is covered as well. *)
Theorem C3_depth_indexed_growth fuel s t L l P p :
  Script.wf s t → L ∈ addrs t →
  Script.heap s !! L = Some l → Script.isLeaf l = true →
  Script.parent l = Some P →
  Script.heap s !! P = Some p → Script.isRoot p = false →
  height t ≤ fuel →
  let d := Script.depth p in
  let stored := default 0 (Script.depthCounters s !! d) in
  ∃ s',
    Script.cutLeaf fuel L s = Done s' ∧
    P ∈ level d t ∧
    regrown Script.children Script.parent (Script.heap s) (Script.heap s') L P
      (stored + 1) ∧
    Script.depthCounters s' !! d = Some (stored + 1) ∧
    (∀ d', d' ≠ d → Script.depthCounters s' !! d' = Script.depthCounters s !! d') ∧
    (Script.depthCounters s !! d = None → stored + 1 = 1) ∧
    (Script.depthCounters s !! d = Some 1 → stored + 1 = 2) ∧
    (∀ w, Script.depthCounters (Script.init w) = ∅) ∧
    (∃ t', Script.wf s' t').
Proof.
  intros Hwf HL Hl Hleaf Hup HP Hroot Hfuel d stored.
  destruct (ScriptFacts.cutLeaf_below_other fuel s t L l P p Hwf HL Hl Hleaf Hup HP
              Hroot Hfuel) as (s' & Hcut & Hre & _ & _ & Hdc & Hlevel & Hwf').
  exists s'. fold d stored in Hre, Hdc, Hlevel. split_and!; try done.
  - rewrite Hdc. apply lookup_insert_eq.
  - intros d' Hd'. rewrite Hdc. by apply lookup_insert_ne.
  - unfold stored. by intros ->.
  - unfold stored. by intros ->.
Qed.

Lemma C3_witness :
  Script.wf simple simple_tree ∧ 0 ∈ addrs simple_tree ∧
  Script.heap simple !! 0 = Some (Script.mkNode 1 [] (Some 2) 3) ∧
  Script.isLeaf (Script.mkNode 1 [] (Some 2) 3) = true ∧
  Script.parent (Script.mkNode 1 [] (Some 2) 3) = Some 2 ∧
  Script.heap simple !! 2 = Some (Script.mkNode 3 [0; 1] (Some 6) 2) ∧
  Script.isRoot (Script.mkNode 3 [0; 1] (Some 6) 2) = false ∧
  height simple_tree ≤ 4 ∧
  ∃ s',
    Script.cutLeaf 4 0 simple = Done s' ∧
    2 ∈ level 2 simple_tree ∧
    regrown Script.children Script.parent (Script.heap simple) (Script.heap s') 0 2 1 ∧
    Script.depthCounters s' !! 2 = Some 1 ∧
    (∀ d', d' ≠ 2 →
       Script.depthCounters s' !! d' = Script.depthCounters simple !! d') ∧
    (Script.depthCounters simple !! 2 = None → 1 = 1) ∧
    (Script.depthCounters simple !! 2 = Some 1 → 1 = 2) ∧
    (∀ w, Script.depthCounters (Script.init w) = ∅) ∧
    (∃ t', Script.wf s' t').
Proof.
  split_and!; [exact simple_wf|decided|reflexivity|reflexivity|reflexivity|
               reflexivity|reflexivity|decided|].
  apply (C3_depth_indexed_growth 4 simple simple_tree 0
           (Script.mkNode 1 [] (Some 2) 3) 2 (Script.mkNode 3 [0; 1] (Some 6) 2));
    solve [exact simple_wf|decided|reflexivity].
Defined.

(** ** Targets that are not leaves *)

(** C5, as the code has it: [cutLeaf] of [script.js] guards itself, a
    target that is not a leaf or has no parent leaves the state as it is
    and returns; [chop] of [index.js] has no guard of its own, the guard is
    in [handleClick], which on a store holding a tree either changes
    nothing or calls [chop] on a node of the tree for which [isLeaf] holds
    (childless and not the root). *)
Theorem C5_invalid_target :
  (∀ fuel L s l,
     Script.heap s !! L = Some l →
     Script.isLeaf l = false ∨ Script.parent l = None →
     Script.cutLeaf fuel L s = Done s) ∧
  (∀ fuel suppress wx wy s t,
     Index.wf s t → height t ≤ fuel →
     Index.handleClick fuel suppress wx wy s = Done s ∨
     ∃ L, L ∈ addrs t ∧ Index.isLeaf L s = true ∧
          Index.handleClick fuel suppress wx wy s = Index.chop fuel L s).
Proof.
  split.
  - intros fuel L s l Hl Hbad. unfold Script.cutLeaf.
    rewrite (ScriptFacts.sget_Done _ _ _ Hl). cbn [mbind outcome_bind].
    destruct Hbad as [->| ->]; [done|]. by destruct (negb _).
  - intros fuel suppress wx wy s t Hwf Hfuel. unfold Index.handleClick.
    destruct suppress; [by left|]. destruct Hwf as (Hroot & Hr & _).
    unfold Index.getAllNodes. rewrite <- Hroot.
    rewrite (IndexFacts.all_traverse_spec t fuel s None [] Hr Hfuel).
    cbn [mbind outcome_bind app].
    destruct (list_find _ (addrs t)) as [[i L]|] eqn:Hfind; [|by left].
    apply list_find_Some in Hfind as (Hi & [Hleaf _] & _).
    right. exists L. split_and!; [|done|done].
    apply list_elem_of_lookup. eauto.
Qed.

Lemma C5_witness :
  (Script.heap simple !! 2 = Some (Script.mkNode 3 [0; 1] (Some 6) 2) ∧
   (Script.isLeaf (Script.mkNode 3 [0; 1] (Some 6) 2) = false ∨
    Script.parent (Script.mkNode 3 [0; 1] (Some 6) 2) = None) ∧
   Script.cutLeaf 4 2 simple = Done simple) ∧
  (Index.wf chain3 chain3_tree ∧ height chain3_tree ≤ 4 ∧
   (Index.handleClick 4 false 0 0 chain3 = Done chain3 ∨
    ∃ L, L ∈ addrs chain3_tree ∧ Index.isLeaf L chain3 = true ∧
         Index.handleClick 4 false 0 0 chain3 = Index.chop 4 L chain3)).
Proof.
  split.
  - split_and!; [reflexivity|left; reflexivity|].
    apply (proj1 C5_invalid_target 4 2 simple (Script.mkNode 3 [0; 1] (Some 6) 2));
      [reflexivity|left; reflexivity].
  - split_and!; [exact chain3_wf|decided|].
    apply (proj2 C5_invalid_target 4 false 0%Q 0%Q chain3 chain3_tree);
      [exact chain3_wf|decided].
Defined.

(** C5 as the spec states it fails on [index.js]: [chop] on the root throws
    after [step++]; [chop] on the inner node n2 of the chain of length 3
    cuts the whole subtree of n2 off n1, regrows n1 at the root and
    counts a turn. *)
Lemma C5_counterexample :
  Index.isLeaf Index.root chain3 = false ∧
  Index.chop 4 Index.root chain3 = TypeError ∧
  Index.isLeaf 2 chain3 = false ∧
  Index.children <$> Index.heap chain3 = [[3]; []; [1]; [2]] ∧
  (λ s, (Index.step s, Index.children <$> Index.heap s)) <$> Index.chop 4 2 chain3
  = Done (1, [[3; 4]; []; [1]; []; []]).
Proof. split_and!; vm_compute; reflexivity. Qed.

(** ** The chain of length 3 *)

(** C7, as the code has it: in the chain root → n1 → n2 → n3 built by
    [initHydra(3)] (addresses 0, 3, 2, 1, labelled 0, 1, 2, 3), the parent
    of n3 is n2, which is not the root; cutting n3 at turn 1 appends one
    copy of the now childless n2 to n1: the tree is root → n1 → {n2, n2'},
    the move count is 1 and there are 4 nodes. *)
Theorem C7_chain3_first_cut :
  Index.initHydra 4 3 Index.init = Done chain3 ∧
  Index.id <$> Index.heap chain3 = [0; 3; 2; 1] ∧
  Index.children <$> Index.heap chain3 = [[3]; []; [1]; [2]] ∧
  Index.isLeaf 1 chain3 = true ∧
  (λ s, (Index.step s, Index.children <$> Index.heap s,
         Index.parent <$> Index.heap s)) <$> Index.chop 4 1 chain3
  = Done (1, [[3]; []; []; [2; 4]; []], [None; Some 2; Some 3; Some 0; Some 3]) ∧
  (s ← Index.chop 4 1 chain3; Index.getAllNodes 4 s) = Done [0; 3; 2; 4].
Proof. split_and!; vm_compute; reflexivity. Qed.

(** C7 as the spec states it fails: after the cut the hydra has 4 nodes,
    not 3, and n1 has two children. *)
Lemma C7_counterexample :
  (s ← Index.initHydra 4 3 Index.init;
   s ← Index.chop 4 1 s;
   nodes ← Index.getAllNodes 4 s;
   Done (length nodes, Index.children <$> Index.heap s !! 3))
  = Done (4, Some [2; 4]).
Proof. vm_compute. reflexivity. Qed.

(** ** Leaves and the root *)

(** C8, as the code has it: [isLeaf] of [index.js] holds of a node iff it
    has no children and is not the root object, so never of the root;
    [isLeaf] of [script.js] holds iff the node has no children, whether it
    is the root or not; [isRoot] of [script.js] holds iff the node has no
    parent. *)
Theorem C8_isLeaf_isRoot :
  (∀ a s, Index.isLeaf a s = true ↔
          ∃ n, Index.heap s !! a = Some n ∧ Index.children n = [] ∧ a ≠ Index.root) ∧
  (∀ s, Index.isLeaf Index.root s = false) ∧
  (∀ n, Script.isLeaf n = true ↔ Script.children n = []) ∧
  (∀ n, Script.isRoot n = true ↔ Script.parent n = None).
Proof.
  split_and!.
  - intros a s. unfold Index.isLeaf. destruct (Index.heap s !! a) as [n|]; split.
    + intros [H1 H2]%andb_prop. apply bool_decide_eq_true in H1, H2.
      exists n. split_and!; [done| |done]. by destruct (Index.children n).
    + intros (n' & [= <-] & Hk & Hne). rewrite Hk. cbn [length].
      by rewrite !bool_decide_eq_true_2.
    + done.
    + by intros (n & ? & _).
  - intros s. unfold Index.isLeaf. destruct (Index.heap s !! Index.root); [|done].
    rewrite (bool_decide_eq_false_2 (Index.root ≠ Index.root)) by auto.
    apply andb_false_r.
  - apply ScriptFacts.isLeaf_true.
  - intros n. unfold Script.isRoot. apply bool_decide_eq_true.
Qed.

(** C8 as the spec states it fails on [script.js]: the hydra set up by
    [setHydra(balancedHydra(0, 2))] is a root without children, and both
    [isLeaf] and [isRoot] hold of it. *)
Lemma C8_counterexample :
  ('(r, s) ← Script.balancedHydra 1 0 2 (Script.init 0);
   s ← Script.setHydra 1 r s;
   h ← Script.deref (Script.hydra s);
   n ← Script.get h s;
   Done (Script.children n, Script.isLeaf n, Script.isRoot n))
  = Done ([], true, true).
Proof. vm_compute. reflexivity. Qed.

(** ** The layout *)

(** X4: The width-accumulation layout of [index.js] does what is asked of a
    layout: on every store that holds a tree [t], [redraw] returns, and then
    the positions of the nodes, in pre-order, are those the shape of [t]
    alone prescribes; a node at depth [d] has the vertical coordinate
    [0 - vSpacing - ... - vSpacing] ([d] times); and of two sibling
    subtrees anywhere in [t], every node of the left one is at least
    [hSpacing] to the left of every node of the right one. *)
Theorem redraw_layout fuel s t :
  Index.wf s t → height t ≤ fuel →
  ∃ s', Index.redraw fuel s = Done s' ∧
    Index.position (Index.heap s') <$> addrs t
      = Some <$> Index.coordsS 0 0 (erase t) ∧
    (∀ d a, a ∈ level d t →
       ∃ n, Index.heap s' !! a = Some n ∧
            Index.y n = Nat.iter d (λ v, (v - Index.vSpacing)%Q) 0%Q) ∧
    (∀ c p l1 c1 l2 c2 l3 a1 a2 n1 n2,
       t = plug c (T p (l1 ++ c1 :: l2 ++ c2 :: l3)) →
       a1 ∈ addrs c1 → a2 ∈ addrs c2 →
       Index.heap s' !! a1 = Some n1 → Index.heap s' !! a2 = Some n2 →
       (Index.x n1 + Index.hSpacing <= Index.x n2)%Q).
Proof.
  intros Hwf Hfuel.
  destruct (IndexFacts.redraw_spec fuel s t Hwf Hfuel) as
    (s' & Hrun & _ & _ & _ & _ & _ & _ & Hp).
  exists s'. split_and!; [done| | |].
  - by apply IndexFacts.placed_coords.
  - intros d a Ha. by eapply IndexFacts.placed_level.
  - intros c p l1 c1 l2 c2 l3 a1 a2 n1 n2 -> Ha1 Ha2 Hn1 Hn2.
    destruct (IndexFacts.placed_plug _ _ _ _ _ Hp) as (qx & qy & Hq).
    by eapply IndexFacts.placed_siblings.
Qed.

Lemma redraw_layout_witness :
  ∃ s', Index.redraw 3 forked = Done s' ∧
    Index.position (Index.heap s') <$> addrs forked_tree
      = Some <$> Index.coordsS 0 0 (erase forked_tree) ∧
    (∀ d a, a ∈ level d forked_tree →
       ∃ n, Index.heap s' !! a = Some n ∧
            Index.y n = Nat.iter d (λ v, (v - Index.vSpacing)%Q) 0%Q) ∧
    (∀ c p l1 c1 l2 c2 l3 a1 a2 n1 n2,
       forked_tree = plug c (T p (l1 ++ c1 :: l2 ++ c2 :: l3)) →
       a1 ∈ addrs c1 → a2 ∈ addrs c2 →
       Index.heap s' !! a1 = Some n1 → Index.heap s' !! a2 = Some n2 →
       (Index.x n1 + Index.hSpacing <= Index.x n2)%Q).
Proof.
  apply (redraw_layout 3 forked forked_tree);
    [split_and!; [reflexivity|holds_tree|decided]|vm_compute; lia].
Defined.

(** C4 fails on [script.js].  On the tree the page starts with,
    [setHydra(balancedHydra(3, 2))], drawn 1000 wide, [computeLayout]
    returns a layout in which the spans of the root's two children 6 and 13
    overlap: node 5, a child of 6, and node 9, a child of 13, are put at
    the same point, and node 4, a grandchild of 6, is put to the right of
    13 and of 9.  [place] gives every child the share [size / total] of the
    whole width [W - 120], at every level, not of the span
    [xRight - xLeft] of its parent. *)
Theorem C4_script_siblings_overlap :
  Script.wf simple simple_tree ∧
  ∃ coords, Script.computeLayout 4 14 simple = Done coords ∧
    located coords 6 280 130 ∧ located coords 13 720 130 ∧
    located coords 5 720 220 ∧ located coords 9 720 220 ∧
    located coords 4 1160 310.
Proof.
  split; [exact simple_wf|].
  eexists. split; [vm_compute; reflexivity|].
  split_and!; eexists; (split; [vm_compute; reflexivity|split; reflexivity]).
Qed.

(** ** The game ends *)

(** C9: from every store of [index.js] that holds a finite tree, in normal
    (non-reduced) growth mode, every sequence of cuts of leaves is finite
    and ends in a state whose root has no children: in each state the root
    is childless, or some leaf can be cut and whichever leaf is cut the
    same holds again.  No bound on the number of cuts is given. *)
Theorem C9_every_play_slays s t :
  Index.wf s t → Index.reducedGrowth s = false → Index.slays s.
Proof.
  intros Hwf _. eapply IndexFacts.slays_acc; [apply red_wf|exact Hwf|done].
Qed.

Lemma C9_witness :
  Index.wf chain3 chain3_tree ∧ Index.reducedGrowth chain3 = false ∧
  Index.slays chain3.
Proof.
  split_and!; [exact chain3_wf|reflexivity|].
  apply (C9_every_play_slays chain3 chain3_tree); [exact chain3_wf|reflexivity].
Defined.

(** * Further properties of the code *)

Lemma forked_boot : Index.chop 4 1 chain3 = Done forked.
Proof. vm_compute. reflexivity. Qed.

Lemma forked_wf : Index.wf forked forked_tree.
Proof. split_and!; [reflexivity|holds_tree|decided]. Qed.


(** ** [index.js] *)

(** X1: [deepCopy(node, newParent)] on a store that holds the tree [u] below
    [node] returns the first free address.  It allocates as many objects
    as [u] has nodes, at the next free addresses in pre-order; they hold a
    tree of the shape of [u] whose root points up to [newParent].  As many
    labels are taken from [idCounter], and every object that existed
    before is left as it was. *)
Theorem deepCopy_fresh_copy fuel s par np u :
  repr Index.children Index.parent (Index.heap s) par u → height u ≤ fuel →
  ∃ s' c,
    Index.deepCopy fuel (tr_root u) np s = Done (length (Index.heap s), s') ∧
    repr Index.children Index.parent (Index.heap s') np c ∧
    tr_root c = length (Index.heap s) ∧
    erase c = erase u ∧
    addrs c = seq (length (Index.heap s)) (size u) ∧
    length (Index.heap s') = length (Index.heap s) + size u ∧
    Index.idCounter s' = Index.idCounter s + size u ∧
    (∀ a, a < length (Index.heap s) → Index.heap s' !! a = Index.heap s !! a).
Proof.
  intros Hr Hfuel.
  destruct (IndexFacts.deepCopy_spec u fuel s par np Hr Hfuel) as
    (s' & c & Hrun & (Hlen & Hfr & _ & _ & _ & Hid) & Hc & Hroot & Her & Hadd).
  exists s', c. split_and!; done.
Qed.

Lemma deepCopy_fresh_copy_witness :
  ∃ s' c,
    Index.deepCopy 2 3 None forked = Done (5, s') ∧
    erase c = Sh [Sh []; Sh []] ∧ addrs c = [5; 6; 7] ∧
    Index.idCounter s' = 7.
Proof.
  destruct (deepCopy_fresh_copy 2 forked (Some 0) None (T 3 [T 2 []; T 4 []]))
    as (s' & c & H1 & _ & _ & H2 & H3 & _ & H4 & _);
    [holds_tree|vm_compute; lia|].
  exists s', c. split_and!; [exact H1|exact H2|exact H3|exact H4].
Defined.

(** X2: After [redraw] the labels of the nodes are their ranks in pre-order:
    the root is 0, then come its first child and all below it, and so on
    through the children in order; [idCounter] is the number of nodes, so
    the labels [deepCopy] hands out next are not in use. *)
Theorem redraw_labels_preorder fuel s t :
  Index.wf s t → height t ≤ fuel →
  ∃ s', Index.redraw fuel s = Done s' ∧
        Index.label (Index.heap s') <$> addrs t = Some <$> seq 0 (size t) ∧
        Index.idCounter s' = size t.
Proof.
  intros Hwf Hfuel.
  destruct (IndexFacts.redraw_spec fuel s t Hwf Hfuel) as
    (s' & Hrun & _ & _ & _ & _ & Hid & _).
  exists s'. split_and!; [done| |done].
  destruct Hwf as (Hroot & Hr & Hnd).
  destruct (IndexFacts.relabel_traverse_labels t fuel 0 s None Hr Hnd Hfuel) as
    (s1 & Hrel & _ & _ & Hlab).
  rewrite Hroot in Hrel.
  unfold Index.redraw, Index.relabelTree in Hrun. rewrite Hrel in Hrun.
  cbn [mbind outcome_bind] in Hrun.
  bind_inv Hrun as s2 E2. bind_inv Hrun as s3 E3. bind_inv Hrun as nodes E4.
  injection Hrun as <-.
  apply IndexFacts.computeWidths_ids in E2. apply IndexFacts.placeNodes_ids in E3.
  rewrite <- Hlab. apply list_fmap_ext. intros i a _.
  apply IndexFacts.label_ids. by rewrite E3, E2.
Qed.

Lemma redraw_labels_preorder_witness :
  ∃ s', Index.redraw 3 forked = Done s' ∧
        Index.label (Index.heap s') <$> [0; 3; 2; 4] = [Some 0; Some 1; Some 2; Some 3] ∧
        Index.idCounter s' = 4.
Proof.
  apply (redraw_labels_preorder 3 forked forked_tree);
    [exact forked_wf|vm_compute; lia].
Defined.

(** X3: [getAllNodes] lists the nodes of the hydra in pre-order, the root
    first, each node once; its length is the node count [redraw] shows. *)
Theorem getAllNodes_preorder fuel s t :
  Index.wf s t → height t ≤ fuel →
  Index.getAllNodes fuel s = Done (addrs t) ∧
  NoDup (addrs t) ∧ length (addrs t) = size t.
Proof.
  intros Hwf Hfuel. split_and!.
  - by apply IndexFacts.getAllNodes_spec.
  - by destruct Hwf as (_ & _ & ?).
  - apply size_addrs.
Qed.

Lemma getAllNodes_preorder_witness :
  Index.getAllNodes 3 forked = Done [0; 3; 2; 4] ∧
  NoDup [0; 3; 2; 4] ∧ length [0; 3; 2; 4] = 4.
Proof.
  apply (getAllNodes_preorder 3 forked forked_tree);
    [exact forked_wf|vm_compute; lia].
Defined.

(** X5: After [redraw] any two different nodes of the hydra are at least
    [hSpacing] = 40 apart horizontally or at least [vSpacing] = 80 apart
    vertically, so no point of the canvas lies in the discs (radius 10) of
    two nodes. *)
Theorem redraw_nodes_apart fuel s t :
  Index.wf s t → height t ≤ fuel →
  ∃ s', Index.redraw fuel s = Done s' ∧
    ∀ a1 a2 n1 n2, a1 ∈ addrs t → a2 ∈ addrs t → a1 ≠ a2 →
      Index.heap s' !! a1 = Some n1 → Index.heap s' !! a2 = Some n2 →
      ((Index.x n1 + Index.hSpacing <= Index.x n2)%Q ∨
       (Index.x n2 + Index.hSpacing <= Index.x n1)%Q ∨
       (Index.y n1 + Index.vSpacing <= Index.y n2)%Q ∨
       (Index.y n2 + Index.vSpacing <= Index.y n1)%Q) ∧
      ∀ wx wy, Index.hit wx wy n1 = true → Index.hit wx wy n2 = false.
Proof.
  intros Hwf Hfuel.
  destruct (IndexFacts.redraw_spec fuel s t Hwf Hfuel) as
    (s' & Hrun & _ & _ & _ & _ & _ & _ & Hp).
  exists s'. split; [done|]. intros a1 a2 n1 n2 H1 H2 Hne Hn1 Hn2. split.
  - exact (IndexFacts.placed_distinct _ _ _ _ _ _ _ _ Hp H1 H2 Hne Hn1 Hn2).
  - intros wx wy Hh1. destruct (Index.hit wx wy n2) eqn:Hh2; [|done].
    destruct Hne.
    exact (IndexFacts.hit_unique _ _ _ _ _ _ _ _ _ _ Hp H1 H2 Hn1 Hn2 Hh1 Hh2).
Qed.

Lemma redraw_nodes_apart_witness :
  ∃ s', Index.redraw 3 forked = Done s' ∧
    ∀ a1 a2 n1 n2, a1 ∈ addrs forked_tree → a2 ∈ addrs forked_tree → a1 ≠ a2 →
      Index.heap s' !! a1 = Some n1 → Index.heap s' !! a2 = Some n2 →
      ((Index.x n1 + Index.hSpacing <= Index.x n2)%Q ∨
       (Index.x n2 + Index.hSpacing <= Index.x n1)%Q ∨
       (Index.y n1 + Index.vSpacing <= Index.y n2)%Q ∨
       (Index.y n2 + Index.vSpacing <= Index.y n1)%Q) ∧
      ∀ wx wy, Index.hit wx wy n1 = true → Index.hit wx wy n2 = false.
Proof.
  apply (redraw_nodes_apart 3 forked forked_tree);
    [exact forked_wf|vm_compute; lia].
Defined.



(** X7: The cut of a leaf returns; when it takes the last head, the click
    listener is removed, and every later click leaves the state as it is;
    when heads are left, the listener stays as it was. *)
Theorem chop_last_head_removes_listener fuel s t L :
  Index.wf s t → L ∈ addrs t → Index.isLeaf L s = true → height t ≤ fuel →
  ∃ s' t', Index.chop fuel L s = Done s' ∧ Index.wf s' t' ∧
    (tr_kids t' = [] →
       Index.listening s' = false ∧
       ∀ fuel' b wx wy, Index.click fuel' b wx wy s' = Done s') ∧
    (tr_kids t' ≠ [] → Index.listening s' = Index.listening s).
Proof.
  intros Hwf HL Hleaf Hfuel.
  destruct (IndexFacts.chop_decreases fuel s t L Hwf HL Hleaf Hfuel) as
    (s' & t' & Hchop & Hwf' & _).
  exists s', t'. split_and!; [done|done| |].
  all: destruct (IndexFacts.chop_listening _ _ _ _ Hchop) as (r' & Hr' & Hlis).
  all: destruct Hwf' as (Hroot' & Hrepr' & _).
  all: destruct (repr_root _ _ _ _ _ Hrepr') as (r & Hr & Hkids & _).
  all: rewrite Hroot', Hr' in Hr; injection Hr as <-.
  all: rewrite Hkids, length_fmap in Hlis.
  - intros Hk. rewrite Hk in Hlis. cbn in Hlis. split; [done|].
    intros fuel' b wx wy. unfold Index.click. by rewrite Hlis.
  - intros Hk. rewrite bool_decide_eq_false_2 in Hlis; [done|].
    by destruct (tr_kids t').
Qed.

Lemma chop_last_head_removes_listener_witness :
  ∃ s' t', Index.chop 2 1 chain1 = Done s' ∧ Index.wf s' t' ∧
    (tr_kids t' = [] →
       Index.listening s' = false ∧
       ∀ fuel' b wx wy, Index.click fuel' b wx wy s' = Done s') ∧
    (tr_kids t' ≠ [] → Index.listening s' = Index.listening chain1).
Proof.
  apply (chop_last_head_removes_listener 2 chain1 chain1_tree 1);
    [exact chain1_wf|decided|reflexivity|vm_compute; lia].
Defined.

(** X8: [initHydra(n)], whatever hydra the store held before, returns with a
    chain below the root: one head for [n] = 0 or 1, else [n] nodes one
    below the other, all newly allocated.  The turn counter is back at 0,
    the click listener is registered, the growth mode is kept, and
    [idCounter] is the number of nodes. *)
Theorem initHydra_builds_chain fuel n s t0 :
  Index.wf s t0 → S (S (n - 1)) ≤ fuel →
  ∃ s', Index.initHydra fuel n s = Done s' ∧
        Index.wf s' (T Index.root [chain_up (length (Index.heap s)) (n - 1)]) ∧
        Index.step s' = 0 ∧ Index.listening s' = true ∧
        Index.reducedGrowth s' = Index.reducedGrowth s ∧
        Index.idCounter s' = S (S (n - 1)).
Proof. apply IndexFacts.initHydra_spec. Qed.

Lemma initHydra_builds_chain_witness :
  ∃ s', Index.initHydra 5 4 forked = Done s' ∧
        Index.wf s' (T 0 [T 8 [T 7 [T 6 [T 5 []]]]]) ∧
        Index.step s' = 0 ∧ Index.listening s' = true ∧
        Index.reducedGrowth s' = false ∧
        Index.idCounter s' = 5.
Proof.
  apply (initHydra_builds_chain 5 4 forked forked_tree);
    [exact forked_wf|vm_compute; lia].
Defined.

(** X9: After [redraw] the width reserved for the whole hydra is [hSpacing]
    = 40 for each of its leaves, and every node lies within that width
    around the root, half a spacing away from its ends. *)
Theorem redraw_extent fuel s t :
  Index.wf s t → height t ≤ fuel →
  ∃ s' r, Index.redraw fuel s = Done s' ∧
    Index.heap s' !! Index.root = Some r ∧
    (Index.width r == Index.hSpacing * inject_Z (Z.of_nat (leaves t)))%Q ∧
    ∀ a n, a ∈ addrs t → Index.heap s' !! a = Some n →
      (Index.hSpacing / 2 - Index.width r / 2 <= Index.x n)%Q ∧
      (Index.x n <= Index.width r / 2 - Index.hSpacing / 2)%Q.
Proof.
  intros Hwf Hfuel.
  destruct (IndexFacts.redraw_spec fuel s t Hwf Hfuel) as
    (s' & Hrun & _ & _ & _ & _ & _ & Hw & Hp).
  destruct (IndexFacts.laid_w_root _ _ Hw) as (r & Hr & Hwr).
  destruct Hwf as (Hroot & _). rewrite Hroot in Hr.
  exists s', r. split_and!; [done|done| |].
  - rewrite Hwr. apply IndexFacts.widthT_leaves.
  - intros a n Ha Hn.
    destruct (IndexFacts.placed_span _ _ _ _ _ Hp Ha) as (m & Hm & Hlo & Hhi).
    assert (m = n) as -> by congruence. rewrite Hwr.
    revert Hlo Hhi. generalize (Index.widthT t) (Index.x n). intros w xn Hlo Hhi.
    split; IndexFacts.qlra.
Qed.

Lemma redraw_extent_witness :
  ∃ s' r, Index.redraw 3 forked = Done s' ∧
    Index.heap s' !! Index.root = Some r ∧
    (Index.width r == Index.hSpacing * inject_Z (Z.of_nat (leaves forked_tree)))%Q ∧
    ∀ a n, a ∈ addrs forked_tree → Index.heap s' !! a = Some n →
      (Index.hSpacing / 2 - Index.width r / 2 <= Index.x n)%Q ∧
      (Index.x n <= Index.width r / 2 - Index.hSpacing / 2)%Q.
Proof.
  apply (redraw_extent 3 forked forked_tree); [exact forked_wf|vm_compute; lia].
Defined.

(** X10: [toggleReducedGrowth] returns with the growth mode flipped and the
    hydra and the turn counter as they were; called twice, it gives back
    the growth mode it started from. *)
Theorem toggleReducedGrowth_twice fuel s t :
  Index.wf s t → height t ≤ fuel →
  ∃ s1 s2,
    Index.toggleReducedGrowth fuel s = Done s1 ∧
    Index.reducedGrowth s1 = negb (Index.reducedGrowth s) ∧
    Index.wf s1 t ∧ Index.step s1 = Index.step s ∧
    Index.toggleReducedGrowth fuel s1 = Done s2 ∧
    Index.reducedGrowth s2 = Index.reducedGrowth s ∧
    Index.wf s2 t ∧ Index.step s2 = Index.step s.
Proof.
  intros Hwf Hfuel. unfold Index.toggleReducedGrowth.
  destruct (IndexFacts.redraw_spec fuel
              (Index.set_reducedGrowth (negb (Index.reducedGrowth s)) s) t Hwf Hfuel)
    as (s1 & Hrun1 & F1 & Hstep1 & Hred1 & _).
  pose proof (IndexFacts.wf_links _ _ _ F1 Hwf) as Hwf1.
  destruct (IndexFacts.redraw_spec fuel
              (Index.set_reducedGrowth (negb (Index.reducedGrowth s1)) s1) t Hwf1 Hfuel)
    as (s2 & Hrun2 & F2 & Hstep2 & Hred2 & _).
  pose proof (IndexFacts.wf_links _ _ _ F2 Hwf1) as Hwf2.
  exists s1, s2. split_and!; try done.
  - rewrite Hred2, Hred1. cbn. apply negb_involutive.
  - by rewrite Hstep2.
Qed.

Lemma toggleReducedGrowth_twice_witness :
  ∃ s1 s2,
    Index.toggleReducedGrowth 3 forked = Done s1 ∧
    Index.reducedGrowth s1 = true ∧
    Index.wf s1 forked_tree ∧ Index.step s1 = 1 ∧
    Index.toggleReducedGrowth 3 s1 = Done s2 ∧
    Index.reducedGrowth s2 = false ∧
    Index.wf s2 forked_tree ∧ Index.step s2 = 1.
Proof.
  apply (toggleReducedGrowth_twice 3 forked forked_tree);
    [exact forked_wf|vm_compute; lia].
Defined.

(** ** [script.js] *)

(** X12: [cloneSubtree(node)] on a store that holds the tree [u] below [node]
    returns the first free address.  It allocates as many objects as [u]
    has nodes, at the next free addresses in pre-order; they hold a tree of
    the shape of [u] whose root has no parent.  As many identifiers are
    taken from [nextId], and every object that existed before is left as
    it was. *)
Theorem cloneSubtree_detached_copy fuel s par u :
  repr Script.children Script.parent (Script.heap s) par u → height u ≤ fuel →
  ∃ s' c,
    Script.cloneSubtree fuel (tr_root u) s = Done (length (Script.heap s), s') ∧
    repr Script.children Script.parent (Script.heap s') None c ∧
    tr_root c = length (Script.heap s) ∧
    erase c = erase u ∧
    addrs c = seq (length (Script.heap s)) (size u) ∧
    length (Script.heap s') = length (Script.heap s) + size u ∧
    Script.nextId s' = Script.nextId s + size u ∧
    (∀ a, a < length (Script.heap s) → Script.heap s' !! a = Script.heap s !! a).
Proof.
  intros Hr Hfuel.
  destruct (ScriptFacts.clone_rec_spec u fuel s par Hr Hfuel) as
    (s' & c & Hrun & (Hlen & Hfr & _ & _ & _ & Hid & _) & Hc & Hroot & Her & Hadd).
  exists s', c. split_and!; done.
Qed.

Lemma cloneSubtree_detached_copy_witness :
  ∃ s' c,
    Script.cloneSubtree 3 6 simple = Done (15, s') ∧
    erase c = Sh [Sh [Sh []; Sh []]; Sh [Sh []; Sh []]] ∧
    addrs c = [15; 16; 17; 18; 19; 20; 21] ∧
    Script.nextId s' = 23.
Proof.
  destruct (cloneSubtree_detached_copy 3 simple (Some 14)
              (T 6 [T 2 [T 0 []; T 1 []]; T 5 [T 3 []; T 4 []]]))
    as (s' & c & H1 & _ & _ & H2 & H3 & _ & H4 & _);
    [holds_tree|vm_compute; lia|].
  exists s', c. split_and!; [exact H1|exact H2|exact H3|exact H4].
Defined.

(** X13: [assignDepths(node, d)] on a store that holds the tree [t] below
    [node] returns; after it a node [k] levels below [node] carries the
    depth [d + k], the links of all objects are as before, and objects
    outside [t] are untouched. *)
Theorem assignDepths_levels fuel s par d t :
  repr Script.children Script.parent (Script.heap s) par t → NoDup (addrs t) →
  height t ≤ fuel →
  ∃ s', Script.assignDepths fuel (tr_root t) d s = Done s' ∧
    Forall2 Script.links (Script.heap s) (Script.heap s') ∧
    (∀ k a, a ∈ level k t →
       ∃ n, Script.heap s' !! a = Some n ∧ Script.depth n = d + k) ∧
    (∀ b, b ∉ addrs t → Script.heap s' !! b = Script.heap s !! b).
Proof.
  intros Hr Hnd Hfuel.
  destruct (ScriptFacts.assignDepths_spec t fuel s par d Hr Hnd Hfuel) as
    (s' & Hrun & Hl & _ & Hfr & Hok).
  exists s'. split_and!; [done|done| |done].
  intros k a Ha. by eapply ScriptFacts.depths_ok_level.
Qed.

Lemma assignDepths_levels_witness :
  ∃ s', Script.assignDepths 3 6 5 simple = Done s' ∧
    Forall2 Script.links (Script.heap simple) (Script.heap s') ∧
    (∀ k a, a ∈ level k (T 6 [T 2 [T 0 []; T 1 []]; T 5 [T 3 []; T 4 []]]) →
       ∃ n, Script.heap s' !! a = Some n ∧ Script.depth n = 5 + k) ∧
    (∀ b, b ∉ addrs (T 6 [T 2 [T 0 []; T 1 []]; T 5 [T 3 []; T 4 []]]) →
       Script.heap s' !! b = Script.heap simple !! b).
Proof.
  apply (assignDepths_levels 3 simple (Some 14) 5
           (T 6 [T 2 [T 0 []; T 1 []]; T 5 [T 3 []; T 4 []]]));
    [holds_tree|decided|vm_compute; lia].
Defined.

(** X14: [computeLayout(root)] on a store that holds the tree [t] below [root]
    returns a map with a point for every node of [t] and for nothing
    else; a node [k] levels below the root has y = 40 + k * [LEVEL_GAP],
    and the root has x = (60 + (W - 60)) / 2, the middle of the width. *)
Theorem computeLayout_levels fuel s t :
  repr Script.children Script.parent (Script.heap s) None t → NoDup (addrs t) →
  height t ≤ fuel →
  ∃ coords, Script.computeLayout fuel (tr_root t) s = Done coords ∧
    (∀ b, is_Some (coords !! b) ↔ b ∈ addrs t) ∧
    (∀ k a, a ∈ level k t →
       ∃ px, coords !! a = Some (px, (40 + Script.num k * Script.LEVEL_GAP)%Q)) ∧
    located coords (tr_root t) (Script.WIDTH s / 2) 40.
Proof.
  intros Hr Hnd Hfuel.
  destruct (ScriptFacts.computeLayout_spec fuel s t Hr Hnd Hfuel) as
    (coords & Hrun & Hout & Hl).
  exists coords. split_and!; [done| | |].
  - intros b. split.
    + intros Hs. destruct (decide (b ∈ addrs t)) as [|Hn]; [done|].
      rewrite (Hout b Hn) in Hs. by destruct Hs.
    + intros (k & Hk)%addrs_level.
      destruct (ScriptFacts.laid_level _ _ _ _ _ _ _ _ Hl Hk) as (px & ->). eauto.
  - intros k a Ha. exact (ScriptFacts.laid_level _ _ _ _ _ _ _ _ Hl Ha).
  - destruct t as [a cs]. apply ScriptFacts.laid_inv in Hl as [Ha _].
    eexists. split; [exact Ha|]. cbn [fst snd]. split.
    + unfold Qdiv. ring.
    + change (Script.num 0) with 0%Q. ring.
Qed.

Lemma computeLayout_levels_witness :
  ∃ coords, Script.computeLayout 4 14 simple = Done coords ∧
    (∀ b, is_Some (coords !! b) ↔ b ∈ addrs simple_tree) ∧
    (∀ k a, a ∈ level k simple_tree →
       ∃ px, coords !! a = Some (px, (40 + Script.num k * Script.LEVEL_GAP)%Q)) ∧
    located coords 14 (Script.WIDTH simple / 2) 40.
Proof.
  apply (computeLayout_levels 4 simple simple_tree);
    [holds_tree|decided|vm_compute; lia].
Defined.



(** X16: [subtreeSize(n)] and the [size] of [computeLayout] both return the
    number of leaves below [n], which is at least 1, so the [total] that
    [place] divides by is never 0; [size] leaves the number of leaves of
    every node it went through in its cache. *)
Theorem subtreeSize_counts_leaves fuel s par t :
  repr Script.children Script.parent (Script.heap s) par t → NoDup (addrs t) →
  height t ≤ fuel →
  0 < leaves t ∧
  Script.subtreeSize fuel s (tr_root t) = Done (leaves t) ∧
  ∃ cache, Script.size_rec fuel s (tr_root t) ∅ = Done (leaves t, cache) ∧
           Script.sized cache t.
Proof.
  intros Hr Hnd Hfuel. split_and!.
  - apply leaves_pos.
  - by eapply ScriptFacts.subtreeSize_spec.
  - destruct (ScriptFacts.size_rec_leaves t fuel s par ∅ Hr Hnd) as
      (cache & Hrun & _ & Hs); [done|done|]. eauto.
Qed.

Lemma subtreeSize_counts_leaves_witness :
  0 < leaves simple_tree ∧
  Script.subtreeSize 4 simple 14 = Done 8 ∧
  ∃ cache, Script.size_rec 4 simple 14 ∅ = Done (8, cache) ∧
           Script.sized cache simple_tree.
Proof.
  apply (subtreeSize_counts_leaves 4 simple None simple_tree);
    [holds_tree|decided|vm_compute; lia].
Defined.

(** X17: [lineHydra(n)] returns, from any state, a new root with a chain of
    [n] nodes below it, one below the other ([n] = 0 gives a lone root),
    with depths 0, 1, ..., [n]; it allocates [n + 1] objects with as many
    new identifiers and touches no object that existed before, nor the
    hydra on display and its counters. *)
Theorem lineHydra_builds_chain fuel n s :
  S n ≤ fuel →
  ∃ s', Script.lineHydra fuel n s = Done (length (Script.heap s), s') ∧
    repr Script.children Script.parent (Script.heap s') None
      (chain_down (length (Script.heap s)) n) ∧
    Script.depths_ok (Script.heap s') 0 (chain_down (length (Script.heap s)) n) ∧
    length (Script.heap s') = length (Script.heap s) + S n ∧
    (∀ a, a < length (Script.heap s) → Script.heap s' !! a = Script.heap s !! a) ∧
    Script.same_vars (Script.set_nextId (Script.nextId s + S n) s) s'.
Proof. apply ScriptFacts.lineHydra_spec. Qed.

Lemma lineHydra_builds_chain_witness :
  ∃ s', Script.lineHydra 3 2 simple = Done (15, s') ∧
    repr Script.children Script.parent (Script.heap s') None
      (T 15 [T 16 [T 17 []]]) ∧
    Script.depths_ok (Script.heap s') 0 (T 15 [T 16 [T 17 []]]) ∧
    length (Script.heap s') = 18 ∧
    (∀ a, a < 15 → Script.heap s' !! a = Script.heap simple !! a) ∧
    Script.same_vars (Script.set_nextId 19 simple) s'.
Proof. apply (lineHydra_builds_chain 3 2 simple). lia. Defined.

(** X18: [balancedHydra(d, b)] returns, from any state, the root of a new full
    tree: every node less than [d] levels below the root has [b]
    children, the nodes at level [d] have none ([b] = 0 gives a lone
    root).  Its nodes are the objects allocated by the call, each once,
    with new identifiers and their depths set; no object that existed
    before is touched, nor the hydra on display and its counters. *)
Theorem balancedHydra_builds_full_tree fuel d b s :
  S d ≤ fuel →
  ∃ s' t, Script.balancedHydra fuel d b s = Done (tr_root t, s') ∧
    repr Script.children Script.parent (Script.heap s') None t ∧
    NoDup (addrs t) ∧ Script.depths_ok (Script.heap s') 0 t ∧
    erase t = full b d ∧
    addrs t ≡ₚ seq (length (Script.heap s)) (size t) ∧
    length (Script.heap s') = length (Script.heap s) + size t ∧
    (∀ a, a < length (Script.heap s) → Script.heap s' !! a = Script.heap s !! a) ∧
    Script.same_vars (Script.set_nextId (Script.nextId s + size t) s) s'.
Proof. apply ScriptFacts.balancedHydra_spec. Qed.

Lemma balancedHydra_builds_full_tree_witness :
  ∃ s' t, Script.balancedHydra 3 2 3 simple = Done (tr_root t, s') ∧
    repr Script.children Script.parent (Script.heap s') None t ∧
    NoDup (addrs t) ∧ Script.depths_ok (Script.heap s') 0 t ∧
    erase t = full 3 2 ∧
    addrs t ≡ₚ seq 15 (size t) ∧
    length (Script.heap s') = 15 + size t ∧
    (∀ a, a < 15 → Script.heap s' !! a = Script.heap simple !! a) ∧
    Script.same_vars (Script.set_nextId (16 + size t) simple) s'.
Proof. apply (balancedHydra_builds_full_tree 3 2 3 simple). lia. Defined.

(** X19: [setHydra(root)] on a store that holds a tree below [root] puts that
    tree on display with its depths set, the move counter at 0 and no
    depth counter, so that the first cut at any depth regrows one copy. *)
Theorem setHydra_new_game fuel s t :
  repr Script.children Script.parent (Script.heap s) None t → NoDup (addrs t) →
  height t ≤ fuel →
  ∃ s', Script.setHydra fuel (tr_root t) s = Done s' ∧
        Script.wf s' t ∧ Script.moveCount s' = 0 ∧
        Script.depthCounters s' = ∅ ∧
        Script.nextId s' = Script.nextId s ∧
        Forall2 Script.links (Script.heap s) (Script.heap s').
Proof. apply ScriptFacts.setHydra_spec. Qed.

Lemma setHydra_new_game_witness :
  ∃ s', Script.setHydra 4 14 simple = Done s' ∧
        Script.wf s' simple_tree ∧
        Script.moveCount s' = 0 ∧
        Script.depthCounters s' = ∅ ∧
        Script.nextId s' = 16 ∧
        Forall2 Script.links (Script.heap simple) (Script.heap s').
Proof.
  apply (setHydra_new_game 4 simple simple_tree);
    [holds_tree|decided|vm_compute; lia].
Defined.

(** X20: The buttons [Simple] and [Medium] start a new game from any state:
    the hydra on display is the full tree of depth 3 with 2 children per
    node (15 nodes), or of depth 4 with 3 children per node (121 nodes),
    the identifiers run from 1, the move counter is 0 and there is no
    depth counter. *)
Theorem buttons_start_new_game fuel s :
  5 ≤ fuel →
  (∃ s' t, Script.btnSimple fuel s = Done s' ∧ Script.wf s' t ∧
           erase t = full 2 3 ∧ size t = 15 ∧ Script.nextId s' = 16 ∧
           Script.moveCount s' = 0 ∧ Script.depthCounters s' = ∅) ∧
  (∃ s' t, Script.btnMedium fuel s = Done s' ∧ Script.wf s' t ∧
           erase t = full 3 4 ∧ size t = 121 ∧ Script.nextId s' = 122 ∧
           Script.moveCount s' = 0 ∧ Script.depthCounters s' = ∅).
Proof.
  intros Hfuel.
  assert (∀ d b n, S d ≤ fuel → sh_size (full b d) = n →
    ∃ s' t,
      ('(r, s1) ← Script.balancedHydra fuel d b (Script.set_nextId 1 s);
       Script.setHydra fuel r s1) = Done s' ∧
      Script.wf s' t ∧ erase t = full b d ∧ size t = n ∧
      Script.nextId s' = S n ∧
      Script.moveCount s' = 0 ∧ Script.depthCounters s' = ∅) as Hgen.
  { intros d b n Hd Hn.
    destruct (ScriptFacts.balancedHydra_spec fuel d b (Script.set_nextId 1 s) Hd) as
      (s1 & t & -> & Hr & Hnd & _ & He & _ & _ & _ & Hv).
    cbn [mbind outcome_bind].
    assert (size t = n) as Hsize by (by rewrite <- erase_size, He).
    destruct (ScriptFacts.setHydra_spec fuel s1 t Hr Hnd) as
      (s2 & -> & Hwf & Hm & Hc & Hid & _).
    { rewrite <- erase_height, He. pose proof (ScriptFacts.sh_height_full b d). lia. }
    exists s2, t. split_and!; try done.
    destruct Hv as (_ & _ & _ & Hid1 & _). cbn in Hid1. rewrite Hid, Hid1, Hsize. done. }
  split.
  - apply (Hgen 3 2 15); [lia|reflexivity].
  - apply (Hgen 4 3 121); [lia|reflexivity].
Qed.

Lemma buttons_start_new_game_witness :
  (∃ s' t, Script.btnSimple 5 twig = Done s' ∧ Script.wf s' t ∧
           erase t = full 2 3 ∧ size t = 15 ∧ Script.nextId s' = 16 ∧
           Script.moveCount s' = 0 ∧ Script.depthCounters s' = ∅) ∧
  (∃ s' t, Script.btnMedium 5 twig = Done s' ∧ Script.wf s' t ∧
           erase t = full 3 4 ∧ size t = 121 ∧ Script.nextId s' = 122 ∧
           Script.moveCount s' = 0 ∧ Script.depthCounters s' = ∅).
Proof. apply (buttons_start_new_game 5 twig). lia. Defined.

(** X21: Every game of [script.js] ends: from every store that holds a tree
    with its depths, however the player picks the leaves to cut and
    however large the depth counters have grown, the cuts come to an end
    in a state whose root has no children.  Every cut on the way returns
    and leaves a store that holds a tree with its depths. *)
Theorem script_every_play_slays s t : Script.wf s t → Script.slays s.
Proof.
  intros Hwf. eapply ScriptFacts.sslays_acc; [apply red_wf|exact Hwf|done].
Qed.

Lemma script_every_play_slays_witness : Script.slays simple.
Proof. apply (script_every_play_slays simple simple_tree). exact simple_wf. Defined.

(** X11: Every game of [index.js] ends in reduced growth mode as well: from
    every store that holds a tree, whatever the growth mode, the cuts come
    to an end in a state whose root has no children. *)
Theorem index_every_play_slays_any_mode s t : Index.wf s t → Index.slays s.
Proof.
  intros Hwf. eapply IndexFacts.slays_acc; [apply red_wf|exact Hwf|done].
Qed.

Lemma index_every_play_slays_any_mode_witness :
  Index.slays (Index.set_reducedGrowth true forked).
Proof.
  apply (index_every_play_slays_any_mode _ forked_tree).
  split_and!; [reflexivity|holds_tree|decided].
Defined.

(** ** Random hydras *)






